(** * btrfs-heatmap: the rendering core of [heatmap.py]

    A shallow embedding of the curve generators, the order/size selector,
    the pixel compositor, the fill engine of [Grid] and the PNG encoder.

    Conventions.
    - Python [int] is [Z].
    - Python [float] is idealised as an exact rational ([Q]); [int(x)] is
      truncation towards zero, [round(x)] rounds half to even, [x % y]
      takes the sign of the divisor.
    - An exception is a value of [exn]; code that may raise returns
      [result].
    - [print] calls (and the [verbose] levels that only gate them) produce
      no state and are left out. *)

From Stdlib Require Import ZArith QArith Qround Qpower Qminmax List Lia Lqa Bool FinFun.
From Stdlib.Strings Require Import Byte.
Import ListNotations.

Local Open Scope Z_scope.

(** ** Exceptions and fallible computations *)

Inductive exn : Type :=
| HeatmapError      (* raised by choose_order_size *)
| ValueError        (* min_brightness out of range, math domain error *)
| ZeroDivisionError
| TypeError         (* calling None, range() of a float *)
| IndexError        (* list index out of range *)
| StopIteration     (* next() on an exhausted generator *)
| StructError       (* struct.pack of a value that does not fit *)
| FinishedError     (* the plain Exception raised by fill after the result was retrieved *)
| IOError.

Inductive result (A : Type) : Type :=
| Ok (a : A)
| Raise (e : exn).

Arguments Ok {A} a.
Arguments Raise {A} e.

Definition bind {A B : Type} (m : result A) (k : A -> result B) : result B :=
  match m with
  | Ok a => k a
  | Raise e => Raise e
  end.

Notation "x <- m ;; k" := (bind m (fun x => k))
  (at level 61, m at next level, right associativity).
Notation "' pat <- m ;; k" := (bind m (fun x => let 'pat := x in k))
  (at level 61, pat pattern, m at next level, right associativity).

Definition is_ok {A : Type} (m : result A) : bool :=
  match m with Ok _ => true | Raise _ => false end.

(** ** Curve generators *)

(** A step as seen by the consumer: [(y, x, linear)]. *)
Definition CurveStep : Type := (Z * Z * Z)%type.

Definition step_y (s : CurveStep) : Z := fst (fst s).
Definition step_x (s : CurveStep) : Z := snd (fst s).
Definition step_linear (s : CurveStep) : Z := snd s.
Definition step_yx (s : CurveStep) : Z * Z := fst s.

Module Hilbert.

Definition move : Type := (Z * Z)%type.

Definition U : move := (-1, 0).
Definition R : move := (0, 1).
Definition D : move := (1, 0).
Definition L : move := (0, -1).

(** The eight tuples of moves that [hilbert] names; the dictionary
    [inception] is keyed by exactly these. *)
Inductive steps : Type :=
| URDR | RULU | URDD | LDRR | RULL | DLUU | LDRD | DLUL.

Definition moves (s : steps) : list move :=
  match s with
  | URDR => [U; R; D; R]
  | RULU => [R; U; L; U]
  | URDD => [U; R; D; D]
  | LDRR => [L; D; R; R]
  | RULL => [R; U; L; L]
  | DLUU => [D; L; U; U]
  | LDRD => [L; D; R; D]
  | DLUL => [D; L; U; L]
  end.

Definition inception (s : steps) : list steps :=
  match s with
  | URDR => [RULU; URDR; URDD; LDRR]
  | RULU => [URDR; RULU; RULL; DLUU]
  | URDD => [RULU; URDR; URDD; LDRD]
  | LDRR => [DLUL; LDRD; LDRR; URDR]
  | RULL => [URDR; RULU; RULL; DLUL]
  | DLUU => [LDRD; DLUL; DLUU; RULU]
  | LDRD => [DLUL; LDRD; LDRR; URDD]
  | DLUL => [LDRD; DLUL; DLUU; RULL]
  end.

(** [pos] is the one list object [y, x, linear] that the generator
    mutates in place and yields again and again.  A consumer that unpacks
    the yielded object at once, as [Grid._next_pixel] does, sees the
    content the cell has at that yield: the trace below records exactly
    these contents, in generation order, together with the content of the
    cell once the walk is over. *)
Definition pos : Type := CurveStep.

Definition advance (p : pos) (m : move) : pos :=
  (step_y p + fst m, step_x p + snd m, step_linear p + 1).

(** [for step in steps: yield pos; pos[0] += ...; pos[1] += ...; pos[2] += 1] *)
Fixpoint walk_moves (ms : list move) (p : pos) : list CurveStep * pos :=
  match ms with
  | [] => ([], p)
  | m :: ms' =>
      let '(out, p') := walk_moves ms' (advance p m) in
      (p :: out, p')
  end.

(** [walk(steps, level)]: the yields, and the cell afterwards. *)
Fixpoint walk (level : nat) (s : steps) (p : pos) : list CurveStep * pos :=
  match level with
  | S (S _ as level') =>
      fold_left
        (fun (acc : list CurveStep * pos) (sub : steps) =>
           let '(out, p') := walk level' sub (snd acc) in
           (fst acc ++ out, p'))
        (inception s) ([], p)
  | _ => walk_moves (moves s) p
  end.

Definition hilbert (order : nat) : list CurveStep :=
  fst (walk order URDR (2 ^ Z.of_nat order - 1, 0, 0)).

(** What a consumer holds that keeps the yielded objects and reads them
    only after the generator is exhausted: every one of them is the same
    cell, so all show its last content. *)
Definition hilbert_collected (order : nat) : list CurveStep :=
  let '(out, p) := walk order URDR (2 ^ Z.of_nat order - 1, 0, 0) in
  map (fun _ => p) out.

End Hilbert.

(** Python's [range(start, stop, step)], for a step that is not 0. *)
Definition py_range (start stop step : Z) : list Z :=
  let n :=
    if 0 <? step then (stop - start + step - 1) / step
    else (start - stop - step - 1) / (- step) in
  map (fun i => start + Z.of_nat i * step) (seq 0 (Z.to_nat n)).

(** [for x in xs: yield (y, x, l); l += 1], threading the counter [l]. *)
Fixpoint yield_row (y : Z) (xs : list Z) (l : Z) : list CurveStep * Z :=
  match xs with
  | [] => ([], l)
  | x :: xs' =>
      let '(out, l') := yield_row y xs' (l + 1) in
      ((y, x, l) :: out, l')
  end.

Fixpoint linear_rows (ys : list Z) (edge_len l : Z) : list CurveStep * Z :=
  match ys with
  | [] => ([], l)
  | y :: ys' =>
      let '(row, l1) := yield_row y (py_range 0 edge_len 1) l in
      let '(rest, l2) := linear_rows ys' edge_len l1 in
      (row ++ rest, l2)
  end.

Definition linear (order : nat) : list CurveStep :=
  let edge_len := 2 ^ Z.of_nat order in
  fst (linear_rows (py_range 0 edge_len 1) edge_len 0).

(** The body of [for y in range(0, edge_len, 2)]: row [y] left to right,
    then [y += 1] and that row from [edge_len - 1] down to 0. *)
Fixpoint snake_rows (ys : list Z) (edge_len l : Z) : list CurveStep * Z :=
  match ys with
  | [] => ([], l)
  | y :: ys' =>
      let '(row, l1) := yield_row y (py_range 0 edge_len 1) l in
      let y1 := y + 1 in
      let '(back, l2) := yield_row y1 (py_range (edge_len - 1) (-1) (-1)) l1 in
      let '(rest, l3) := snake_rows ys' edge_len l2 in
      (row ++ back ++ rest, l3)
  end.

Definition snake (order : nat) : list CurveStep :=
  let edge_len := 2 ^ Z.of_nat order in
  fst (snake_rows (py_range 0 edge_len 2) edge_len 0).

(** [curves]: the dictionary from curve name to generator. *)
Inductive curve_name : Type :=
| CurveHilbert | CurveLinear | CurveSnake
| CurveOther.   (* any string that is not a key of [curves] *)

Definition curves_get (c : curve_name) : option (nat -> list CurveStep) :=
  match c with
  | CurveHilbert => Some Hilbert.hilbert
  | CurveLinear => Some linear
  | CurveSnake => Some snake
  | CurveOther => None
  end.

(** [if curve is None: curve = 'hilbert'] *)
Definition curve_or_default (curve : option curve_name) : curve_name :=
  match curve with None => CurveHilbert | Some c => c end.

(** ** choose_order_size *)

(** [int(math.ceil(math.log(math.sqrt(x), 2)))] for [x > 0], in exact
    arithmetic: the least integer [k] with [x <= 4^k].  The code computes
    the quotient, the square root and the logarithm on doubles; where [x]
    is closer to a power of 4 than a double resolves, its result is decided
    by rounding and is not what this definition gives.  For a quotient that
    is a whole number the two agree. *)
Definition ceil_log2_sqrt (x : Q) : Z :=
  if Qle_bool 1 x
  then (Z.log2_up (Qceiling x) + 1) / 2
  else - (Z.log2 (Qfloor (/ x)) / 2).

Definition auto_order (total_bytes default_granularity : Z) : result Z :=
  if default_granularity =? 0 then Raise ZeroDivisionError
  else
    let x := (inject_Z total_bytes / inject_Z default_granularity)%Q in
    if Qle_bool x 0 then Raise ValueError    (* math domain error *)
    else Ok (Z.min 10 (ceil_log2_sqrt x)).

Definition choose_order_size (order size : option Z)
    (total_bytes default_granularity : Z) : result (Z * Z) :=
  let order_was_none := match order with None => true | Some _ => false end in
  order <- match order with
           | None => auto_order total_bytes default_granularity
           | Some o => Ok o
           end ;;
  let size := match size with
              | None => if order >? 10 then order else 10
              | Some s => s
              end in
  if size <? order then
    if order_was_none then Ok (size, size)
    else Raise HeatmapError
  else Ok (order, size).

(** ** Numbers *)

(** [int(q)] *)
Definition py_int (q : Q) : Z :=
  if Qle_bool 0 q then Qfloor q else Qceiling q.

(** [round(q)]: to the nearest integer, a tie going to the even one. *)
Definition py_round (q : Q) : Z :=
  let f := Qfloor q in
  match (q - inject_Z f ?= 1 # 2)%Q with
  | Lt => f
  | Gt => f + 1
  | Eq => if Z.even f then f else f + 1
  end.

(** [a % b] for [b <> 0] *)
Definition py_mod (a b : Q) : Q :=
  (a - inject_Z (Qfloor (a / b)) * b)%Q.

(** [lst[i]] accepts [-len <= i < len]. *)
Definition py_index (len i : Z) : option nat :=
  if (0 <=? i) && (i <? len) then Some (Z.to_nat i)
  else if (- len <=? i) && (i <? 0) then Some (Z.to_nat (len + i))
  else None.

Fixpoint list_set {A : Type} (l : list A) (n : nat) (v : A) : list A :=
  match l, n with
  | [], _ => []
  | _ :: t, O => v :: t
  | h :: t, S n' => h :: list_set t n' v
  end.

(** ** Colors *)

(** A color as [fill] gets it: a tuple of three numbers. *)
Definition color : Type := (Q * Q * Q)%type.
(** A composite color after rounding: three integers. *)
Definition rgb : Type := (Z * Z * Z)%type.
Definition rgbytes : Type := list byte.

Definition chan0 (c : color) : Q := fst (fst c).
Definition chan1 (c : color) : Q := snd (fst c).
Definition chan2 (c : color) : Q := snd c.

Definition black_rgb : rgb := (0, 0, 0).
Definition black : color := (0, 0, 0)%Q.
Definition white : color := (255, 255, 255)%Q.

Definition byte_of_Z (z : Z) : byte :=
  match Byte.of_N (Z.to_N (z mod 256)) with
  | Some b => b
  | None => x00
  end.

Definition Z_of_byte (b : byte) : Z := Z.of_N (Byte.to_N b).

(** [struct.Struct('!BBB').pack(r, g, b)] *)
Definition struct_color_pack (c : rgb) : result rgbytes :=
  let '(r, g, b) := c in
  let fits v := (0 <=? v) && (v <=? 255) in
  if fits r && fits g && fits b
  then Ok [byte_of_Z r; byte_of_Z g; byte_of_Z b]
  else Raise StructError.

Definition rgb_eqb (a b : rgb) : bool :=
  let '(a0, a1, a2) := a in
  let '(b0, b1, b2) := b in
  (a0 =? b0) && (a1 =? b1) && (a2 =? b2).

(** The color cache is a [dict] from composite color to its packed
    bytes: keys are unique and keep their insertion order. *)
Definition color_cache : Type := list (rgb * rgbytes).

Fixpoint cache_get (d : color_cache) (k : rgb) : option rgbytes :=
  match d with
  | [] => None
  | (k', v) :: d' => if rgb_eqb k k' then Some v else cache_get d' k
  end.

Fixpoint cache_set (d : color_cache) (k : rgb) (v : rgbytes) : color_cache :=
  match d with
  | [] => [(k, v)]
  | (k', v') :: d' =>
      if rgb_eqb k k' then (k', v) :: d' else (k', v') :: cache_set d' k v
  end.

(** ** Grid *)

Module Grid.

(** [(color, used_pct, pixel_pct)] *)
Definition mix_entry : Type := (color * Q * Q)%type.

Record t : Type := mk {
  order : Z;
  size : Z;
  curve : list CurveStep;          (* what the generator has yet to yield *)
  _pixel_mix : list mix_entry;
  _pixel_dirty : bool;
  y : Z;
  x : Z;
  linear : Z;
  height : Z;
  width : Z;
  num_steps : Z;
  total_bytes : Z;
  bytes_per_pixel : Q;
  _color_cache : color_cache;
  _grid : list (list rgbytes);
  _finished : bool;
  _min_brightness : Q
}.

Definition with_cursor (g : t) (s : CurveStep) (rest : list CurveStep) : t :=
  mk (order g) (size g) rest (_pixel_mix g) (_pixel_dirty g)
     (step_y s) (step_x s) (step_linear s)
     (height g) (width g) (num_steps g) (total_bytes g) (bytes_per_pixel g)
     (_color_cache g) (_grid g) (_finished g) (_min_brightness g).

Definition with_mix (g : t) (m : list mix_entry) (dirty : bool) : t :=
  mk (order g) (size g) (curve g) m dirty (y g) (x g) (linear g)
     (height g) (width g) (num_steps g) (total_bytes g) (bytes_per_pixel g)
     (_color_cache g) (_grid g) (_finished g) (_min_brightness g).

Definition with_cache (g : t) (c : color_cache) : t :=
  mk (order g) (size g) (curve g) (_pixel_mix g) (_pixel_dirty g)
     (y g) (x g) (linear g)
     (height g) (width g) (num_steps g) (total_bytes g) (bytes_per_pixel g)
     c (_grid g) (_finished g) (_min_brightness g).

Definition with_grid (g : t) (rows : list (list rgbytes)) : t :=
  mk (order g) (size g) (curve g) (_pixel_mix g) (_pixel_dirty g)
     (y g) (x g) (linear g)
     (height g) (width g) (num_steps g) (total_bytes g) (bytes_per_pixel g)
     (_color_cache g) rows (_finished g) (_min_brightness g).

Definition with_finished (g : t) (f : bool) : t :=
  mk (order g) (size g) (curve g) (_pixel_mix g) (_pixel_dirty g)
     (y g) (x g) (linear g)
     (height g) (width g) (num_steps g) (total_bytes g) (bytes_per_pixel g)
     (_color_cache g) (_grid g) f (_min_brightness g).

(** [sum(f(e) for e in mix)]: starts from 0 and adds from the left. *)
Definition py_sum (f : mix_entry -> Q) (mix : list mix_entry) : Q :=
  fold_left (fun acc e => (acc + f e)%Q) mix 0%Q.

Definition entry_color (e : mix_entry) : color := fst (fst e).
Definition entry_used (e : mix_entry) : Q := snd (fst e).
Definition entry_pct (e : mix_entry) : Q := snd e.

(** The composite [RGB] of [_pixel_mix_to_rgbytes], before the cache. *)
Definition mix_to_rgb (min_brightness : Q) (mix : list mix_entry) : rgb :=
  let R_composite := py_sum (fun e => chan0 (entry_color e) * entry_pct e)%Q mix in
  let G_composite := py_sum (fun e => chan1 (entry_color e) * entry_pct e)%Q mix in
  let B_composite := py_sum (fun e => chan2 (entry_color e) * entry_pct e)%Q mix in
  let weighted_usage := py_sum (fun e => entry_used e * entry_pct e)%Q mix in
  let weighted_usage_min_bright :=
    (min_brightness + weighted_usage * (1 - min_brightness))%Q in
  (py_round (R_composite * weighted_usage_min_bright),
   py_round (G_composite * weighted_usage_min_bright),
   py_round (B_composite * weighted_usage_min_bright)).

Definition _add_color_cache (g : t) (c : rgb) : result (rgbytes * t) :=
  bytes <- struct_color_pack c ;;
  Ok (bytes, with_cache g (cache_set (_color_cache g) c bytes)).

Definition _pixel_mix_to_rgbytes (g : t) : result (rgbytes * t) :=
  let RGB := mix_to_rgb (_min_brightness g) (_pixel_mix g) in
  match cache_get (_color_cache g) RGB with
  | Some bytes => Ok (bytes, g)
  | None => _add_color_cache g RGB
  end.

(** [self._grid[self.y][self.x] = rgbytes] *)
Definition _set_pixel (g : t) (bytes : rgbytes) : result t :=
  match py_index (Z.of_nat (length (_grid g))) (y g) with
  | None => Raise IndexError
  | Some r =>
      let row := nth r (_grid g) [] in
      match py_index (Z.of_nat (length row)) (x g) with
      | None => Raise IndexError
      | Some c => Ok (with_grid g (list_set (_grid g) r (list_set row c bytes)))
      end
  end.

Definition _finish_pixel (g : t) : result t :=
  '(bytes, g) <- _pixel_mix_to_rgbytes g ;;
  g <- _set_pixel g bytes ;;
  Ok (with_mix g [] false).

Definition _next_pixel (g : t) : result t :=
  g <- (if _pixel_dirty g then _finish_pixel g else Ok g) ;;
  match curve g with
  | [] => Raise StopIteration
  | s :: rest => Ok (with_cursor g s rest)
  end.

Definition _add_to_pixel_mix (g : t) (c : color) (used_pct pixel_pct : Q) : t :=
  with_mix g (_pixel_mix g ++ [(c, used_pct, pixel_pct)]) true.

(** [while self.linear < limit: self._next_pixel()].  Every turn takes a
    step from the generator or raises, so [S (length (curve g))] turns
    are always enough. *)
Fixpoint advance_loop (fuel : nat) (limit : Z) (g : t) : result t :=
  if linear g <? limit then
    match fuel with
    | O => Raise StopIteration
    | S fuel' => g <- _next_pixel g ;; advance_loop fuel' limit g
    end
  else Ok g.

Definition advance_to (limit : Z) (g : t) : result t :=
  advance_loop (S (length (curve g))) limit g.

(** [while self.linear < limit: self._next_pixel(); self._set_pixel(rgbytes)] *)
Fixpoint paint_loop (fuel : nat) (limit : Z) (bytes : rgbytes) (g : t) : result t :=
  if linear g <? limit then
    match fuel with
    | O => Raise StopIteration
    | S fuel' =>
        g <- _next_pixel g ;;
        g <- _set_pixel g bytes ;;
        paint_loop fuel' limit bytes g
    end
  else Ok g.

Definition paint_to (limit : Z) (bytes : rgbytes) (g : t) : result t :=
  paint_loop (S (length (curve g))) limit bytes g.

Definition pct_of_first_pixel (bpp : Q) (first_byte : Z) : Q :=
  ((bpp - py_mod (inject_Z first_byte) bpp) / bpp)%Q.

Definition pct_of_last_pixel (bpp : Q) (first_byte length : Z) : Q :=
  let pct := (py_mod (inject_Z (first_byte + length)) bpp / bpp)%Q in
  if Qeq_bool pct 0 then 1%Q else pct.

Definition first_pixel_of (bpp : Q) (first_byte : Z) : Z :=
  py_int (inject_Z first_byte / bpp).

Definition last_pixel_of (bpp : Q) (first_byte length : Z) : Z :=
  py_int (inject_Z (first_byte + length - 1) / bpp).

Definition fill (g : t) (first_byte length : Z) (used_pct : Q) (c : color)
  : result t :=
  if _finished g then Raise FinishedError
  else if Qeq_bool (bytes_per_pixel g) 0 then Raise ZeroDivisionError
  else
    let bpp := bytes_per_pixel g in
    let first_pixel := first_pixel_of bpp first_byte in
    let last_pixel := last_pixel_of bpp first_byte length in
    g <- advance_to first_pixel g ;;
    if first_pixel =? last_pixel then
      let pct_of_pixel := (inject_Z length / bpp)%Q in
      Ok (_add_to_pixel_mix g c used_pct pct_of_pixel)
    else
      let pct_first := pct_of_first_pixel bpp first_byte in
      let pct_last := pct_of_last_pixel bpp first_byte length in
      let g := _add_to_pixel_mix g c used_pct pct_first in
      g <- (if linear g <? last_pixel - 1 then
              g <- _next_pixel g ;;
              let g := _add_to_pixel_mix g c used_pct 1%Q in
              '(bytes, g) <- _pixel_mix_to_rgbytes g ;;
              g <- _set_pixel g bytes ;;
              paint_to (last_pixel - 1) bytes g
            else Ok g) ;;
      g <- _next_pixel g ;;
      Ok (_add_to_pixel_mix g c used_pct pct_last).

(** The first half of [write_png]: commit the pending pixel, once. *)
Definition finalize (g : t) : result t :=
  if _finished g then Ok g
  else
    g <- (if _pixel_dirty g then _finish_pixel g else Ok g) ;;
    Ok (with_finished g true).

(** [Grid.__init__] *)
Definition __init__ (order size : option Z) (total_bytes default_granularity : Z)
    (min_brightness : option Q) (curve : option curve_name) : result t :=
  '(order, size) <- choose_order_size order size total_bytes default_granularity ;;
  let curve := curve_or_default curve in
  match curves_get curve with
  | None => Raise TypeError          (* calling None *)
  | Some gen =>
      (* 2 ** order is a float for a negative order: the range() call
         over it, in the generator or for the buffer, raises *)
      if order <? 0 then Raise TypeError
      else
        let side := 2 ^ order in
        let steps := side ^ 2 in
        let g0 :=
          mk order size (gen (Z.to_nat order)) [] false 0 0 0
             side side steps total_bytes
             (inject_Z total_bytes / inject_Z steps)%Q
             [] [] false (1 # 10)%Q in
        g <- _next_pixel g0 ;;
        '(black_bytes, g) <- _add_color_cache g black_rgb ;;
        let rows :=
          map (fun _ => map (fun _ => black_bytes) (py_range 0 side 1))
              (py_range 0 side 1) in
        let g := with_grid g rows in
        match min_brightness with
        | None => Ok g
        | Some mb =>
            if Qlt_le_dec mb 0 then Raise ValueError
            else if Qlt_le_dec 1 mb then Raise ValueError
            else Ok (mk (Grid.order g) (Grid.size g) (Grid.curve g)
                        (_pixel_mix g) (_pixel_dirty g)
                        (y g) (x g) (linear g)
                        (height g) (width g) (num_steps g)
                        (Grid.total_bytes g) (bytes_per_pixel g)
                        (_color_cache g) (_grid g) (_finished g) mb)
        end
  end.

End Grid.

(** ** zlib and struct *)

Definition bytes : Type := list byte.

(** One byte into the running CRC-32 (reflected polynomial 0xEDB88320). *)
Definition crc_bit (c : Z) : Z :=
  if Z.testbit c 0 then Z.lxor (Z.shiftr c 1) 0xEDB88320 else Z.shiftr c 1.

Definition crc_byte (c : Z) (b : byte) : Z :=
  let c := Z.lxor c (Z_of_byte b) in
  crc_bit (crc_bit (crc_bit (crc_bit (crc_bit (crc_bit (crc_bit (crc_bit c))))))).

(** [zlib.crc32(data, value)] *)
Definition crc32 (data : bytes) (value : Z) : Z :=
  Z.lxor (fold_left crc_byte data (Z.lxor value 0xffffffff)) 0xffffffff.

(** [zlib.compressobj()]: a streaming compressor, known here only by its
    interface.  [compress] takes more input and may give some output;
    [flush] gives what is left. *)
Record Compressor : Type := {
  zstate : Type;
  compressobj : zstate;
  compress : zstate -> bytes -> bytes * zstate;
  flush : zstate -> bytes
}.

(** The whole output of a compressor that is fed [chunks] one after the
    other and then flushed. *)
Fixpoint deflate_from (z : Compressor) (st : zstate z) (chunks : list bytes) : bytes :=
  match chunks with
  | [] => flush z st
  | c :: chunks' =>
      let '(out, st') := compress z st c in
      out ++ deflate_from z st' chunks'
  end.

Definition deflate (z : Compressor) (chunks : list bytes) : bytes :=
  deflate_from z (compressobj z) chunks.

(** [struct.Struct('!I').pack(v)] *)
Definition be32 (v : Z) : bytes :=
  [byte_of_Z (Z.shiftr v 24); byte_of_Z (Z.shiftr v 16);
   byte_of_Z (Z.shiftr v 8); byte_of_Z v].

Definition pack_I (v : Z) : result bytes :=
  if (0 <=? v) && (v <? 2 ^ 32) then Ok (be32 v) else Raise StructError.

Definition pack_B (v : Z) : result bytes :=
  if (0 <=? v) && (v <=? 255) then Ok [byte_of_Z v] else Raise StructError.

Definition b_IHDR : bytes := [x49; x48; x44; x52].
Definition b_IDAT : bytes := [x49; x44; x41; x54].
Definition b_IEND : bytes := [x49; x45; x4e; x44].
Definition png_signature : bytes := [x89; x50; x4e; x47; x0d; x0a; x1a; x0a].
Definition zero_len : bytes := [x00; x00; x00; x00].
(** [b'\x00\x00\x00\x00IEND\xae\x42\x60\x82'] *)
Definition iend_chunk : bytes := zero_len ++ b_IEND ++ [xae; x42; x60; x82].

(** [struct.Struct('!4s2I5B').pack(b'IHDR', width, height, 8, color_type, 0, 0, 0)] *)
Definition pack_ihdr (width height color_type : Z) : result bytes :=
  w <- pack_I width ;;
  h <- pack_I height ;;
  d <- pack_B 8 ;;
  c <- pack_B color_type ;;
  z1 <- pack_B 0 ;;
  z2 <- pack_B 0 ;;
  z3 <- pack_B 0 ;;
  Ok (b_IHDR ++ w ++ h ++ d ++ c ++ z1 ++ z2 ++ z3).

(** ** The output file *)

Module File.

(** The file behind [out].  [writes_left] decides which [write] fails:
    [Some n] lets [n] writes through and makes the next one raise,
    [None] lets every write through. *)
Record t : Type := mk {
  content : bytes;
  position : nat;
  is_open : bool;
  writes_left : option nat
}.

(** An action on the file: the file is still there when it raises. *)
Definition io (A : Type) : Type := t -> result A * t.

Definition ret {A : Type} (a : A) : io A := fun f => (Ok a, f).

Definition throw {A : Type} (e : exn) : io A := fun f => (Raise e, f).

Definition lift {A : Type} (m : result A) : io A := fun f => (m, f).

Definition iobind {A B : Type} (m : io A) (k : A -> io B) : io B :=
  fun f =>
    match m f with
    | (Ok a, f') => k a f'
    | (Raise e, f') => (Raise e, f')
    end.

(** Bytes [data] put at offset [pos] of [old]; a gap is filled with zeros. *)
Definition overwrite (old : bytes) (pos : nat) (data : bytes) : bytes :=
  firstn pos old ++ repeat x00 (pos - length old) ++ data
  ++ skipn (pos + length data) old.

(** [open(pngfile, 'wb')]: an empty file, positioned at 0. *)
Definition open : io unit :=
  fun f => (Ok tt, mk [] 0 true (writes_left f)).

Definition write (data : bytes) : io unit :=
  fun f =>
    if negb (is_open f) then (Raise ValueError, f)
    else
      match writes_left f with
      | Some O => (Raise IOError, f)
      | budget =>
          (Ok tt,
           mk (overwrite (content f) (position f) data)
              (position f + length data) true
              (option_map Nat.pred budget))
      end.

Definition tell : io nat := fun f => (Ok (position f), f).

Definition seek (pos : nat) : io unit :=
  fun f => (Ok tt, mk (content f) pos (is_open f) (writes_left f)).

Definition close : io unit :=
  fun f => (Ok tt, mk (content f) (position f) false (writes_left f)).

End File.

Notation "x <~ m ;; k" := (File.iobind m (fun x => k))
  (at level 61, m at next level, right associativity).
Notation "' pat <~ m ;; k" := (File.iobind m (fun x => let 'pat := x in k))
  (at level 61, pat pattern, m at next level, right associativity).
Notation "m ;;; k" := (File.iobind m (fun _ => k))
  (at level 61, right associativity).

(** ** _write_png *)

(** [if len(compressed) > 0: crc = ...; datalen += ...; out.write(compressed)] *)
Definition emit (compressed : bytes) (crc datalen : Z) : File.io (Z * Z) :=
  if 0 <? Z.of_nat (length compressed) then
    File.write compressed ;;;
    File.ret (crc32 compressed crc, datalen + Z.of_nat (length compressed))
  else File.ret (crc, datalen).

(** [for uncompressed in (b'\x00', b''.join(row))] *)
Definition compress_row (z : Compressor) (row : list rgbytes)
    (st : zstate z) (crc datalen : Z) : File.io (zstate z * Z * Z) :=
  let '(compressed, st) := compress z st [x00] in
  '(crc, datalen) <~ emit compressed crc datalen ;;
  let '(compressed, st) := compress z st (concat row) in
  '(crc, datalen) <~ emit compressed crc datalen ;;
  File.ret (st, crc, datalen).

(** [for row in rows] *)
Fixpoint compress_rows (z : Compressor) (rows : list (list rgbytes))
    (st : zstate z) (crc datalen : Z) : File.io (zstate z * Z * Z) :=
  match rows with
  | [] => File.ret (st, crc, datalen)
  | row :: rows' =>
      '(st, crc, datalen) <~ compress_row z row st crc datalen ;;
      compress_rows z rows' st crc datalen
  end.

Definition _write_png (z : Compressor) (width height : Z)
    (rows : list (list rgbytes)) (color_type : Z) : File.io unit :=
  File.open ;;;
  File.write png_signature ;;;
  (* IHDR *)
  len13 <~ File.lift (pack_I 13) ;;
  File.write len13 ;;;
  ihdr <~ File.lift (pack_ihdr width height color_type) ;;
  File.write ihdr ;;;
  ihdr_crc <~ File.lift (pack_I (Z.land (crc32 ihdr 0) 0xffffffff)) ;;
  File.write ihdr_crc ;;;
  (* IDAT *)
  length_pos <~ File.tell ;;
  File.write (zero_len ++ b_IDAT) ;;;
  let crc := crc32 b_IDAT 0 in
  let datalen := 0 in
  '(st, crc, datalen) <~ compress_rows z rows (compressobj z) crc datalen ;;
  '(crc, datalen) <~ emit (flush z st) crc datalen ;;
  idat_crc <~ File.lift (pack_I (Z.land crc 0xffffffff)) ;;
  File.write idat_crc ;;;
  (* IEND *)
  File.write iend_chunk ;;;
  (* Go back and write length of the IDAT *)
  File.seek length_pos ;;;
  len <~ File.lift (pack_I datalen) ;;
  File.write len ;;;
  File.close.

(** The row stream of [Grid.write_png]: every pixel and every row is
    repeated [scale] times when [size > order]. *)
Definition replicate {A : Type} (n : Z) (a : A) : list A :=
  map (fun _ => a) (py_range 0 n 1).

Definition export_rows (g : Grid.t) : Z * Z * list (list rgbytes) :=
  if Grid.order g <? Grid.size g then
    let scale := 2 ^ (Grid.size g - Grid.order g) in
    (Grid.width g * scale, Grid.height g * scale,
     flat_map (fun row => replicate scale (flat_map (replicate scale) row))
              (Grid._grid g))
  else (Grid.width g, Grid.height g, Grid._grid g).

Definition write_png (z : Compressor) (g : Grid.t) : File.io Grid.t :=
  g <~ File.lift (Grid.finalize g) ;;
  let '(w, h, rows) := export_rows g in
  _write_png z w h rows 2 ;;;
  File.ret g.

(** A compressor that stores: it hands every chunk back as it is.  It
    stands in for zlib where an instance is needed to run the encoder. *)
Definition store_compressor : Compressor :=
  {| zstate := unit;
     compressobj := tt;
     compress := fun st data => (data, st);
     flush := fun _ => [] |}.

(** ** Notions used by the statements *)

(** The coverage-weighted average of two numbers. *)
Definition weighted_avg (a1 p1 a2 p2 : Q) : Q :=
  ((a1 * p1 + a2 * p2) / (p1 + p2))%Q.

Definition weighted_avg_color (c1 : color) (p1 : Q) (c2 : color) (p2 : Q) : color :=
  (weighted_avg (chan0 c1) p1 (chan0 c2) p2,
   weighted_avg (chan1 c1) p1 (chan1 c2) p2,
   weighted_avg (chan2 c1) p1 (chan2 c2) p2).

(** What [_finish_pixel] stores for a pixel whose mix is [mix]. *)
Definition finalized_color (g : Grid.t) (mix : list Grid.mix_entry) : result rgbytes :=
  '(bytes, _) <- Grid._pixel_mix_to_rgbytes (Grid.with_mix g mix true) ;;
  Ok bytes.

(** Reading [_grid[y][x]]. *)
Definition pixel_at (rows : list (list rgbytes)) (yx : Z * Z) : option rgbytes :=
  match py_index (Z.of_nat (length rows)) (fst yx) with
  | None => None
  | Some r =>
      let row := nth r rows [] in
      match py_index (Z.of_nat (length row)) (snd yx) with
      | None => None
      | Some c => nth_error row c
      end
  end.

Definition white_bytes : rgbytes := [xff; xff; xff].
Definition black_bytes : rgbytes := [x00; x00; x00].

(** A 2 x 2 grid of 20 bytes on which nothing has been drawn, with the
    cursor on [(1, 0)] and the steps of the order 1 hilbert curve ahead. *)
Definition small_grid : Grid.t :=
  Grid.mk 1 10 [(0, 0, 1); (0, 1, 2); (1, 1, 3)] [] false 1 0 0
    2 2 4 20 (20 # 4)%Q
    [(black_rgb, black_bytes)]
    [[black_bytes; black_bytes]; [black_bytes; black_bytes]]
    false (1 # 10)%Q.

(** The scenario of a grid of 20 bytes at order 1: build, fill the first
    10 bytes with white at usage 1, finalize. *)
Definition scenario_20_bytes (c : curve_name) : result Grid.t :=
  g <- Grid.__init__ (Some 1) None 20 33554432 (Some (1 # 10)%Q) (Some c) ;;
  g <- Grid.fill g 0 10 1%Q white ;;
  Grid.finalize g.

(** The chunks [_write_png] feeds to the compressor, and the raw
    scanlines they add up to. *)
Definition row_chunks (rows : list (list rgbytes)) : list bytes :=
  flat_map (fun row => [[x00]; concat row]) rows.

Definition raw_scanlines (rows : list (list rgbytes)) : bytes :=
  flat_map (fun row => x00 :: concat row) rows.

(** An open file that never fails, positioned at its end. *)
Definition at_end (c : bytes) : File.t := File.mk c (length c) true None.

(** ** The invariant of a grid between two calls *)

(** [rows[y][x] = v] for indices that are not negative. *)
Definition set_rows (rows : list (list rgbytes)) (yx : Z * Z) (v : rgbytes)
  : list (list rgbytes) :=
  let r := Z.to_nat (fst yx) in
  list_set rows r (list_set (nth r rows []) (Z.to_nat (snd yx)) v).

(** A sequence of pixel assignments, the oldest first. *)
Definition apply_writes (rows : list (list rgbytes))
    (ws : list ((Z * Z) * rgbytes)) : list (list rgbytes) :=
  fold_left (fun r w => set_rows r (fst w) (snd w)) ws rows.

Definition dims (rows : list (list rgbytes)) (h w : Z) : Prop :=
  Z.of_nat (length rows) = h /\
  Forall (fun row => Z.of_nat (length row) = w) rows.

Definition in_grid (h w : Z) (yx : Z * Z) : Prop :=
  0 <= fst yx < h /\ 0 <= snd yx < w.

(** The steps ahead carry the linear indices that follow [l]. *)
Fixpoint follows (l : Z) (steps : list CurveStep) : Prop :=
  match steps with
  | [] => True
  | s :: rest => step_linear s = l + 1 /\ follows (l + 1) rest
  end.

(** Every cached value is the packed form of its key. *)
Definition cache_ok (d : color_cache) : Prop :=
  forall k v, cache_get d k = Some v -> struct_color_pack k = Ok v.

(** What holds of a grid between two calls of its methods: the buffer is
    [height] x [width], the cursor and all steps ahead are on it, the steps
    ahead continue the cursor's linear index, the cache is sound, and a
    pixel that is not dirty has no pending mix. *)
Definition wf (g : Grid.t) : Prop :=
  dims (Grid._grid g) (Grid.height g) (Grid.width g) /\
  in_grid (Grid.height g) (Grid.width g) (Grid.y g, Grid.x g) /\
  Forall (fun s => in_grid (Grid.height g) (Grid.width g) (step_yx s)) (Grid.curve g) /\
  follows (Grid.linear g) (Grid.curve g) /\
  cache_ok (Grid._color_cache g) /\
  (Grid._pixel_dirty g = false -> Grid._pixel_mix g = []).

(** The fields no method changes after construction, and [_finished]. *)
Definition frame (g g' : Grid.t) : Prop :=
  Grid.order g' = Grid.order g /\ Grid.size g' = Grid.size g /\
  Grid.height g' = Grid.height g /\ Grid.width g' = Grid.width g /\
  Grid.num_steps g' = Grid.num_steps g /\
  Grid.total_bytes g' = Grid.total_bytes g /\
  Grid.bytes_per_pixel g' = Grid.bytes_per_pixel g /\
  Grid._finished g' = Grid._finished g /\
  Grid._min_brightness g' = Grid._min_brightness g.

(** [struct_color.pack] accepts the composite of [mix]. *)
Definition packable (mb : Q) (mix : list Grid.mix_entry) : Prop :=
  is_ok (struct_color_pack (Grid.mix_to_rgb mb mix)) = true.

Definition packed (mb : Q) (mix : list Grid.mix_entry) : rgbytes :=
  match struct_color_pack (Grid.mix_to_rgb mb mix) with
  | Ok b => b
  | Raise _ => []
  end.

(** The cache after [_pixel_mix_to_rgbytes] has met the color [k]. *)
Definition cache_add (d : color_cache) (k : rgb) (v : rgbytes) : color_cache :=
  match cache_get d k with
  | Some _ => d
  | None => cache_set d k v
  end.

(** The grid after [_finish_pixel], when nothing raises. *)
Definition commit (g : Grid.t) : Grid.t :=
  let mb := Grid._min_brightness g in
  let mix := Grid._pixel_mix g in
  Grid.with_mix
    (Grid.with_grid
       (Grid.with_cache g
          (cache_add (Grid._color_cache g) (Grid.mix_to_rgb mb mix) (packed mb mix)))
       (set_rows (Grid._grid g) (Grid.y g, Grid.x g) (packed mb mix)))
    [] false.

(** [if self._pixel_dirty is True: self._finish_pixel()] *)
Definition settle (g : Grid.t) : Grid.t :=
  if Grid._pixel_dirty g then commit g else g.

(** Where the cursor stands, as a step. *)
Definition cursor (g : Grid.t) : CurveStep := (Grid.y g, Grid.x g, Grid.linear g).

(** The entries the first pixel of a fill already holds: those pending
    when the cursor stands on it, none when the cursor has yet to get
    there. *)
Definition first_mix (g : Grid.t) (first_pixel : Z) : list Grid.mix_entry :=
  if Grid.linear g <? first_pixel then [] else Grid._pixel_mix g.

(** The caller's side of [fill]: the grid is not finished and has bytes
    per pixel, the range starts at or after the cursor and ends on the
    curve, and no composite that gets packed leaves the range of a byte. *)
Definition fill_ready (g : Grid.t) (first_byte length : Z) (used_pct : Q) (c : color)
  : Prop :=
  let bpp := Grid.bytes_per_pixel g in
  let mb := Grid._min_brightness g in
  let first_pixel := Grid.first_pixel_of bpp first_byte in
  let last_pixel := Grid.last_pixel_of bpp first_byte length in
  wf g /\
  Grid._finished g = false /\
  ~ (bpp == 0)%Q /\
  Grid.linear g <= first_pixel /\
  last_pixel <= Grid.linear g + Z.of_nat (List.length (Grid.curve g)) /\
  (Grid.linear g < first_pixel -> Grid._pixel_dirty g = true ->
   packable mb (Grid._pixel_mix g)) /\
  packable mb (first_mix g first_pixel
               ++ [(c, used_pct, Grid.pct_of_first_pixel bpp first_byte)]) /\
  (first_pixel + 1 < last_pixel -> packable mb [(c, used_pct, 1%Q)]).

(** A step whose linear index lies strictly between two pixels. *)
Definition strictly_between (first_pixel last_pixel : Z) (s : CurveStep) : Prop :=
  first_pixel < step_linear s < last_pixel.

(** ** The geometry of the hilbert curve *)

(** Two cells next to each other: one unit apart in one coordinate. *)
Definition adjacent (q q' : Z * Z) : Prop :=
  Z.abs (fst q - fst q') + Z.abs (snd q - snd q') = 1.

(** Each cell of the list is next to the one before it. *)
Fixpoint path (l : list (Z * Z)) : Prop :=
  match l with
  | [] => True
  | q :: t => match t with
              | [] => True
              | q' :: _ => adjacent q q' /\ path t
              end
  end.

(** The first, second and fourth move of a tuple; the third undoes the
    first. *)
Definition move_a (s : Hilbert.steps) : Hilbert.move := nth 0 (Hilbert.moves s) (0, 0).
Definition move_b (s : Hilbert.steps) : Hilbert.move := nth 1 (Hilbert.moves s) (0, 0).
Definition move_d (s : Hilbert.steps) : Hilbert.move := nth 3 (Hilbert.moves s) (0, 0).

(** The block of side [m + 1] that [walk] covers from the corner [p]: it
    extends [m] cells along the first move and [m] along the second. *)
Definition in_block (p : Z * Z) (s : Hilbert.steps) (m : Z) (q : Z * Z) : Prop :=
  let dy := fst q - fst p in
  let dx := snd q - snd p in
  0 <= dy * fst (move_a s) + dx * snd (move_a s) <= m /\
  0 <= dy * fst (move_b s) + dx * snd (move_b s) <= m.

(** The corner where the walk of the block ends, and the cell the fourth
    move then leads to. *)
Definition far_corner (p : Z * Z) (s : Hilbert.steps) (m : Z) : Z * Z :=
  (fst p + m * fst (move_b s), snd p + m * snd (move_b s)).

Definition exit_point (p : Z * Z) (s : Hilbert.steps) (m : Z) : Z * Z :=
  (fst p + m * fst (move_b s) + fst (move_d s),
   snd p + m * snd (move_b s) + snd (move_d s)).

(** What one [walk] of a block of side [K] does: it starts on [p], counts
    on from [p]'s linear index, stays in the block, never visits a cell
    twice, moves by one cell at a time, ends in the far corner and leaves
    the cell one move further. *)
Definition block_ok (K : Z) (s : Hilbert.steps) (p : Hilbert.pos)
    (out : list CurveStep) (p' : Hilbert.pos) : Prop :=
  (exists t, out = p :: t) /\
  follows (step_linear p - 1) out /\
  step_linear p' = step_linear p + Z.of_nat (length out) /\
  Forall (fun q => in_block (step_yx p) s (K - 1) (step_yx q)) out /\
  step_yx (last out p) = far_corner (step_yx p) s (K - 1) /\
  step_yx p' = exit_point (step_yx p) s (K - 1) /\
  path (map step_yx out) /\
  NoDup (map step_yx out).

(** All the cells of the square grid of side [n], row by row. *)
Definition grid_cells (n : Z) : list (Z * Z) :=
  list_prod (py_range 0 n 1) (py_range 0 n 1).

(** What the claims say of a curve generator at a given order. *)
Definition curve_bijective (order : nat) (steps : list CurveStep) : Prop :=
  let side := 2 ^ Z.of_nat order in
  length steps = Z.to_nat (4 ^ Z.of_nat order) /\
  follows (-1) steps /\
  NoDup (map step_yx steps) /\
  (forall q, In q (map step_yx steps) <-> 0 <= fst q < side /\ 0 <= snd q < side).

(** ** Notions about the output file *)

(** An action keeps an open handle open, whether it returns or raises. *)
Definition keeps_open {A : Type} (m : File.io A) : Prop :=
  forall f, File.is_open f = true -> File.is_open (snd (m f)) = true.

(** An action leaves the handle closed exactly when it returns. *)
Definition closes_iff_returns {A : Type} (m : File.io A) : Prop :=
  forall f, File.is_open f = true ->
            File.is_open (snd (m f)) = negb (is_ok (fst (m f))).

(** A value that fits four bytes. *)
Definition u32 (v : Z) : Prop := 0 <= v < 2 ^ 32.

(** The data of the IHDR chunk. *)
Definition ihdr_data (width height : Z) : bytes :=
  b_IHDR ++ be32 width ++ be32 height ++ [x08; x02; x00; x00; x00].

(** The file [_write_png] is to produce. *)
Definition png_layout (z : Compressor) (width height : Z)
    (rows : list (list rgbytes)) : bytes :=
  let ihdr := ihdr_data width height in
  let payload := deflate z (row_chunks rows) in
  png_signature
  ++ (be32 13 ++ ihdr ++ be32 (crc32 ihdr 0))
  ++ (be32 (Z.of_nat (length payload)) ++ b_IDAT ++ payload
      ++ be32 (crc32 (b_IDAT ++ payload) 0))
  ++ (be32 0 ++ b_IEND ++ be32 (crc32 b_IEND 0)).

(** ** Entries within bounds *)

(** An entry as the callers of [fill] make it: channels of a byte, a
    used fraction and a coverage that are fractions. *)
Definition entry_bounded (e : Grid.mix_entry) : Prop :=
  let c := Grid.entry_color e in
  (0 <= chan0 c <= 255 /\ 0 <= chan1 c <= 255 /\ 0 <= chan2 c <= 255 /\
   0 <= Grid.entry_used e <= 1 /\ 0 <= Grid.entry_pct e)%Q.

(** The coverage fractions a pixel has received. *)
Definition coverage (mix : list Grid.mix_entry) : Q :=
  Grid.py_sum Grid.entry_pct mix.

(** ** Notions about sequences of fills *)

(** The linear index of the last step the generator has to give. *)
Definition end_index (g : Grid.t) : Z :=
  Grid.linear g + Z.of_nat (length (Grid.curve g)).

(** The cursor has gone forward along the curve, or stayed. *)
Definition advanced (g g' : Grid.t) : Prop :=
  frame g g' /\ end_index g' = end_index g /\ Grid.linear g <= Grid.linear g'.

(** The arguments of one call of [fill]. *)
Definition span : Type := (Z * Z * Q * color)%type.

Definition span_last_pixel (g : Grid.t) (sp : span) : Z :=
  let '(first_byte, length, _, _) := sp in
  Grid.last_pixel_of (Grid.bytes_per_pixel g) first_byte length.

(** [for ...: grid.fill(first_byte, length, used_pct, color)], the loop
    of [walk_chunks], [walk_dev_extents] and [walk_extents]. *)
Fixpoint fill_all (g : Grid.t) (spans : list span) : result Grid.t :=
  match spans with
  | [] => Ok g
  | (first_byte, length, used_pct, c) :: rest =>
      g <- Grid.fill g first_byte length used_pct c ;;
      fill_all g rest
  end.

(** The coverage one call of [fill] hands out, over all its pixels. *)
Definition fill_fractions (bpp : Q) (first_byte length : Z) : Q :=
  let first_pixel := Grid.first_pixel_of bpp first_byte in
  let last_pixel := Grid.last_pixel_of bpp first_byte length in
  if first_pixel =? last_pixel then (inject_Z length / bpp)%Q
  else (Grid.pct_of_first_pixel bpp first_byte
        + inject_Z (last_pixel - first_pixel - 1)
        + Grid.pct_of_last_pixel bpp first_byte length)%Q.

(** ** Notions about the header of the picture *)

(** A value that fits one byte. *)
Definition u8 (v : Z) : Prop := 0 <= v <= 255.

(** The data of an IHDR chunk of the given color type, and the file
    [_write_png] is to produce with it. *)
Definition ihdr_of (width height color_type : Z) : bytes :=
  b_IHDR ++ be32 width ++ be32 height
  ++ [x08; byte_of_Z color_type; x00; x00; x00].

Definition png_file (z : Compressor) (width height color_type : Z)
    (rows : list (list rgbytes)) : bytes :=
  let ihdr := ihdr_of width height color_type in
  let payload := deflate z (row_chunks rows) in
  png_signature
  ++ (be32 13 ++ ihdr ++ be32 (crc32 ihdr 0))
  ++ (be32 (Z.of_nat (length payload)) ++ b_IDAT ++ payload
      ++ be32 (crc32 (b_IDAT ++ payload) 0))
  ++ (be32 0 ++ b_IEND ++ be32 (crc32 b_IEND 0)).

(** ** The share of a pixel that a span covers *)

(** The bytes from [first_byte] up to, not including, [first_byte +
    length], and the bytes of pixel [p], from [p * bpp] up to [(p + 1) *
    bpp]: the length of what they have in common, as a fraction of the
    pixel.  For a span that starts or ends inside the pixel this is the
    fractional remainder of the pixel that belongs to the span. *)
Definition pixel_share (bpp : Q) (first_byte length p : Z) : Q :=
  ((Qmin (inject_Z (first_byte + length)) (inject_Z (p + 1) * bpp)
    - Qmax (inject_Z first_byte) (inject_Z p * bpp)) / bpp)%Q.

(* ================================================================== *)
(** * Properties *)

(** ** The curves on small orders *)

Example hilbert_order_1 :
  Hilbert.hilbert 1 = [(1, 0, 0); (0, 0, 1); (0, 1, 2); (1, 1, 3)].
Proof. reflexivity. Qed.

Example snake_order_1 :
  snake 1 = [(0, 0, 0); (0, 1, 1); (1, 1, 2); (1, 0, 3)].
Proof. reflexivity. Qed.

Example linear_order_1 :
  linear 1 = [(0, 0, 0); (0, 1, 1); (1, 0, 2); (1, 1, 3)].
Proof. reflexivity. Qed.

(** ** choose_order_size *)

Example choose_order_size_32GiB :
  choose_order_size None None (1024 * 33554432) 33554432 = Ok (5, 10).
Proof. reflexivity. Qed.

Example choose_order_size_clamped :
  choose_order_size None (Some 3) (1025 * 33554432) 33554432 = Ok (3, 3).
Proof. vm_compute. reflexivity. Qed.

Lemma auto_order_defined (total_bytes default_granularity : Z) :
  0 < total_bytes -> 0 < default_granularity ->
  auto_order total_bytes default_granularity =
  Ok (Z.min 10 (ceil_log2_sqrt (inject_Z total_bytes / inject_Z default_granularity))).
Proof.
  intros Ht Hg. unfold auto_order.
  destruct (Z.eqb_spec default_granularity 0) as [E | _]; [lia |].
  assert (Hpos : (0 < inject_Z total_bytes / inject_Z default_granularity)%Q).
  { apply Qlt_shift_div_l.
    - replace 0%Q with (inject_Z 0) by reflexivity. rewrite <- Zlt_Qlt. exact Hg.
    - rewrite Qmult_0_l.
      replace 0%Q with (inject_Z 0) by reflexivity. rewrite <- Zlt_Qlt. exact Ht. }
  destruct (Qle_bool _ 0) eqn:E; [| reflexivity].
  apply Qle_bool_iff in E. exfalso. apply (Qlt_not_le _ _ Hpos E).
Qed.

(** ** First facts about the generators *)

Lemma walk_unfold (n : nat) (s : Hilbert.steps) (p : Hilbert.pos) :
  Hilbert.walk (S (S n)) s p =
  match Hilbert.inception s with
  | [s1; s2; s3; s4] =>
      let '(o1, p1) := Hilbert.walk (S n) s1 p in
      let '(o2, p2) := Hilbert.walk (S n) s2 p1 in
      let '(o3, p3) := Hilbert.walk (S n) s3 p2 in
      let '(o4, p4) := Hilbert.walk (S n) s4 p3 in
      (o1 ++ o2 ++ o3 ++ o4, p4)
  | _ => ([], p)
  end.
Proof.
  change (Hilbert.walk (S (S n)) s p) with
    (fold_left
       (fun (acc : list CurveStep * Hilbert.pos) (sub : Hilbert.steps) =>
          let '(out, p') := Hilbert.walk (S n) sub (snd acc) in
          (fst acc ++ out, p'))
       (Hilbert.inception s) ([], p)).
  destruct s; cbn [Hilbert.inception fold_left fst snd];
    repeat match goal with
           | |- context [Hilbert.walk (S n) ?a ?b] =>
               is_var b;
               destruct (Hilbert.walk (S n) a b) as [? ?]; cbn [fst snd]
           end;
    rewrite ?app_nil_l, <- ?app_assoc; reflexivity.
Qed.

Lemma walk_moves_length (ms : list Hilbert.move) (p : Hilbert.pos) :
  length (fst (Hilbert.walk_moves ms p)) = length ms.
Proof.
  revert p. induction ms as [| m ms IH]; intros p; cbn; [reflexivity |].
  specialize (IH (Hilbert.advance p m)).
  destruct (Hilbert.walk_moves ms (Hilbert.advance p m)). cbn in *. lia.
Qed.

Lemma moves_length (s : Hilbert.steps) : length (Hilbert.moves s) = 4%nat.
Proof. destruct s; reflexivity. Qed.

(** Level 0 and level 1 take the same branch of [walk]. *)
Lemma walk_level_0 (s : Hilbert.steps) (p : Hilbert.pos) :
  Hilbert.walk 0 s p = Hilbert.walk 1 s p.
Proof. reflexivity. Qed.

Lemma walk_length (n : nat) (s : Hilbert.steps) (p : Hilbert.pos) :
  length (fst (Hilbert.walk (S n) s p)) = (4 ^ S n)%nat.
Proof.
  revert s p. induction n as [| n IH]; intros s p.
  - cbn [Hilbert.walk]. rewrite walk_moves_length, moves_length. reflexivity.
  - rewrite walk_unfold.
    destruct s; cbn [Hilbert.inception];
      repeat match goal with
             | |- context [Hilbert.walk (S n) ?a ?b] =>
                 is_var b;
                 let H := fresh "H" in
                 pose proof (IH a b) as H;
                 destruct (Hilbert.walk (S n) a b) as [? ?]; cbn [fst snd] in H
             end;
      cbn [fst]; rewrite !length_app;
      change (4 ^ S (S n))%nat with (4 * 4 ^ S n)%nat; lia.
Qed.

Lemma hilbert_nonempty (order : nat) : Hilbert.hilbert order <> [].
Proof.
  unfold Hilbert.hilbert. intros E. apply (f_equal (@length _)) in E.
  destruct order as [| n].
  - rewrite walk_level_0, walk_length in E. discriminate.
  - rewrite walk_length in E. cbn [length] in E.
    pose proof (Nat.pow_nonzero 4 (S n)). lia.
Qed.

Lemma two_pow_pos (n : nat) : 0 < 2 ^ Z.of_nat n.
Proof. apply Z.pow_pos_nonneg; lia. Qed.

Lemma py_range_up (n : Z) :
  py_range 0 n 1 = map Z.of_nat (seq 0 (Z.to_nat n)).
Proof.
  unfold py_range. cbn [Z.ltb Z.compare].
  replace (n - 0 + 1 - 1) with n by lia. rewrite Z.div_1_r.
  apply map_ext. intros i. lia.
Qed.

Lemma py_range_up_cons (n : Z) :
  0 < n -> exists t, py_range 0 n 1 = 0 :: t.
Proof.
  intros H. rewrite py_range_up.
  destruct (Z.to_nat n) as [| k] eqn:E; [lia |].
  cbn. eexists. reflexivity.
Qed.

Lemma yield_row_fst_cons (y x : Z) (xs : list Z) (l : Z) :
  exists t, fst (yield_row y (x :: xs) l) = (y, x, l) :: t.
Proof.
  cbn. destruct (yield_row y xs (l + 1)). cbn. eexists. reflexivity.
Qed.

Lemma linear_nonempty (order : nat) : linear order <> [].
Proof.
  unfold linear.
  destruct (py_range_up_cons _ (two_pow_pos order)) as [t E].
  rewrite E. cbn [linear_rows]. rewrite E.
  destruct (yield_row_fst_cons 0 0 t 0) as [r Hr].
  destruct (yield_row 0 (0 :: t) 0) as [row l1]. cbn [fst] in Hr. subst row.
  destruct (linear_rows _ _ _). cbn. discriminate.
Qed.

Lemma py_range_even_cons (n : Z) :
  0 < n -> exists t, py_range 0 n 2 = 0 :: t.
Proof.
  intros H. unfold py_range. cbn [Z.ltb Z.compare].
  assert (0 < (n - 0 + 2 - 1) / 2) by (apply Z.div_str_pos; lia).
  destruct (Z.to_nat _) as [| k] eqn:E; [lia |].
  cbn. eexists. reflexivity.
Qed.

Lemma snake_nonempty (order : nat) : snake order <> [].
Proof.
  unfold snake.
  destruct (py_range_even_cons _ (two_pow_pos order)) as [t E].
  rewrite E. cbn [snake_rows].
  destruct (py_range_up_cons _ (two_pow_pos order)) as [t' E'].
  rewrite E'.
  destruct (yield_row_fst_cons 0 0 t' 0) as [r Hr].
  destruct (yield_row 0 (0 :: t') 0) as [row l1]. cbn [fst] in Hr. subst row.
  destruct (yield_row _ _ l1). destruct (snake_rows _ _ _). cbn. discriminate.
Qed.

Lemma curves_nonempty (c : curve_name) (gen : nat -> list CurveStep) (order : nat) :
  curves_get c = Some gen -> gen order <> [].
Proof.
  destruct c; cbn; intros E; inversion E; subst.
  - apply hilbert_nonempty.
  - apply linear_nonempty.
  - apply snake_nonempty.
Qed.

(** ** Grid construction *)

(** When the order and size are accepted, the order is not negative and
    the curve is known, construction gets as far as the brightness check
    with a grid [g]; the check alone decides the outcome. *)
Lemma init_reaches_check
    (order size : option Z) (total_bytes default_granularity : Z)
    (curve : option curve_name) (o s : Z) (gen : nat -> list CurveStep) :
  choose_order_size order size total_bytes default_granularity = Ok (o, s) ->
  0 <= o ->
  curves_get (curve_or_default curve) = Some gen ->
  exists g : Grid.t,
    Grid._min_brightness g = (1 # 10)%Q /\
    Grid.__init__ order size total_bytes default_granularity None curve = Ok g /\
    forall mb : Q,
      Grid.__init__ order size total_bytes default_granularity (Some mb) curve =
      if Qlt_le_dec mb 0 then Raise ValueError
      else if Qlt_le_dec 1 mb then Raise ValueError
      else Ok (Grid.mk (Grid.order g) (Grid.size g) (Grid.curve g)
                 (Grid._pixel_mix g) (Grid._pixel_dirty g)
                 (Grid.y g) (Grid.x g) (Grid.linear g)
                 (Grid.height g) (Grid.width g) (Grid.num_steps g)
                 (Grid.total_bytes g) (Grid.bytes_per_pixel g)
                 (Grid._color_cache g) (Grid._grid g) (Grid._finished g) mb).
Proof.
  intros Hcos Ho Hc. unfold Grid.__init__.
  rewrite Hcos. cbn [bind]. rewrite Hc.
  destruct (Z.ltb_spec o 0) as [? | _]; [lia |].
  pose proof (curves_nonempty _ _ (Z.to_nat o) Hc) as Hne.
  unfold Grid._next_pixel. cbn [Grid._pixel_dirty Grid.curve bind].
  destruct (gen (Z.to_nat o)) as [| st rest]; [congruence |].
  cbn [bind Grid._add_color_cache struct_color_pack black_rgb].
  eexists. split; [| split; [reflexivity |]].
  - reflexivity.
  - intros mb. reflexivity.
Qed.

(** C8. With an explicit [min_brightness] below 0 or above 1 the
    constructor never returns a grid, and once the other arguments are
    accepted what it raises is the range error; with [min_brightness]
    unset the grid gets 0.1; with a value within [0, 1] it is built with
    that value. *)
Theorem init_min_brightness
    (order size : option Z) (total_bytes default_granularity : Z)
    (curve : option curve_name) :
  (forall mb : Q, (mb < 0 \/ 1 < mb)%Q ->
     is_ok (Grid.__init__ order size total_bytes default_granularity
              (Some mb) curve) = false) /\
  (forall (o s : Z) (gen : nat -> list CurveStep),
     choose_order_size order size total_bytes default_granularity = Ok (o, s) ->
     0 <= o ->
     curves_get (curve_or_default curve) = Some gen ->
     (forall mb : Q, (mb < 0 \/ 1 < mb)%Q ->
        Grid.__init__ order size total_bytes default_granularity (Some mb) curve
        = Raise ValueError) /\
     (exists g : Grid.t,
        Grid.__init__ order size total_bytes default_granularity None curve = Ok g /\
        Grid._min_brightness g = (1 # 10)%Q) /\
     (forall mb : Q, (0 <= mb <= 1)%Q ->
        exists g : Grid.t,
          Grid.__init__ order size total_bytes default_granularity (Some mb) curve
          = Ok g /\
          Grid._min_brightness g = mb)).
Proof.
  split.
  - intros mb Hmb. unfold Grid.__init__.
    destruct (choose_order_size _ _ _ _) as [[o s] | e]; [| reflexivity].
    cbn [bind].
    destruct (curves_get _) as [gen |]; [| reflexivity].
    destruct (o <? 0); [reflexivity |].
    destruct (Grid._next_pixel _) as [g |]; [| reflexivity]. cbn [bind].
    destruct (Grid._add_color_cache g black_rgb) as [[bb g'] |]; [| reflexivity].
    cbn [bind].
    destruct (Qlt_le_dec mb 0) as [_ | Hge]; [reflexivity |].
    destruct (Qlt_le_dec 1 mb) as [_ | Hle]; [reflexivity |].
    exfalso. destruct Hmb as [H | H].
    + apply (Qlt_not_le _ _ H Hge).
    + apply (Qlt_not_le _ _ H Hle).
  - intros o s gen Hcos Ho Hc.
    destruct (init_reaches_check order size total_bytes default_granularity
                curve o s gen Hcos Ho Hc) as (g & Hmb & Hnone & Hsome).
    repeat split.
    + intros mb Hout. rewrite Hsome.
      destruct (Qlt_le_dec mb 0) as [_ | Hge]; [reflexivity |].
      destruct (Qlt_le_dec 1 mb) as [_ | Hle]; [reflexivity |].
      exfalso. destruct Hout as [H | H].
      * apply (Qlt_not_le _ _ H Hge).
      * apply (Qlt_not_le _ _ H Hle).
    + exists g. split; assumption.
    + intros mb [Hlo Hhi]. rewrite Hsome.
      destruct (Qlt_le_dec mb 0) as [H | _].
      { exfalso. apply (Qlt_not_le _ _ H Hlo). }
      destruct (Qlt_le_dec 1 mb) as [H | _].
      { exfalso. apply (Qlt_not_le _ _ H Hhi). }
      eexists. split; reflexivity.
Qed.

Lemma init_min_brightness_witness :
  Grid.__init__ (Some 1) None 20 33554432 (Some (3 # 2)%Q) None = Raise ValueError.
Proof.
  refine (proj1 (proj2 (init_min_brightness (Some 1) None 20 33554432 None)
                   1 10 Hilbert.hilbert _ _ _) (3 # 2)%Q _).
  - reflexivity.
  - lia.
  - reflexivity.
  - right. reflexivity.
Defined.

(** ** The compositor *)

Lemma py_round_comp (a b : Q) : (a == b)%Q -> py_round a = py_round b.
Proof.
  intros E. unfold py_round.
  rewrite (Qfloor_comp _ _ E).
  assert (E' : (a - inject_Z (Qfloor b) == b - inject_Z (Qfloor b))%Q)
    by (rewrite E; reflexivity).
  rewrite (Qcompare_comp _ _ E' (1 # 2) (1 # 2) (Qeq_refl _)).
  reflexivity.
Qed.

Lemma mix_to_rgb_two_as_one
    (mb : Q) (c1 c2 : color) (u1 p1 u2 p2 : Q) :
  (p1 + p2 == 1)%Q ->
  Grid.mix_to_rgb mb [(c1, u1, p1); (c2, u2, p2)] =
  Grid.mix_to_rgb mb
    [(weighted_avg_color c1 p1 c2 p2, weighted_avg u1 p1 u2 p2, 1%Q)].
Proof.
  intros Hsum. unfold Grid.mix_to_rgb, Grid.py_sum, weighted_avg_color, weighted_avg.
  cbn [fold_left Grid.entry_color Grid.entry_pct Grid.entry_used
       chan0 chan1 chan2 fst snd].
  assert (Hdiv : forall a : Q, (a / (p1 + p2) == a)%Q).
  { intros a. rewrite Hsum. unfold Qdiv.
    change (/ 1)%Q with 1%Q. apply Qmult_1_r. }
  f_equal; [f_equal |]; apply py_round_comp;
    rewrite !Hdiv; ring.
Qed.

(** C7. Two mix entries whose coverage fractions add up to 1 are
    finalized to the same color as one entry of coverage 1 that carries
    the coverage-weighted average of the two colors and of the two used
    fractions. *)
Theorem finalized_two_as_one
    (g : Grid.t) (c1 c2 : color) (u1 p1 u2 p2 : Q) :
  (p1 + p2 == 1)%Q ->
  finalized_color g [(c1, u1, p1); (c2, u2, p2)] =
  finalized_color g
    [(weighted_avg_color c1 p1 c2 p2, weighted_avg u1 p1 u2 p2, 1%Q)].
Proof.
  intros Hsum. unfold finalized_color, Grid._pixel_mix_to_rgbytes.
  cbn [Grid.with_mix Grid._min_brightness Grid._pixel_mix Grid._color_cache].
  rewrite (mix_to_rgb_two_as_one _ c1 c2 u1 p1 u2 p2 Hsum).
  destruct (cache_get _ _); [reflexivity |].
  unfold Grid._add_color_cache.
  destruct (struct_color_pack _); reflexivity.
Qed.

Lemma finalized_two_as_one_witness :
  finalized_color small_grid
    [(white, 1%Q, (1 # 4)%Q); (black, (1 # 2)%Q, (3 # 4)%Q)] =
  finalized_color small_grid
    [(weighted_avg_color white (1 # 4) black (3 # 4),
      weighted_avg 1 (1 # 4) (1 # 2) (3 # 4), 1%Q)].
Proof.
  apply (finalized_two_as_one small_grid white black 1 (1 # 4) (1 # 2) (3 # 4)).
  reflexivity.
Defined.

(** ** The scenario of 20 bytes *)

Example small_grid_is_built :
  Grid.__init__ (Some 1) None 20 33554432 None None = Ok small_grid.
Proof. vm_compute. reflexivity. Qed.

(** C3. On the grid of 20 bytes at order 1 (5 bytes per pixel, minimum
    brightness 0.1), [fill(0, 10, 1.0, white)] followed by finalization
    leaves the first two pixels along the curve at (255, 255, 255) -- the
    brightness factor being 0.1 + 1 * (1 - 0.1) = 1 -- and every later
    pixel black.  This holds for each of the three curves. *)
Theorem scenario_20_bytes_pixels (c : curve_name) (gen : nat -> list CurveStep) :
  curves_get c = Some gen ->
  exists g : Grid.t,
    scenario_20_bytes c = Ok g /\
    (Grid.bytes_per_pixel g == 5)%Q /\
    (Grid._min_brightness g + 1 * (1 - Grid._min_brightness g) == 1)%Q /\
    Grid.mix_to_rgb (Grid._min_brightness g) [(white, 1%Q, 1%Q)] = (255, 255, 255) /\
    forall s : CurveStep,
      In s (gen 1%nat) ->
      pixel_at (Grid._grid g) (step_yx s) =
      Some (if step_linear s <? 2 then white_bytes else black_bytes).
Proof.
  intros Hc.
  destruct c; cbn in Hc; inversion Hc; subst gen; clear Hc;
    (eexists; split; [vm_compute; reflexivity |];
     split; [reflexivity |]; split; [reflexivity |]; split; [reflexivity |];
     intros s Hs; cbn in Hs;
     repeat (destruct Hs as [Hs | Hs]; [subst s; reflexivity |]);
     contradiction).
Qed.

Lemma scenario_20_bytes_pixels_witness :
  exists g : Grid.t,
    scenario_20_bytes CurveHilbert = Ok g /\
    pixel_at (Grid._grid g) (1, 0) = Some white_bytes /\
    pixel_at (Grid._grid g) (0, 0) = Some white_bytes /\
    pixel_at (Grid._grid g) (0, 1) = Some black_bytes /\
    pixel_at (Grid._grid g) (1, 1) = Some black_bytes.
Proof.
  destruct (scenario_20_bytes_pixels CurveHilbert Hilbert.hilbert eq_refl)
    as (g & Hrun & _ & _ & _ & Hpix).
  exists g. split; [exact Hrun |].
  repeat split.
  - apply (Hpix (1, 0, 0)). cbn. auto.
  - apply (Hpix (0, 0, 1)). cbn. auto.
  - apply (Hpix (0, 1, 2)). cbn. auto.
  - apply (Hpix (1, 1, 3)). cbn. auto 6.
Defined.

(** ** The output file handle *)

Lemma keeps_open_bind {A B : Type} (m : File.io A) (k : A -> File.io B) :
  keeps_open m -> (forall a, keeps_open (k a)) -> keeps_open (File.iobind m k).
Proof.
  intros Hm Hk f Hf. unfold File.iobind.
  specialize (Hm f Hf). destruct (m f) as [[a | e] f']; cbn in *.
  - apply Hk. exact Hm.
  - exact Hm.
Qed.

Lemma closes_iff_returns_bind {A B : Type} (m : File.io A) (k : A -> File.io B) :
  keeps_open m -> (forall a, closes_iff_returns (k a)) ->
  closes_iff_returns (File.iobind m k).
Proof.
  intros Hm Hk f Hf. unfold File.iobind.
  specialize (Hm f Hf). destruct (m f) as [[a | e] f']; cbn in *.
  - apply Hk. exact Hm.
  - exact Hm.
Qed.

Lemma keeps_open_ret {A : Type} (a : A) : keeps_open (File.ret a).
Proof. intros f Hf. exact Hf. Qed.

Lemma keeps_open_lift {A : Type} (m : result A) : keeps_open (File.lift m).
Proof. intros f Hf. exact Hf. Qed.

Lemma keeps_open_write (data : bytes) : keeps_open (File.write data).
Proof.
  intros f Hf. unfold File.write. rewrite Hf. cbn [negb].
  destruct (File.writes_left f) as [[| n] |]; cbn; auto.
Qed.

Lemma keeps_open_tell : keeps_open File.tell.
Proof. intros f Hf. exact Hf. Qed.

Lemma keeps_open_seek (pos : nat) : keeps_open (File.seek pos).
Proof. intros f Hf. exact Hf. Qed.

Lemma keeps_open_emit (compressed : bytes) (crc datalen : Z) :
  keeps_open (emit compressed crc datalen).
Proof.
  unfold emit. destruct (0 <? _).
  - apply keeps_open_bind; [apply keeps_open_write |].
    intros _. apply keeps_open_ret.
  - apply keeps_open_ret.
Qed.

Lemma keeps_open_compress_row (z : Compressor) (row : list rgbytes)
    (st : zstate z) (crc datalen : Z) :
  keeps_open (compress_row z row st crc datalen).
Proof.
  unfold compress_row.
  destruct (compress z st [x00]) as [c1 st1].
  apply keeps_open_bind; [apply keeps_open_emit |].
  intros [crc1 dl1].
  destruct (compress z st1 (concat row)) as [c2 st2].
  apply keeps_open_bind; [apply keeps_open_emit |].
  intros [crc2 dl2]. apply keeps_open_ret.
Qed.

Lemma keeps_open_compress_rows (z : Compressor) (rows : list (list rgbytes)) :
  forall (st : zstate z) (crc datalen : Z),
    keeps_open (compress_rows z rows st crc datalen).
Proof.
  induction rows as [| row rows IH]; intros st crc datalen; cbn [compress_rows].
  - apply keeps_open_ret.
  - apply keeps_open_bind; [apply keeps_open_compress_row |].
    intros [[st1 crc1] dl1]. apply IH.
Qed.

Lemma closes_iff_returns_close : closes_iff_returns File.close.
Proof. intros f Hf. reflexivity. Qed.

(** C9, as the code has it.  [_write_png] closes the handle it opened
    exactly when it returns; when a write (or a pack) raises, the
    exception leaves the routine with the handle still open. *)
Theorem write_png_closes_iff_returns
    (z : Compressor) (width height : Z) (rows : list (list rgbytes))
    (color_type : Z) (f : File.t) :
  File.is_open (snd (_write_png z width height rows color_type f))
  = negb (is_ok (fst (_write_png z width height rows color_type f))).
Proof.
  unfold _write_png.
  change (File.iobind File.open ?k f) with (k tt (File.mk [] 0 true (File.writes_left f))).
  cbv beta.
  set (f1 := File.mk [] 0 true (File.writes_left f)).
  assert (Hopen : File.is_open f1 = true) by reflexivity.
  revert Hopen. generalize f1. clear f f1.
  match goal with
  | |- forall f1, _ -> File.is_open (snd (?m f1)) = _ =>
      change (closes_iff_returns m)
  end.
  repeat first
    [ apply closes_iff_returns_close
    | apply closes_iff_returns_bind;
      [ first [ apply keeps_open_write | apply keeps_open_lift
              | apply keeps_open_tell | apply keeps_open_seek
              | apply keeps_open_emit | apply keeps_open_compress_rows ]
      | intros ? ]
    | match goal with
      | |- closes_iff_returns (let '(_, _) := ?p in _) => destruct p
      end ].
Qed.

(** C9, as the spec has it, fails: when the fourth write raises, the
    routine exits with the handle open. *)
Lemma write_png_leaves_handle_open :
  let out := _write_png store_compressor 2 1
               [[[x01; x02; x03]; [x04; x05; x06]]] 2
               (File.mk [] 0 false (Some 3%nat)) in
  fst out = Raise IOError /\ File.is_open (snd out) = true.
Proof. vm_compute. split; reflexivity. Qed.

(** ** CRC-32 *)

Lemma crc32_nil (v : Z) : crc32 [] v = v.
Proof.
  unfold crc32. cbn [fold_left].
  rewrite Z.lxor_assoc, Z.lxor_nilpotent, Z.lxor_0_r. reflexivity.
Qed.

(** The running value may be passed from one call to the next. *)
Lemma crc32_app (a b : bytes) (v : Z) :
  crc32 (a ++ b) v = crc32 b (crc32 a v).
Proof.
  unfold crc32. rewrite fold_left_app.
  rewrite (Z.lxor_assoc (fold_left crc_byte a _)), Z.lxor_nilpotent, Z.lxor_0_r.
  reflexivity.
Qed.

Lemma lxor_u32 (a b : Z) : u32 a -> u32 b -> u32 (Z.lxor a b).
Proof.
  unfold u32. intros [Ha0 Ha] [Hb0 Hb]. split.
  - apply Z.lxor_nonneg. lia.
  - destruct (Z.eq_dec (Z.lxor a b) 0) as [E | NE]; [rewrite E; reflexivity |].
    assert (Hpos : 0 < Z.lxor a b).
    { assert (0 <= Z.lxor a b) by (apply Z.lxor_nonneg; lia). lia. }
    apply Z.log2_lt_pow2; [exact Hpos |].
    pose proof (Z.log2_lxor a b Ha0 Hb0) as Hl.
    assert (Z.log2 a < 32).
    { destruct (Z.eq_dec a 0) as [-> | ?]; [cbn; lia |].
      apply Z.log2_lt_pow2; lia. }
    assert (Z.log2 b < 32).
    { destruct (Z.eq_dec b 0) as [-> | ?]; [cbn; lia |].
      apply Z.log2_lt_pow2; lia. }
    lia.
Qed.

Lemma shiftr1_u32 (c : Z) : u32 c -> u32 (Z.shiftr c 1).
Proof.
  unfold u32. intros [H0 H]. rewrite Z.shiftr_div_pow2 by lia.
  change (2 ^ 1) with 2. split.
  - apply Z.div_pos; lia.
  - apply Z.div_lt_upper_bound; lia.
Qed.

Lemma crc_bit_u32 (c : Z) : u32 c -> u32 (crc_bit c).
Proof.
  intros H. unfold crc_bit. destruct (Z.testbit c 0).
  - apply lxor_u32; [apply shiftr1_u32; exact H |].
    unfold u32. cbn. lia.
  - apply shiftr1_u32. exact H.
Qed.

Lemma Z_of_byte_range (b : byte) : 0 <= Z_of_byte b < 256.
Proof.
  unfold Z_of_byte. pose proof (Byte.to_N_bounded b) as H.
  split; [apply N2Z.is_nonneg |].
  change 256 with (Z.of_N 256). apply N2Z.inj_lt. lia.
Qed.

Lemma crc_byte_u32 (c : Z) (b : byte) : u32 c -> u32 (crc_byte c b).
Proof.
  intros H. unfold crc_byte.
  do 8 apply crc_bit_u32.
  apply lxor_u32; [exact H |].
  pose proof (Z_of_byte_range b). unfold u32. lia.
Qed.

Lemma crc32_u32 (data : bytes) (v : Z) : u32 v -> u32 (crc32 data v).
Proof.
  intros H. unfold crc32.
  apply lxor_u32; [| unfold u32; cbn; lia].
  assert (Hs : u32 (Z.lxor v 0xffffffff)).
  { apply lxor_u32; [exact H | unfold u32; cbn; lia]. }
  revert Hs. generalize (Z.lxor v 0xffffffff).
  induction data as [| b data IH]; intros c Hc; cbn [fold_left].
  - exact Hc.
  - apply IH. apply crc_byte_u32. exact Hc.
Qed.

Lemma land_mask_u32 (v : Z) : u32 v -> Z.land v 0xffffffff = v.
Proof.
  unfold u32. intros H. change 0xffffffff with (Z.ones 32).
  rewrite Z.land_ones by lia. apply Z.mod_small. exact H.
Qed.

Lemma pack_I_u32 (v : Z) : u32 v -> pack_I v = Ok (be32 v).
Proof.
  unfold u32, pack_I. intros [H0 H1].
  destruct (Z.leb_spec 0 v); [| lia].
  destruct (Z.ltb_spec v (2 ^ 32)); [| lia]. reflexivity.
Qed.

(** ** The encoder's output *)

Lemma overwrite_at_end (c data : bytes) :
  File.overwrite c (length c) data = c ++ data.
Proof.
  unfold File.overwrite.
  rewrite firstn_all, Nat.sub_diag. cbn [repeat app].
  rewrite skipn_all2 by lia. rewrite app_nil_r. reflexivity.
Qed.

Lemma overwrite_inside (a old new b : bytes) :
  length old = length new ->
  File.overwrite (a ++ old ++ b) (length a) new = a ++ new ++ b.
Proof.
  intros Hlen. unfold File.overwrite.
  rewrite firstn_app, firstn_all, Nat.sub_diag. cbn [firstn].
  rewrite app_nil_r.
  replace (length a - length (a ++ old ++ b))%nat with 0%nat
    by (rewrite length_app; lia).
  cbn [repeat app].
  rewrite skipn_app, skipn_all2 by lia. cbn [app].
  replace (length a + length new - length a)%nat with (length old) by lia.
  rewrite skipn_app, skipn_all, Nat.sub_diag. reflexivity.
Qed.

Lemma write_at_end (c data : bytes) :
  File.write data (at_end c) = (Ok tt, at_end (c ++ data)).
Proof.
  unfold File.write, at_end.
  cbn [File.is_open File.writes_left File.content File.position negb option_map].
  rewrite overwrite_at_end, length_app. reflexivity.
Qed.

Lemma emit_at_end (compressed : bytes) (crc datalen : Z) (c : bytes) :
  emit compressed crc datalen (at_end c) =
  (Ok (crc32 compressed crc, datalen + Z.of_nat (length compressed)),
   at_end (c ++ compressed)).
Proof.
  unfold emit. destruct compressed as [| b t].
  - cbn. rewrite crc32_nil, Z.add_0_r, app_nil_r. reflexivity.
  - destruct (Z.ltb_spec 0 (Z.of_nat (length (b :: t)))) as [_ | H];
      [| cbn [length] in H; lia].
    unfold File.iobind. rewrite write_at_end. reflexivity.
Qed.

(** The loop over the rows appends to the file what the compressor gives
    for the chunks of the rows, and carries the CRC and the length on. *)
Lemma compress_rows_at_end (z : Compressor) (rows : list (list rgbytes)) :
  forall (st : zstate z) (crc datalen : Z) (c : bytes),
  exists (out : bytes) (st' : zstate z),
    compress_rows z rows st crc datalen (at_end c) =
    (Ok (st', crc32 out crc, datalen + Z.of_nat (length out)), at_end (c ++ out)) /\
    deflate_from z st (row_chunks rows) = out ++ flush z st'.
Proof.
  induction rows as [| row rows IH]; intros st crc datalen c.
  - exists [], st. cbn. rewrite crc32_nil, Z.add_0_r, app_nil_r. split; reflexivity.
  - cbn [compress_rows row_chunks flat_map app deflate_from].
    unfold compress_row.
    destruct (compress z st [x00]) as [c1 st1].
    destruct (compress z st1 (concat row)) as [c2 st2].
    destruct (IH st2 (crc32 c2 (crc32 c1 crc))
                (datalen + Z.of_nat (length c1) + Z.of_nat (length c2))
                ((c ++ c1) ++ c2)) as (out & st' & Hrun & Hdef).
    exists (c1 ++ c2 ++ out), st'. split.
    + unfold File.iobind at 1. unfold File.iobind at 1.
      rewrite emit_at_end.
      unfold File.iobind at 1. rewrite emit_at_end.
      unfold File.ret at 1. cbv beta iota.
      fold (row_chunks rows). rewrite Hrun.
      rewrite !crc32_app, !length_app, <- !app_assoc.
      do 3 f_equal. lia.
    + fold (row_chunks rows). rewrite Hdef, <- !app_assoc. reflexivity.
Qed.

Lemma row_chunks_concat (rows : list (list rgbytes)) :
  concat (row_chunks rows) = raw_scanlines rows.
Proof.
  induction rows as [| row rows IH]; [reflexivity |].
  cbn [row_chunks raw_scanlines flat_map app concat].
  fold (row_chunks rows). fold (raw_scanlines rows).
  rewrite IH. reflexivity.
Qed.

Lemma pack_ihdr_u32 (width height : Z) :
  u32 width -> u32 height -> pack_ihdr width height 2 = Ok (ihdr_data width height).
Proof.
  intros Hw Hh. unfold pack_ihdr.
  rewrite (pack_I_u32 _ Hw), (pack_I_u32 _ Hh). reflexivity.
Qed.

(** C6. With width and height that fit four bytes, and writes that go
    through, the file [_write_png] leaves is exactly: the signature; an
    IHDR chunk of declared length 13 with width and height big-endian, bit
    depth 8, color type 2 and three zeros, then the CRC-32 of type and
    data; one IDAT chunk whose payload is what the compressor gives for
    the rows, each fed as the filter byte 0 and then its joined pixels,
    with the declared length patched to the length of the payload and the
    CRC-32 of type and payload; and the IEND chunk with its CRC. *)
Theorem write_png_layout
    (z : Compressor) (width height : Z) (rows : list (list rgbytes)) (f : File.t) :
  u32 width -> u32 height ->
  File.writes_left f = None ->
  u32 (Z.of_nat (length (deflate z (row_chunks rows)))) ->
  _write_png z width height rows 2 f =
  (Ok tt, File.mk (png_layout z width height rows) 37 false None)
  /\ concat (row_chunks rows) = raw_scanlines rows.
Proof.
  intros Hw Hh Hf Hlen. split; [| apply row_chunks_concat].
  unfold _write_png.
  change (File.iobind File.open ?k f) with (k tt (File.mk [] 0 true (File.writes_left f))).
  cbv beta. rewrite Hf. change (File.mk [] 0 true None) with (at_end []).
  unfold File.iobind at 1. rewrite write_at_end.
  unfold File.iobind at 1. unfold File.lift at 1.
  rewrite (pack_I_u32 13) by (unfold u32; cbn; lia).
  unfold File.iobind at 1. rewrite write_at_end.
  unfold File.iobind at 1. unfold File.lift at 1.
  rewrite (pack_ihdr_u32 _ _ Hw Hh).
  unfold File.iobind at 1. rewrite write_at_end.
  assert (Hc0 : u32 0) by (unfold u32; cbn; lia).
  unfold File.iobind at 1. unfold File.lift at 1.
  rewrite (land_mask_u32 _ (crc32_u32 (ihdr_data width height) 0 Hc0)).
  rewrite (pack_I_u32 _ (crc32_u32 (ihdr_data width height) 0 Hc0)).
  unfold File.iobind at 1. rewrite write_at_end.
  unfold File.iobind at 1. unfold File.tell at 1. cbn [at_end File.position].
  unfold File.iobind at 1. rewrite write_at_end.
  match goal with
  | |- context [at_end (?pre ++ zero_len ++ b_IDAT)] =>
      destruct (compress_rows_at_end z rows (compressobj z) (crc32 b_IDAT 0) 0
                  (pre ++ zero_len ++ b_IDAT)) as (out & st' & Hrun & Hdef)
  end.
  unfold File.iobind at 1. rewrite Hrun.
  unfold File.iobind at 1. rewrite emit_at_end.
  assert (Hpay : deflate z (row_chunks rows) = out ++ flush z st') by exact Hdef.
  rewrite <- !crc32_app in *.
  assert (Hcrc : u32 (crc32 (b_IDAT ++ out ++ flush z st') 0))
    by (apply crc32_u32; exact Hc0).
  unfold File.iobind at 1. unfold File.lift at 1.
  rewrite (land_mask_u32 _ Hcrc), (pack_I_u32 _ Hcrc).
  unfold File.iobind at 1. rewrite write_at_end.
  unfold File.iobind at 1. rewrite write_at_end.
  unfold File.iobind at 1. unfold File.seek at 1.
  cbn [at_end File.content File.is_open File.writes_left].
  unfold File.iobind at 1. unfold File.lift at 1.
  assert (Hdl : 0 + Z.of_nat (length out) + Z.of_nat (length (flush z st'))
                = Z.of_nat (length (deflate z (row_chunks rows)))).
  { rewrite Hpay, length_app. lia. }
  rewrite Hdl, (pack_I_u32 _ Hlen).
  unfold File.write, File.close, File.iobind.
  cbn [File.is_open File.writes_left File.content File.position negb option_map].
  f_equal. f_equal.
  unfold png_layout. rewrite Hpay.
  match goal with
  | |- File.overwrite ?l (length ?a) ?n = _ =>
      replace l with (a ++ zero_len ++
                        (b_IDAT ++ (out ++ flush z st')
                         ++ be32 (crc32 (b_IDAT ++ out ++ flush z st') 0)
                         ++ iend_chunk))
        by (rewrite <- !app_assoc; reflexivity)
  end.
  rewrite overwrite_inside by reflexivity.
  rewrite <- !app_assoc. reflexivity.
Qed.

Lemma write_png_layout_witness :
  _write_png store_compressor 2 1 [[[x01; x02; x03]; [x04; x05; x06]]] 2
    (File.mk [] 0 false None) =
  (Ok tt,
   File.mk (png_layout store_compressor 2 1 [[[x01; x02; x03]; [x04; x05; x06]]])
     37 false None).
Proof.
  refine (proj1 (write_png_layout store_compressor 2 1
                   [[[x01; x02; x03]; [x04; x05; x06]]]
                   (File.mk [] 0 false None) _ _ _ _)).
  - unfold u32. lia.
  - unfold u32. lia.
  - reflexivity.
  - unfold u32. vm_compute. split; [discriminate | reflexivity].
Defined.

(** ** The curves at order 0 *)

(** C1 at order 0: [walk] takes its [else] branch for every level that
    is not above 1, so the generator yields the four steps of a 2 x 2 block
    on a grid of a single cell, three of them off the grid. *)
Theorem hilbert_order_0 :
  Hilbert.hilbert 0 = [(0, 0, 0); (-1, 0, 1); (-1, 1, 2); (0, 1, 3)]
  /\ length (Hilbert.hilbert 0) <> Z.to_nat (4 ^ 0).
Proof. split; [reflexivity | cbn; lia]. Qed.

(** C4 at order 0: [snake] runs its second inner loop on row 1 although
    the grid has the single row 0, and yields two steps. *)
Theorem snake_order_0 :
  snake 0 = [(0, 0, 0); (1, 0, 1)]
  /\ length (snake 0) <> Z.to_nat (4 ^ 0)
  /\ linear 0 = [(0, 0, 0)].
Proof. split; [reflexivity | split; [vm_compute; lia | reflexivity]]. Qed.

(** ** The pixel buffer *)

Lemma list_set_length {A : Type} (l : list A) (n : nat) (v : A) :
  length (list_set l n v) = length l.
Proof.
  revert n. induction l as [| h t IH]; intros [| n]; cbn; auto.
Qed.

Lemma nth_error_list_set_same {A : Type} (l : list A) (n : nat) (v : A) :
  (n < length l)%nat -> nth_error (list_set l n v) n = Some v.
Proof.
  revert n. induction l as [| h t IH]; intros [| n] H; cbn in *; try lia; auto.
  apply IH. lia.
Qed.

Lemma nth_error_list_set_other {A : Type} (l : list A) (n m : nat) (v : A) :
  n <> m -> nth_error (list_set l n v) m = nth_error l m.
Proof.
  revert n m. induction l as [| h t IH]; intros [| n] [| m] H; cbn; auto.
  congruence.
Qed.

Lemma nth_list_set_same {A : Type} (l : list A) (n : nat) (v d : A) :
  (n < length l)%nat -> nth n (list_set l n v) d = v.
Proof.
  intros H. apply nth_error_nth. apply nth_error_list_set_same. exact H.
Qed.

Lemma nth_list_set_other {A : Type} (l : list A) (n m : nat) (v d : A) :
  n <> m -> nth m (list_set l n v) d = nth m l d.
Proof.
  revert n m. induction l as [| h t IH]; intros [| n] [| m] H; cbn; auto.
  congruence.
Qed.

Lemma Forall_list_set {A : Type} (P : A -> Prop) (l : list A) (n : nat) (v : A) :
  Forall P l -> P v -> Forall P (list_set l n v).
Proof.
  intros Hl Hv. revert n.
  induction Hl as [| h t Hh Ht IH]; intros [| n]; cbn; auto.
Qed.

Lemma py_index_in_range (len i : Z) :
  0 <= i < len -> py_index len i = Some (Z.to_nat i).
Proof.
  intros H. unfold py_index.
  destruct (Z.leb_spec 0 i); [| lia].
  destruct (Z.ltb_spec i len); [| lia]. reflexivity.
Qed.

Lemma dims_row (rows : list (list rgbytes)) (h w : Z) (r : nat) :
  dims rows h w -> (r < length rows)%nat ->
  Z.of_nat (length (nth r rows [])) = w.
Proof.
  intros [_ Hrows] Hr. rewrite Forall_forall in Hrows.
  apply Hrows. apply nth_In. exact Hr.
Qed.

Lemma set_rows_dims (rows : list (list rgbytes)) (h w : Z) (yx : Z * Z) (v : rgbytes) :
  dims rows h w -> in_grid h w yx -> dims (set_rows rows yx v) h w.
Proof.
  intros Hd [Hy Hx]. pose proof Hd as [Hlen Hrows]. unfold set_rows. split.
  - rewrite list_set_length. exact Hlen.
  - apply Forall_list_set; [exact Hrows |].
    rewrite list_set_length. apply (dims_row rows h w); [exact Hd | lia].
Qed.

Lemma pixel_at_set_rows_same
    (rows : list (list rgbytes)) (h w : Z) (yx : Z * Z) (v : rgbytes) :
  dims rows h w -> in_grid h w yx ->
  pixel_at (set_rows rows yx v) yx = Some v.
Proof.
  intros Hd [Hy Hx]. pose proof Hd as [Hlen Hrows].
  unfold pixel_at, set_rows.
  rewrite list_set_length, py_index_in_range by lia.
  rewrite nth_list_set_same by lia.
  rewrite list_set_length.
  assert (Hw : Z.of_nat (length (nth (Z.to_nat (fst yx)) rows [])) = w)
    by (apply (dims_row rows h w); [exact Hd | lia]).
  rewrite py_index_in_range by lia.
  apply nth_error_list_set_same. lia.
Qed.

Lemma pixel_at_set_rows_other
    (rows : list (list rgbytes)) (h w : Z) (yx yx' : Z * Z) (v : rgbytes) :
  dims rows h w -> in_grid h w yx -> in_grid h w yx' -> yx <> yx' ->
  pixel_at (set_rows rows yx' v) yx = pixel_at rows yx.
Proof.
  intros Hd [Hy Hx] [Hy' Hx'] Hne. pose proof Hd as [Hlen Hrows].
  unfold pixel_at, set_rows.
  rewrite list_set_length, py_index_in_range by lia.
  destruct (Nat.eq_dec (Z.to_nat (fst yx')) (Z.to_nat (fst yx))) as [E | NE].
  - rewrite E, nth_list_set_same by lia.
    rewrite list_set_length.
    assert (Hw : Z.of_nat (length (nth (Z.to_nat (fst yx)) rows [])) = w)
      by (apply (dims_row rows h w); [exact Hd | lia]).
    rewrite py_index_in_range by lia.
    apply nth_error_list_set_other.
    intros E'. apply Hne. destruct yx, yx'. cbn in *. f_equal; lia.
  - rewrite nth_list_set_other by exact NE. reflexivity.
Qed.

Lemma apply_writes_cons (rows : list (list rgbytes))
    (wr : (Z * Z) * rgbytes) (ws : list ((Z * Z) * rgbytes)) :
  apply_writes rows (wr :: ws) = apply_writes (set_rows rows (fst wr) (snd wr)) ws.
Proof. reflexivity. Qed.

Lemma apply_writes_dims (ws : list ((Z * Z) * rgbytes)) :
  forall (rows : list (list rgbytes)) (h w : Z),
    dims rows h w -> Forall (fun wr => in_grid h w (fst wr)) ws ->
    dims (apply_writes rows ws) h w.
Proof.
  induction ws as [| wr ws IH]; intros rows h w Hd Hws; [exact Hd |].
  rewrite apply_writes_cons.
  inversion Hws; subst. apply IH; [| assumption].
  apply set_rows_dims; assumption.
Qed.

Lemma apply_writes_app (rows : list (list rgbytes)) (a b : list ((Z * Z) * rgbytes)) :
  apply_writes rows (a ++ b) = apply_writes (apply_writes rows a) b.
Proof. unfold apply_writes. apply fold_left_app. Qed.

(** A pixel no write names keeps its value. *)
Lemma pixel_at_apply_writes_untouched (ws : list ((Z * Z) * rgbytes)) :
  forall (rows : list (list rgbytes)) (h w : Z) (yx : Z * Z),
    dims rows h w -> in_grid h w yx ->
    Forall (fun wr => in_grid h w (fst wr)) ws ->
    ~ In yx (map fst ws) ->
    pixel_at (apply_writes rows ws) yx = pixel_at rows yx.
Proof.
  induction ws as [| wr ws IH]; intros rows h w yx Hd Hyx Hws Hnot;
    [reflexivity |].
  rewrite apply_writes_cons.
  inversion Hws; subst. cbn in Hnot.
  rewrite (IH _ h w); auto.
  - apply (pixel_at_set_rows_other rows h w); auto.
  - apply set_rows_dims; assumption.
Qed.

(** When all the writes to a pixel carry the same value and there is at
    least one, the pixel ends with that value. *)
Lemma pixel_at_apply_writes_value (ws : list ((Z * Z) * rgbytes)) :
  forall (rows : list (list rgbytes)) (h w : Z) (yx : Z * Z) (v : rgbytes),
    dims rows h w -> in_grid h w yx ->
    Forall (fun wr => in_grid h w (fst wr)) ws ->
    (forall wr, In wr ws -> fst wr = yx -> snd wr = v) ->
    In yx (map fst ws) ->
    pixel_at (apply_writes rows ws) yx = Some v.
Proof.
  induction ws as [| wr ws IH]; intros rows h w yx v Hd Hyx Hws Hval Hin;
    [contradiction |].
  inversion Hws; subst. rewrite apply_writes_cons.
  assert (Hd' : dims (set_rows rows (fst wr) (snd wr)) h w)
    by (apply set_rows_dims; assumption).
  destruct (in_dec (fun a b : Z * Z =>
                      ltac:(decide equality; apply Z.eq_dec) : {a = b} + {a <> b})
              yx (map fst ws)) as [Hlater | Hnot].
  - apply (IH _ h w); auto. intros wr' Hwr'. apply Hval. right. exact Hwr'.
  - rewrite (pixel_at_apply_writes_untouched ws _ h w); auto.
    destruct Hin as [E | Hin]; [| contradiction].
    rewrite (Hval wr (or_introl eq_refl) E), E.
    apply (pixel_at_set_rows_same rows h w); assumption.
Qed.

(** ** The color cache *)

Lemma rgb_eqb_eq (a b : rgb) : rgb_eqb a b = true <-> a = b.
Proof.
  destruct a as [[a0 a1] a2], b as [[b0 b1] b2]. unfold rgb_eqb.
  rewrite !andb_true_iff, !Z.eqb_eq. split.
  - intros [[-> ->] ->]. reflexivity.
  - intros E. inversion E. auto.
Qed.

Lemma rgb_eqb_refl (a : rgb) : rgb_eqb a a = true.
Proof. apply rgb_eqb_eq. reflexivity. Qed.

Lemma cache_get_set_same (d : color_cache) (k : rgb) (v : rgbytes) :
  cache_get (cache_set d k v) k = Some v.
Proof.
  induction d as [| [k' v'] d IH]; cbn.
  - rewrite rgb_eqb_refl. reflexivity.
  - destruct (rgb_eqb k k') eqn:E; cbn; rewrite E; [reflexivity | exact IH].
Qed.

Lemma cache_get_set_other (d : color_cache) (k k' : rgb) (v : rgbytes) :
  k' <> k -> cache_get (cache_set d k v) k' = cache_get d k'.
Proof.
  intros Hne. induction d as [| [k0 v0] d IH]; cbn.
  - destruct (rgb_eqb k' k) eqn:E; [| reflexivity].
    apply rgb_eqb_eq in E. contradiction.
  - destruct (rgb_eqb k k0) eqn:E; cbn.
    + apply rgb_eqb_eq in E. subst k0.
      destruct (rgb_eqb k' k) eqn:E'; [| reflexivity].
      apply rgb_eqb_eq in E'. contradiction.
    + destruct (rgb_eqb k' k0); [reflexivity | exact IH].
Qed.

Lemma cache_get_add_same (d : color_cache) (k : rgb) (v : rgbytes) :
  cache_ok d -> struct_color_pack k = Ok v ->
  cache_get (cache_add d k v) k = Some v.
Proof.
  intros Hok Hv. unfold cache_add.
  destruct (cache_get d k) as [v' |] eqn:E.
  - rewrite E. f_equal. apply Hok in E. congruence.
  - apply cache_get_set_same.
Qed.

Lemma cache_add_ok (d : color_cache) (k : rgb) (v : rgbytes) :
  cache_ok d -> struct_color_pack k = Ok v -> cache_ok (cache_add d k v).
Proof.
  intros Hok Hv k' v' Hget. unfold cache_add in Hget.
  destruct (cache_get d k) eqn:E; [apply Hok; exact Hget |].
  destruct (rgb_eqb k' k) eqn:Ek.
  - apply rgb_eqb_eq in Ek. subst k'.
    rewrite cache_get_set_same in Hget. congruence.
  - rewrite cache_get_set_other in Hget.
    + apply Hok. exact Hget.
    + intros ->. rewrite rgb_eqb_refl in Ek. discriminate.
Qed.

Lemma packable_packed (mb : Q) (mix : list Grid.mix_entry) :
  packable mb mix ->
  struct_color_pack (Grid.mix_to_rgb mb mix) = Ok (packed mb mix).
Proof.
  unfold packable, packed. destruct (struct_color_pack _); [reflexivity | discriminate].
Qed.

(** ** One method at a time *)

Ltac wf_split := refine (conj _ (conj _ (conj _ (conj _ (conj _ _))))).

Lemma pixel_mix_to_rgbytes_ok (g : Grid.t) :
  cache_ok (Grid._color_cache g) ->
  packable (Grid._min_brightness g) (Grid._pixel_mix g) ->
  Grid._pixel_mix_to_rgbytes g =
  Ok (packed (Grid._min_brightness g) (Grid._pixel_mix g),
      Grid.with_cache g
        (cache_add (Grid._color_cache g)
           (Grid.mix_to_rgb (Grid._min_brightness g) (Grid._pixel_mix g))
           (packed (Grid._min_brightness g) (Grid._pixel_mix g)))).
Proof.
  intros Hok Hp. apply packable_packed in Hp.
  unfold Grid._pixel_mix_to_rgbytes, cache_add.
  destruct (cache_get _ _) as [b |] eqn:E.
  - apply Hok in E. rewrite Hp in E. inversion E; subst b.
    destruct g; reflexivity.
  - unfold Grid._add_color_cache. rewrite Hp. reflexivity.
Qed.

Lemma set_pixel_ok (g : Grid.t) (b : rgbytes) :
  dims (Grid._grid g) (Grid.height g) (Grid.width g) ->
  in_grid (Grid.height g) (Grid.width g) (Grid.y g, Grid.x g) ->
  Grid._set_pixel g b =
  Ok (Grid.with_grid g (set_rows (Grid._grid g) (Grid.y g, Grid.x g) b)).
Proof.
  intros Hd [Hy Hx]. cbn [fst snd] in *. pose proof Hd as [Hlen _].
  unfold Grid._set_pixel.
  rewrite py_index_in_range by lia.
  rewrite (dims_row _ _ _ (Z.to_nat (Grid.y g)) Hd) by lia.
  rewrite py_index_in_range by lia. reflexivity.
Qed.

Lemma finish_pixel_ok (g : Grid.t) :
  wf g -> packable (Grid._min_brightness g) (Grid._pixel_mix g) ->
  Grid._finish_pixel g = Ok (commit g).
Proof.
  intros (Hd & Hyx & _ & _ & Hc & _) Hp. unfold Grid._finish_pixel.
  rewrite (pixel_mix_to_rgbytes_ok g Hc Hp). cbn [bind].
  rewrite set_pixel_ok by (destruct g; assumption).
  reflexivity.
Qed.

Lemma wf_commit (g : Grid.t) :
  wf g -> packable (Grid._min_brightness g) (Grid._pixel_mix g) -> wf (commit g).
Proof.
  intros (Hd & Hyx & Hcurve & Hfol & Hc & Hm) Hp. unfold wf, commit.
  destruct g; cbn in *. wf_split; try assumption.
  - apply (set_rows_dims _ _ _ _ _ Hd Hyx).
  - apply cache_add_ok; [exact Hc | apply packable_packed; exact Hp].
  - reflexivity.
Qed.

Lemma wf_settle (g : Grid.t) :
  wf g ->
  (Grid._pixel_dirty g = true ->
   packable (Grid._min_brightness g) (Grid._pixel_mix g)) ->
  wf (settle g).
Proof.
  intros Hwf Hp. unfold settle. destruct (Grid._pixel_dirty g); [| exact Hwf].
  apply wf_commit; auto.
Qed.

Lemma next_pixel_ok (g : Grid.t) (s : CurveStep) (rest : list CurveStep) :
  wf g ->
  (Grid._pixel_dirty g = true ->
   packable (Grid._min_brightness g) (Grid._pixel_mix g)) ->
  Grid.curve g = s :: rest ->
  Grid._next_pixel g = Ok (Grid.with_cursor (settle g) s rest).
Proof.
  intros Hwf Hp Hcurve. unfold Grid._next_pixel, settle.
  destruct (Grid._pixel_dirty g) eqn:Hd.
  - rewrite (finish_pixel_ok g Hwf (Hp eq_refl)). cbn [bind].
    replace (Grid.curve (commit g)) with (Grid.curve g) by (destruct g; reflexivity).
    rewrite Hcurve. reflexivity.
  - cbn [bind]. rewrite Hcurve. reflexivity.
Qed.

Lemma follows_app (a b : list CurveStep) :
  forall l, follows l (a ++ b) <-> follows l a /\ follows (l + Z.of_nat (length a)) b.
Proof.
  induction a as [| s a IH]; intros l; cbn [app follows length].
  - rewrite Z.add_0_r. tauto.
  - rewrite IH. replace (l + 1 + Z.of_nat (length a)) with (l + Z.of_nat (S (length a))) by lia.
    tauto.
Qed.

Lemma follows_range (a : list CurveStep) :
  forall l s, follows l a -> In s a -> l < step_linear s <= l + Z.of_nat (length a).
Proof.
  induction a as [| t a IH]; intros l s Hf Hin; [contradiction |].
  destruct Hf as [Ht Hf]. cbn [length]. destruct Hin as [-> | Hin].
  - lia.
  - specialize (IH _ _ Hf Hin). lia.
Qed.

Lemma wf_with_cursor (g : Grid.t) (pre : list CurveStep) (s : CurveStep)
    (rest : list CurveStep) :
  wf g -> Grid.curve g = pre ++ s :: rest -> wf (Grid.with_cursor g s rest).
Proof.
  intros (Hd & Hyx & Hcurve & Hfol & Hc & Hm) E. rewrite E in *.
  apply Forall_app in Hcurve. destruct Hcurve as [_ Hcurve].
  inversion Hcurve; subst.
  apply follows_app in Hfol. destruct Hfol as [_ [Hl Hfol]].
  unfold wf. destruct g; cbn in *. wf_split; try assumption.
  rewrite Hl. exact Hfol.
Qed.

(** ** The loops of [fill] *)

Lemma advance_loop_done (fuel : nat) (limit : Z) (g : Grid.t) :
  limit <= Grid.linear g -> Grid.advance_loop fuel limit g = Ok g.
Proof.
  intros H. destruct fuel; cbn; destruct (Z.ltb_spec (Grid.linear g) limit);
    try lia; reflexivity.
Qed.

Lemma settle_clean (g : Grid.t) :
  (Grid._pixel_dirty g = false -> Grid._pixel_mix g = []) ->
  Grid._pixel_dirty (settle g) = false /\ Grid._pixel_mix (settle g) = [].
Proof.
  intros H. unfold settle. destruct (Grid._pixel_dirty g) eqn:E.
  - split; reflexivity.
  - split; [exact E | apply H; reflexivity].
Qed.

(** The first loop of [fill]: it commits the pending pixel, if there is
    one, and moves the cursor to the first step at or past [limit]. *)
Lemma advance_loop_skip (pre : list CurveStep) :
  forall (fuel : nat) (g : Grid.t) (limit : Z) (s : CurveStep) (rest : list CurveStep),
    wf g ->
    (Grid._pixel_dirty g = true ->
     packable (Grid._min_brightness g) (Grid._pixel_mix g)) ->
    Grid.curve g = pre ++ s :: rest ->
    (length pre < fuel)%nat ->
    Grid.linear g < limit ->
    Forall (fun t => step_linear t < limit) pre ->
    limit <= step_linear s ->
    Grid.advance_loop fuel limit g = Ok (Grid.with_cursor (settle g) s rest).
Proof.
  induction pre as [| t pre IH]; intros fuel g limit s rest Hwf Hp Hc Hfuel Hl Hpre Hs.
  - destruct fuel as [| fuel]; [cbn in Hfuel; lia |].
    cbn [Grid.advance_loop]. destruct (Z.ltb_spec (Grid.linear g) limit); [| lia].
    rewrite (next_pixel_ok g s rest Hwf Hp Hc). cbn [bind].
    apply advance_loop_done. destruct g; exact Hs.
  - destruct fuel as [| fuel]; [cbn in Hfuel; lia |].
    cbn [Grid.advance_loop]. destruct (Z.ltb_spec (Grid.linear g) limit); [| lia].
    rewrite (next_pixel_ok g t (pre ++ s :: rest) Hwf Hp Hc). cbn [bind].
    inversion Hpre; subst.
    pose proof (wf_settle g Hwf Hp) as Hwf1.
    destruct Hwf as (_ & _ & _ & _ & _ & Hm).
    destruct (settle_clean g Hm) as [Hclean Hmix].
    set (g1 := Grid.with_cursor (settle g) t (pre ++ s :: rest)).
    assert (Hwf2 : wf g1).
    { apply (wf_with_cursor _ []); [exact Hwf1 |].
      unfold settle. destruct (Grid._pixel_dirty g); destruct g; exact Hc. }
    rewrite (IH fuel g1 limit s rest Hwf2).
    + f_equal. unfold g1, settle at 1.
      replace (Grid._pixel_dirty (Grid.with_cursor (settle g) t (pre ++ s :: rest)))
        with (Grid._pixel_dirty (settle g)) by reflexivity.
      rewrite Hclean. reflexivity.
    + unfold g1. cbn [Grid.with_cursor Grid._pixel_dirty]. rewrite Hclean. discriminate.
    + reflexivity.
    + cbn [length] in Hfuel. lia.
    + unfold g1. cbn [Grid.with_cursor Grid.linear]. assumption.
    + assumption.
    + exact Hs.
Qed.

Lemma frame_refl (g : Grid.t) : frame g g.
Proof. unfold frame. tauto. Qed.

Lemma frame_trans (g1 g2 g3 : Grid.t) : frame g1 g2 -> frame g2 g3 -> frame g1 g3.
Proof. unfold frame. intuition congruence. Qed.

Lemma frame_settle (g : Grid.t) : frame g (settle g).
Proof.
  unfold settle. destruct (Grid._pixel_dirty g); [| apply frame_refl].
  unfold frame, commit. destruct g; cbn. tauto.
Qed.

Lemma wf_with_grid (g : Grid.t) (rows : list (list rgbytes)) :
  wf g -> dims rows (Grid.height g) (Grid.width g) -> wf (Grid.with_grid g rows).
Proof.
  intros (Hd & Hyx & Hcurve & Hfol & Hc & Hm) Hrows.
  unfold wf. destruct g; cbn in *. wf_split; assumption.
Qed.

Lemma wf_add_to_pixel_mix (g : Grid.t) (c : color) (u p : Q) :
  wf g -> wf (Grid._add_to_pixel_mix g c u p).
Proof.
  intros (Hd & Hyx & Hcurve & Hfol & Hc & Hm).
  unfold wf, Grid._add_to_pixel_mix. destruct g; cbn in *.
  wf_split; try assumption. discriminate.
Qed.

Lemma cache_add_hit (d : color_cache) (k : rgb) (v v' : rgbytes) :
  cache_get d k = Some v -> cache_add d k v' = d.
Proof. intros H. unfold cache_add. rewrite H. reflexivity. Qed.

Lemma cached_packable (d : color_cache) (mb : Q) (mix : list Grid.mix_entry) (b : rgbytes) :
  cache_ok d -> cache_get d (Grid.mix_to_rgb mb mix) = Some b ->
  packable mb mix /\ packed mb mix = b.
Proof.
  intros Hok Hget. apply Hok in Hget. unfold packable, packed.
  rewrite Hget. split; reflexivity.
Qed.

(** Committing a pixel whose mix is the full-coverage entry, once its
    color is cached: the pixel gets the cached bytes, the cache stays. *)
Lemma settle_painting (g : Grid.t) (c : color) (u : Q) (B : rgbytes) :
  wf g ->
  cache_get (Grid._color_cache g)
    (Grid.mix_to_rgb (Grid._min_brightness g) [(c, u, 1%Q)]) = Some B ->
  (Grid._pixel_dirty g = true -> Grid._pixel_mix g = [(c, u, 1%Q)]) ->
  Grid._color_cache (settle g) = Grid._color_cache g /\
  Grid._grid (settle g) =
  apply_writes (Grid._grid g)
    (if Grid._pixel_dirty g then [((Grid.y g, Grid.x g), B)] else []) /\
  Grid.y (settle g) = Grid.y g /\ Grid.x (settle g) = Grid.x g /\
  Grid.linear (settle g) = Grid.linear g /\ Grid.curve (settle g) = Grid.curve g.
Proof.
  intros Hwf Hget Hmix. unfold settle.
  destruct (Grid._pixel_dirty g) eqn:E; [| repeat split; reflexivity].
  specialize (Hmix eq_refl).
  destruct Hwf as (_ & _ & _ & _ & Hc & _).
  unfold commit. rewrite Hmix.
  destruct (cached_packable _ _ _ _ Hc Hget) as [_ Hpk].
  rewrite Hpk, (cache_add_hit _ _ _ _ Hget).
  destruct g; cbn. repeat split; reflexivity.
Qed.

(** The second loop of [fill]: every step it passes gets the bytes [B]. *)
Lemma paint_loop_spec (c : color) (u : Q) (B : rgbytes) (mids : list CurveStep) :
  forall (fuel : nat) (g : Grid.t) (rest : list CurveStep),
    wf g ->
    cache_get (Grid._color_cache g)
      (Grid.mix_to_rgb (Grid._min_brightness g) [(c, u, 1%Q)]) = Some B ->
    (Grid._pixel_dirty g = true -> Grid._pixel_mix g = [(c, u, 1%Q)]) ->
    Grid.curve g = mids ++ rest ->
    (length mids < fuel)%nat ->
    exists (g' : Grid.t) (ws : list ((Z * Z) * rgbytes)),
      Grid.paint_loop fuel (Grid.linear g + Z.of_nat (length mids)) B g = Ok g' /\
      wf g' /\ frame g g' /\
      Grid.curve g' = rest /\
      Grid.linear g' = Grid.linear g + Z.of_nat (length mids) /\
      Grid._color_cache g' = Grid._color_cache g /\
      (Grid._pixel_dirty g' = true -> Grid._pixel_mix g' = [(c, u, 1%Q)]) /\
      ((Grid.y g', Grid.x g') = (Grid.y g, Grid.x g)
       \/ In (Grid.y g', Grid.x g') (map step_yx mids)) /\
      Grid._grid g' = apply_writes (Grid._grid g) ws /\
      Forall (fun w => snd w = B /\
                       (fst w = (Grid.y g, Grid.x g) \/ In (fst w) (map step_yx mids)))
             ws /\
      (forall t, In t mids -> In (step_yx t) (map fst ws)).
Proof.
  induction mids as [| m mids IH]; intros fuel g rest Hwf Hget Hmix Hcurve Hfuel.
  - exists g, []. cbn [length Z.of_nat]. rewrite Z.add_0_r.
    assert (Hrun : Grid.paint_loop fuel (Grid.linear g) B g = Ok g).
    { destruct fuel; cbn; rewrite Z.ltb_irrefl; reflexivity. }
    split; [exact Hrun |]. split; [exact Hwf |]. split; [apply frame_refl |].
    split; [rewrite Hcurve; reflexivity |].
    split; [reflexivity |]. split; [reflexivity |]. split; [exact Hmix |].
    split; [left; reflexivity |]. split; [reflexivity |].
    split; [constructor | intros t []].
  - destruct fuel as [| fuel]; [cbn in Hfuel; lia |].
    cbn [Grid.paint_loop].
    destruct (Z.ltb_spec (Grid.linear g) (Grid.linear g + Z.of_nat (length (m :: mids))))
      as [_ | Hbad]; [| cbn [length] in Hbad; lia].
    pose proof Hwf as (Hd & Hyx & Hin & Hfol & Hc & Hclean).
    assert (Hp : Grid._pixel_dirty g = true ->
                 packable (Grid._min_brightness g) (Grid._pixel_mix g)).
    { intros Hdirty. rewrite (Hmix Hdirty).
      apply (cached_packable _ _ _ _ Hc Hget). }
    rewrite (next_pixel_ok g m (mids ++ rest) Hwf Hp Hcurve). cbn [bind].
    pose proof (wf_settle g Hwf Hp) as Hwf1.
    destruct (settle_painting g c u B Hwf Hget Hmix)
      as (Scache & Sgrid & Sy & Sx & Slin & Scurve).
    destruct (settle_clean g Hclean) as [Sdirty Smix].
    pose proof (frame_settle g) as Sframe.
    set (g1 := Grid.with_cursor (settle g) m (mids ++ rest)).
    assert (Hwf2 : wf g1).
    { apply (wf_with_cursor _ []); [exact Hwf1 | rewrite Scurve; exact Hcurve]. }
    pose proof Hwf2 as (Hd1 & Hyx1 & _).
    rewrite (set_pixel_ok g1 B Hd1 Hyx1). cbn [bind].
    set (g2 := Grid.with_grid g1 (set_rows (Grid._grid g1) (Grid.y g1, Grid.x g1) B)).
    assert (Hwf3 : wf g2).
    { apply wf_with_grid; [exact Hwf2 |]. apply set_rows_dims; assumption. }
    assert (Hframe2 : frame g g2).
    { apply (frame_trans _ _ _ Sframe). unfold frame, g2, g1.
      destruct (settle g); cbn. tauto. }
    assert (Hmb2 : Grid._min_brightness g2 = Grid._min_brightness g)
      by (apply Hframe2).
    assert (Hcache2 : Grid._color_cache g2 = Grid._color_cache g).
    { rewrite <- Scache. reflexivity. }
    assert (Hlin2 : Grid.linear g2 = Grid.linear g + 1).
    { rewrite Hcurve in Hfol. destruct Hfol as [Hm _]. exact Hm. }
    destruct (IH fuel g2 rest Hwf3) as (g' & ws' & Hrun & Hwf' & Hfr' & Hc' & Hl' & Hca' & Hmx' & Hyx' & Hg' & Hws' & Hall').
    + rewrite Hcache2, Hmb2. exact Hget.
    + intros Hdirty. exfalso.
      change (Grid._pixel_dirty g2) with (Grid._pixel_dirty (settle g)) in Hdirty.
      congruence.
    + reflexivity.
    + cbn [length] in Hfuel. lia.
    + assert (Hyx2 : (Grid.y g2, Grid.x g2) = step_yx m) by (destruct m as [[? ?] ?]; reflexivity).
      exists g', ((if Grid._pixel_dirty g then [((Grid.y g, Grid.x g), B)] else [])
                  ++ (step_yx m, B) :: ws').
      replace (Grid.linear g + Z.of_nat (length (m :: mids)))
        with (Grid.linear g2 + Z.of_nat (length mids))
        by (rewrite Hlin2; cbn [length]; lia).
      split; [exact Hrun |]. split; [exact Hwf' |].
      split; [exact (frame_trans _ _ _ Hframe2 Hfr') |].
      split; [exact Hc' |].
      split; [rewrite Hl'; reflexivity |].
      split; [rewrite Hca'; exact Hcache2 |].
      split; [exact Hmx' |].
      split.
      { right. rewrite Hyx2 in Hyx'. cbn [map In].
        destruct Hyx' as [E | H]; [left; symmetry; exact E | right; exact H]. }
      split.
      { rewrite Hg', apply_writes_app, apply_writes_cons. cbn [fst snd].
        change (Grid._grid g2) with (set_rows (Grid._grid (settle g)) (step_yx m) B).
        rewrite Sgrid. reflexivity. }
      split.
      { apply Forall_app. split.
        - destruct (Grid._pixel_dirty g); constructor; [| constructor].
          cbn. auto.
        - constructor; [cbn; auto |].
          rewrite Forall_forall in Hws' |- *. intros w Hw.
          destruct (Hws' w Hw) as [Hv Hk]. split; [exact Hv |].
          right. rewrite Hyx2 in Hk. cbn [map In].
          destruct Hk as [E | Hk]; [left; symmetry; exact E | right; exact Hk]. }
      { intros t [-> | Ht]; rewrite map_app, in_app_iff; right; cbn [map fst].
        - left. reflexivity.
        - right. apply Hall'. exact Ht. }
Qed.

(** The first loop as [fill] runs it: [skipped] are the steps up to and
    including the first pixel of the fill.  When there are none the grid
    is left as it is; otherwise the pending pixel is committed and the
    cursor stands on the last of them with an empty mix. *)
Lemma advance_to_spec (g : Grid.t) (fp : Z) (skipped tail : list CurveStep) :
  wf g ->
  (skipped <> [] -> Grid._pixel_dirty g = true ->
   packable (Grid._min_brightness g) (Grid._pixel_mix g)) ->
  Grid.curve g = skipped ++ tail ->
  Grid.linear g + Z.of_nat (length skipped) = fp ->
  exists g1 : Grid.t,
    Grid.advance_to fp g = Ok g1 /\
    wf g1 /\ frame g g1 /\
    Grid.linear g1 = fp /\
    Grid.curve g1 = tail /\
    Grid._pixel_mix g1 = match skipped with [] => Grid._pixel_mix g | _ => [] end /\
    Grid._grid g1 =
      apply_writes (Grid._grid g)
        (match skipped with
         | [] => []
         | _ => if Grid._pixel_dirty g
                then [((Grid.y g, Grid.x g),
                       packed (Grid._min_brightness g) (Grid._pixel_mix g))]
                else []
         end) /\
    (Grid.y g1, Grid.x g1) = step_yx (last skipped (cursor g)).
Proof.
  intros Hwf Hp Hcurve Hlen. unfold Grid.advance_to.
  destruct skipped as [| s0 pre _] using rev_ind.
  - cbn [length Z.of_nat] in Hlen. rewrite Z.add_0_r in Hlen.
    exists g. rewrite advance_loop_done by lia.
    repeat split; auto using frame_refl; try apply Hwf.
  - assert (Hne : pre ++ [s0] <> []) by (destruct pre; discriminate).
    specialize (Hp Hne).
    rewrite <- app_assoc in Hcurve. cbn [app] in Hcurve.
    pose proof Hwf as (_ & _ & _ & Hfol & _ & Hclean).
    rewrite Hcurve in Hfol. apply follows_app in Hfol. destruct Hfol as [Hf1 Hf2].
    destruct Hf2 as [Hs0 _].
    rewrite length_app in Hlen. cbn [length] in Hlen.
    rewrite (advance_loop_skip pre _ g fp s0 tail Hwf Hp Hcurve).
    + exists (Grid.with_cursor (settle g) s0 tail).
      pose proof (wf_settle g Hwf Hp) as Hwf1.
      destruct (settle_clean g Hclean) as [Sdirty Smix].
      assert (Scurve : Grid.curve (settle g) = Grid.curve g).
      { unfold settle. destruct (Grid._pixel_dirty g); reflexivity. }
      split; [reflexivity |].
      split; [apply (wf_with_cursor _ pre); [exact Hwf1 | congruence] |].
      split.
      { apply (frame_trans _ _ _ (frame_settle g)).
        unfold frame. destruct (settle g); cbn. tauto. }
      split; [cbn; lia |].
      split; [reflexivity |].
      split.
      { destruct (pre ++ [s0]); [congruence | exact Smix]. }
      split.
      { destruct (pre ++ [s0]) eqn:E; [congruence |].
        unfold settle. destruct (Grid._pixel_dirty g); reflexivity. }
      rewrite last_last. destruct s0 as [[? ?] ?]. reflexivity.
    + rewrite Hcurve, length_app. cbn [length]. lia.
    + lia.
    + rewrite Forall_forall. intros t Ht.
      pose proof (follows_range _ _ _ Hf1 Ht). lia.
    + lia.
Qed.

(** ** [fill] over more than one pixel *)

Lemma cursor_eq (g : Grid.t) (s : CurveStep) :
  cursor g = s ->
  (Grid.y g, Grid.x g) = step_yx s /\ Grid.linear g = step_linear s.
Proof. intros <-. split; reflexivity. Qed.

Lemma fill_span (g : Grid.t) (first_byte length : Z) (used_pct : Q) (c : color)
    (skipped mids : list CurveStep) (s_last : CurveStep) (rest : list CurveStep) :
  let bpp := Grid.bytes_per_pixel g in
  let mb := Grid._min_brightness g in
  let first_pixel := Grid.first_pixel_of bpp first_byte in
  let last_pixel := Grid.last_pixel_of bpp first_byte length in
  let mix1 := match skipped with [] => Grid._pixel_mix g | _ => [] end
              ++ [(c, used_pct, Grid.pct_of_first_pixel bpp first_byte)] in
  let full := packed mb [(c, used_pct, 1%Q)] in
  wf g ->
  Grid._finished g = false ->
  Qeq_bool bpp 0 = false ->
  Grid.curve g = skipped ++ mids ++ s_last :: rest ->
  Grid.linear g + Z.of_nat (List.length skipped) = first_pixel ->
  first_pixel + Z.of_nat (List.length mids) + 1 = last_pixel ->
  (skipped <> [] -> Grid._pixel_dirty g = true -> packable mb (Grid._pixel_mix g)) ->
  packable mb mix1 ->
  (mids <> [] -> packable mb [(c, used_pct, 1%Q)]) ->
  exists (g' : Grid.t) (ws : list ((Z * Z) * rgbytes)),
    Grid.fill g first_byte length used_pct c = Ok g' /\
    wf g' /\ frame g g' /\
    cursor g' = s_last /\
    Grid.curve g' = rest /\
    Grid._pixel_mix g' =
      [(c, used_pct, Grid.pct_of_last_pixel bpp first_byte length)] /\
    Grid._pixel_dirty g' = true /\
    Grid._grid g' =
      apply_writes (Grid._grid g)
        ((match skipped with
          | [] => []
          | _ => if Grid._pixel_dirty g
                 then [((Grid.y g, Grid.x g), packed mb (Grid._pixel_mix g))]
                 else []
          end)
         ++ [(step_yx (last skipped (cursor g)), packed mb mix1)] ++ ws) /\
    Forall (fun w => snd w = full /\ In (fst w) (map step_yx mids)) ws /\
    (forall t, In t mids -> In (step_yx t) (map fst ws)).
Proof.
  intros bpp mb first_pixel last_pixel mix1 full
         Hwf Hfin Hbpp Hcurve Hlen1 Hlen2 Hp0 Hp1 HpB.
  unfold Grid.fill. rewrite Hfin. fold bpp. rewrite Hbpp.
  fold first_pixel. fold last_pixel.
  destruct (advance_to_spec g first_pixel skipped (mids ++ s_last :: rest)
              Hwf Hp0 Hcurve Hlen1)
    as (g1 & Hadv & Hwf1 & Hfr1 & Hl1 & Hc1 & Hm1 & Hg1 & Hyx1).
  rewrite Hadv. cbn [bind].
  destruct (Z.eqb_spec first_pixel last_pixel) as [E | _]; [lia |].
  assert (Hmb1 : Grid._min_brightness g1 = mb) by apply Hfr1.
  set (g1a := Grid._add_to_pixel_mix g1 c used_pct
                (Grid.pct_of_first_pixel bpp first_byte)).
  assert (Hwf1a : wf g1a) by (apply wf_add_to_pixel_mix; exact Hwf1).
  assert (Hmix1a : Grid._pixel_mix g1a = mix1).
  { unfold g1a, mix1. cbn [Grid._add_to_pixel_mix Grid.with_mix Grid._pixel_mix].
    rewrite Hm1. reflexivity. }
  assert (Hp1a : Grid._pixel_dirty g1a = true ->
                 packable (Grid._min_brightness g1a) (Grid._pixel_mix g1a)).
  { intros _. rewrite Hmix1a.
    change (Grid._min_brightness g1a) with (Grid._min_brightness g1).
    rewrite Hmb1. exact Hp1. }
  assert (Hset1a : settle g1a = commit g1a) by reflexivity.
  assert (Hgrid1a :
            Grid._grid (commit g1a) =
            apply_writes (Grid._grid g)
              ((match skipped with
                | [] => []
                | _ => if Grid._pixel_dirty g
                       then [((Grid.y g, Grid.x g), packed mb (Grid._pixel_mix g))]
                       else []
                end)
               ++ [(step_yx (last skipped (cursor g)), packed mb mix1)])).
  { rewrite apply_writes_app. unfold mb at 1. rewrite <- Hg1.
    change (Grid._grid (commit g1a)) with
      (set_rows (Grid._grid g1) (Grid.y g1, Grid.x g1)
         (packed (Grid._min_brightness g1) (Grid._pixel_mix g1a))).
    rewrite Hmix1a, Hmb1, Hyx1. reflexivity. }
  pose proof (wf_commit g1a Hwf1a (Hp1a eq_refl)) as Hwfc.
  assert (Hfrc : frame g (commit g1a)).
  { apply (frame_trans _ _ _ Hfr1). unfold frame. destruct g1; cbn. tauto. }
  destruct mids as [| m1 mids].
  - (* the last pixel comes right after the first *)
    cbn [List.length Z.of_nat app] in *.
    destruct (Z.ltb_spec (Grid.linear g1a) (last_pixel - 1)) as [Hbad | _].
    { change (Grid.linear g1a) with (Grid.linear g1) in Hbad. lia. }
    cbn [bind].
    rewrite (next_pixel_ok g1a s_last rest Hwf1a Hp1a Hc1). cbn [bind].
    rewrite Hset1a.
    eexists. exists []. split; [reflexivity |].
    split.
    { apply wf_add_to_pixel_mix. apply (wf_with_cursor _ []); [exact Hwfc |].
      exact Hc1. }
    split.
    { apply (frame_trans _ _ _ Hfrc). unfold frame.
      destruct (commit g1a); cbn. tauto. }
    split; [destruct s_last as [[? ?] ?]; reflexivity |].
    split; [reflexivity |].
    split; [reflexivity |].
    split; [reflexivity |].
    split.
    { exact Hgrid1a. }
    split; [constructor | intros t []].
  - (* at least one pixel in between *)
    specialize (HpB ltac:(discriminate)).
    cbn [List.length] in Hlen2.
    destruct (Z.ltb_spec (Grid.linear g1a) (last_pixel - 1)) as [_ | Hbad].
    2:{ change (Grid.linear g1a) with (Grid.linear g1) in Hbad. lia. }
    cbn [app] in Hc1.
    rewrite (next_pixel_ok g1a m1 (mids ++ s_last :: rest) Hwf1a Hp1a Hc1).
    cbn [bind]. rewrite Hset1a.
    set (ga := Grid.with_cursor (commit g1a) m1 (mids ++ s_last :: rest)).
    assert (Hwfa : wf ga) by (apply (wf_with_cursor _ []); [exact Hwfc | exact Hc1]).
    set (gb := Grid._add_to_pixel_mix ga c used_pct 1%Q).
    assert (Hwfb : wf gb) by (apply wf_add_to_pixel_mix; exact Hwfa).
    assert (Hmbb : Grid._min_brightness gb = mb) by exact Hmb1.
    assert (Hmixb : Grid._pixel_mix gb = [(c, used_pct, 1%Q)]) by reflexivity.
    pose proof Hwfb as (_ & _ & _ & _ & Hcb & _).
    rewrite (pixel_mix_to_rgbytes_ok gb Hcb) by (rewrite Hmbb, Hmixb; exact HpB).
    cbn [bind]. rewrite Hmbb, Hmixb. fold full.
    set (gc := Grid.with_cache gb
                 (cache_add (Grid._color_cache gb)
                    (Grid.mix_to_rgb mb [(c, used_pct, 1%Q)]) full)).
    assert (Hwfc' : wf gc).
    { destruct Hwfb as (Hd & Hyx & Hin & Hfol & Hc & Hm).
      unfold wf, gc. destruct gb; cbn in *. wf_split; try assumption.
      apply cache_add_ok; [exact Hc | apply packable_packed; exact HpB]. }
    pose proof Hwfc' as (Hdc & Hyxc & _).
    rewrite (set_pixel_ok gc full Hdc Hyxc). cbn [bind].
    set (gd := Grid.with_grid gc (set_rows (Grid._grid gc) (Grid.y gc, Grid.x gc) full)).
    assert (Hwfd : wf gd).
    { apply wf_with_grid; [exact Hwfc' |]. apply set_rows_dims; assumption. }
    assert (Hgetd : cache_get (Grid._color_cache gd)
                      (Grid.mix_to_rgb (Grid._min_brightness gd) [(c, used_pct, 1%Q)])
                    = Some full).
    { change (Grid._min_brightness gd) with (Grid._min_brightness gb).
      rewrite Hmbb.
      apply cache_get_add_same; [exact Hcb | apply packable_packed; exact HpB]. }
    assert (Hlind : Grid.linear gd = first_pixel + 1).
    { pose proof Hwf1 as (_ & _ & _ & Hfol & _). rewrite Hc1 in Hfol.
      destruct Hfol as [Hm _]. change (Grid.linear gd) with (step_linear m1). lia. }
    assert (Hyxd : (Grid.y gd, Grid.x gd) = step_yx m1)
      by (destruct m1 as [[? ?] ?]; reflexivity).
    unfold Grid.paint_to.
    destruct (paint_loop_spec c used_pct full mids
                (S (List.length (Grid.curve gd))) gd (s_last :: rest) Hwfd Hgetd)
      as (ge & ws & Hrun & Hwfe & Hfre & Hce & Hle & Hcae & Hmxe & Hyxe & Hge & Hws & Hall).
    { intros _. reflexivity. }
    { reflexivity. }
    { change (Grid.curve gd) with (mids ++ s_last :: rest).
      rewrite length_app. lia. }
    replace (last_pixel - 1) with (Grid.linear gd + Z.of_nat (List.length mids)) by lia.
    rewrite Hrun. cbn [bind].
    assert (Hfrd : frame g gd).
    { apply (frame_trans _ _ _ Hfrc). unfold frame, gd, gc, gb, ga.
      destruct (commit g1a); cbn. tauto. }
    assert (Hmbe : Grid._min_brightness ge = mb).
    { transitivity (Grid._min_brightness gd); [apply Hfre | apply Hfrd]. }
    assert (Hgete : cache_get (Grid._color_cache ge)
                      (Grid.mix_to_rgb (Grid._min_brightness ge) [(c, used_pct, 1%Q)])
                    = Some full).
    { rewrite Hcae, Hmbe. change (Grid._min_brightness gd) with (Grid._min_brightness gb) in Hgetd.
      rewrite Hmbb in Hgetd. exact Hgetd. }
    assert (Hpe : Grid._pixel_dirty ge = true ->
                  packable (Grid._min_brightness ge) (Grid._pixel_mix ge)).
    { intros Hd. rewrite (Hmxe Hd), Hmbe. exact HpB. }
    rewrite (next_pixel_ok ge s_last rest Hwfe Hpe Hce). cbn [bind].
    destruct (settle_painting ge c used_pct full Hwfe Hgete Hmxe)
      as (Scache & Sgrid & Sy & Sx & Slin & Scurve).
    pose proof Hwfe as (_ & _ & _ & _ & _ & Hcleane).
    destruct (settle_clean ge Hcleane) as [Sdirty Smix].
    eexists.
    exists ((step_yx m1, full) :: ws
            ++ (if Grid._pixel_dirty ge then [((Grid.y ge, Grid.x ge), full)] else [])).
    split; [reflexivity |].
    split.
    { apply wf_add_to_pixel_mix. apply (wf_with_cursor _ []).
      - apply wf_settle; assumption.
      - rewrite Scurve. exact Hce. }
    split.
    { apply (frame_trans _ _ _ Hfrd). apply (frame_trans _ _ _ Hfre).
      apply (frame_trans _ _ _ (frame_settle ge)).
      unfold frame. destruct (settle ge); cbn. tauto. }
    split; [destruct s_last as [[? ?] ?]; reflexivity |].
    split; [reflexivity |].
    split.
    { cbn [Grid._add_to_pixel_mix Grid.with_mix Grid.with_cursor Grid._pixel_mix].
      rewrite Smix. reflexivity. }
    split; [reflexivity |].
    split.
    { change (Grid._grid (Grid._add_to_pixel_mix
                            (Grid.with_cursor (settle ge) s_last rest) c used_pct
                            (Grid.pct_of_last_pixel bpp first_byte length)))
        with (Grid._grid (settle ge)).
      rewrite Sgrid, Hge.
      change (Grid._grid gd) with
        (set_rows (Grid._grid (commit g1a)) (Grid.y gd, Grid.x gd) full).
      rewrite Hyxd, Hgrid1a.
      match goal with
      | |- _ = apply_writes _ (?A ++ [?F] ++ ?M :: ws ++ ?T) =>
          replace (A ++ [F] ++ M :: ws ++ T) with ((A ++ [F]) ++ (M :: ws) ++ T)
            by (rewrite <- app_assoc; reflexivity)
      end.
      rewrite !apply_writes_app, apply_writes_cons. reflexivity. }
    split.
    { constructor; [cbn; auto |].
      apply Forall_app. split.
      - rewrite Forall_forall in Hws |- *. intros w Hw.
        destruct (Hws w Hw) as [Hv Hk]. split; [exact Hv |].
        rewrite Hyxd in Hk. cbn [map In].
        destruct Hk as [E | Hk]; [left; symmetry; exact E | right; exact Hk].
      - destruct (Grid._pixel_dirty ge); constructor; [| constructor].
        split; [reflexivity |]. cbn [fst map In].
        rewrite Hyxd in Hyxe.
        destruct Hyxe as [E | Hk]; [left; symmetry; exact E | right; exact Hk]. }
    intros t [<- | Ht]; cbn [map fst In].
    + left. reflexivity.
    + right. rewrite map_app, in_app_iff. left. apply Hall. exact Ht.
Qed.

Lemma curve_split (l : list CurveStep) (a b : nat) :
  (a + b < List.length l)%nat ->
  exists skipped mids s rest,
    l = skipped ++ mids ++ s :: rest /\
    List.length skipped = a /\ List.length mids = b.
Proof.
  intros H.
  destruct (skipn b (skipn a l)) as [| s rest] eqn:E.
  - apply (f_equal (@List.length _)) in E. rewrite !length_skipn in E.
    cbn in E. lia.
  - exists (firstn a l), (firstn b (skipn a l)), s, rest.
    rewrite <- E, !firstn_skipn, !length_firstn, length_skipn.
    repeat split; lia.
Qed.

Lemma follows_last (a : list CurveStep) :
  forall l d, follows l a -> a <> [] ->
              step_linear (last a d) = l + Z.of_nat (List.length a).
Proof.
  induction a as [| s a IH]; intros l d Hf Hne; [congruence |].
  destruct Hf as [Hs Hf]. destruct a as [| t a].
  - cbn. lia.
  - change (last (s :: t :: a) d) with (last (t :: a) d).
    rewrite (IH (l + 1) d Hf) by discriminate. cbn [List.length]. lia.
Qed.

Lemma NoDup_app_disjoint {A : Type} (a b : list A) (x : A) :
  NoDup (a ++ b) -> In x a -> ~ In x b.
Proof.
  induction a as [| h a IH]; intros Hnd Hin Hb; [contradiction |].
  inversion Hnd; subst. destruct Hin as [-> | Hin].
  - apply H1. apply in_or_app. right. exact Hb.
  - exact (IH H2 Hin Hb).
Qed.

Lemma last_in_cons {A : Type} (l : list A) (d : A) : In (last l d) (d :: l).
Proof.
  induction l as [| h l IH]; [left; reflexivity |].
  destruct l as [| t l]; [right; left; reflexivity |].
  change (last (h :: t :: l) d) with (last (t :: l) d).
  destruct IH as [E | IH]; [left; exact E | right; right; exact IH].
Qed.

(** How the steps ahead fall apart for a fill from pixel [fp] to pixel
    [lp]: those up to the first pixel, those strictly between, the last
    pixel, the rest. *)
Lemma fill_ready_split (g : Grid.t) (fp lp : Z) :
  wf g ->
  Grid.linear g <= fp -> fp < lp ->
  lp <= Grid.linear g + Z.of_nat (List.length (Grid.curve g)) ->
  exists skipped mids s_last rest,
    Grid.curve g = skipped ++ mids ++ s_last :: rest /\
    Grid.linear g + Z.of_nat (List.length skipped) = fp /\
    fp + Z.of_nat (List.length mids) + 1 = lp /\
    step_linear s_last = lp /\
    step_linear (last skipped (cursor g)) = fp /\
    (forall t, In t (Grid.curve g) -> strictly_between fp lp t -> In t mids).
Proof.
  intros Hwf Hle Hlt Hend.
  destruct (curve_split (Grid.curve g) (Z.to_nat (fp - Grid.linear g))
              (Z.to_nat (lp - fp - 1)) ltac:(lia))
    as (skipped & mids & s_last & rest & Hc & Hl1 & Hl2).
  exists skipped, mids, s_last, rest.
  pose proof Hwf as (_ & _ & _ & Hfol & _).
  rewrite Hc in Hfol.
  apply follows_app in Hfol. destruct Hfol as [Hf1 Hf2].
  apply follows_app in Hf2. destruct Hf2 as [Hf2 [Hs Hf3]].
  split; [exact Hc |]. split; [lia |]. split; [lia |]. split; [lia |].
  split.
  - destruct skipped as [| s0 sk].
    + cbn in *. lia.
    + rewrite (follows_last _ _ _ Hf1) by discriminate. lia.
  - intros t Ht [Hlo Hhi]. rewrite Hc in Ht.
    apply in_app_or in Ht. destruct Ht as [Ht | Ht].
    { pose proof (follows_range _ _ _ Hf1 Ht). lia. }
    apply in_app_or in Ht. destruct Ht as [Ht | Ht]; [exact Ht |].
    destruct Ht as [<- | Ht]; [lia |].
    pose proof (follows_range _ _ _ Hf3 Ht). lia.
Qed.

Lemma first_mix_skipped (g : Grid.t) (fp : Z) (skipped : list CurveStep) :
  Grid.linear g + Z.of_nat (List.length skipped) = fp ->
  first_mix g fp = match skipped with [] => Grid._pixel_mix g | _ => [] end.
Proof.
  intros H. unfold first_mix. destruct skipped; cbn [List.length] in H.
  - destruct (Z.ltb_spec (Grid.linear g) fp); [lia | reflexivity].
  - destruct (Z.ltb_spec (Grid.linear g) fp); [reflexivity | lia].
Qed.

(** [fill_span] for a grid that is ready, with the steps told apart by
    their linear index. *)
Lemma fill_ready_span (g : Grid.t) (first_byte length : Z) (used_pct : Q) (c : color) :
  let bpp := Grid.bytes_per_pixel g in
  let mb := Grid._min_brightness g in
  let fp := Grid.first_pixel_of bpp first_byte in
  let lp := Grid.last_pixel_of bpp first_byte length in
  let mix1 := first_mix g fp ++ [(c, used_pct, Grid.pct_of_first_pixel bpp first_byte)] in
  let full := packed mb [(c, used_pct, 1%Q)] in
  fill_ready g first_byte length used_pct c ->
  fp < lp ->
  exists (g' : Grid.t) (skipped mids : list CurveStep) (s_last : CurveStep)
         (rest : list CurveStep) (ws0 ws : list ((Z * Z) * rgbytes)),
    Grid.fill g first_byte length used_pct c = Ok g' /\
    wf g' /\ frame g g' /\
    Grid.curve g = skipped ++ mids ++ s_last :: rest /\
    step_linear s_last = lp /\
    step_linear (last skipped (cursor g)) = fp /\
    (forall t, In t (Grid.curve g) -> strictly_between fp lp t -> In t mids) /\
    cursor g' = s_last /\
    Grid._pixel_mix g' =
      [(c, used_pct, Grid.pct_of_last_pixel bpp first_byte length)] /\
    Grid._pixel_dirty g' = true /\
    Forall (fun w => fst w = (Grid.y g, Grid.x g)) ws0 /\
    Grid._grid g' =
      apply_writes (Grid._grid g)
        (ws0 ++ [(step_yx (last skipped (cursor g)), packed mb mix1)] ++ ws) /\
    Forall (fun w => snd w = full /\ In (fst w) (map step_yx mids)) ws /\
    (forall t, In t mids -> In (step_yx t) (map fst ws)).
Proof.
  intros bpp mb fp lp mix1 full
         (Hwf & Hfin & Hbpp & Hle & Hend & Hp0 & Hp1 & HpB) Hlt.
  fold bpp in Hbpp. fold mb fp lp in Hle, Hend, Hp0, Hp1, HpB.
  destruct (fill_ready_split g fp lp Hwf Hle Hlt Hend)
    as (skipped & mids & s_last & rest & Hc & Hl1 & Hl2 & Hs & Hfirst & Hmid).
  assert (Hbpp' : Qeq_bool bpp 0 = false).
  { destruct (Qeq_bool bpp 0) eqn:E; [| reflexivity].
    apply Qeq_bool_iff in E. contradiction. }
  destruct (fill_span g first_byte length used_pct c skipped mids s_last rest
              Hwf Hfin Hbpp' Hc Hl1 Hl2)
    as (g' & ws & Hrun & Hwf' & Hfr & Hcur & Hcv & Hmx & Hd & Hg & Hws & Hall).
  - intros Hne. apply Hp0.
    destruct skipped; [congruence |].
    cbn [List.length] in Hl1. unfold fp, bpp in *. lia.
  - fold bpp. rewrite <- (first_mix_skipped g _ skipped Hl1). exact Hp1.
  - intros Hne. apply HpB.
    destruct mids; [congruence |].
    cbn [List.length] in Hl2. unfold fp, lp, bpp in *. lia.
  - exists g', skipped, mids, s_last, rest.
    eexists. exists ws.
    split; [exact Hrun |]. split; [exact Hwf' |]. split; [exact Hfr |].
    split; [exact Hc |]. split; [exact Hs |]. split; [exact Hfirst |].
    split; [exact Hmid |]. split; [exact Hcur |]. split; [exact Hmx |].
    split; [exact Hd |].
    split; [| split; [| split; [exact Hws | exact Hall]]].
    2:{ rewrite Hg. unfold mix1. fold bpp.
        rewrite (first_mix_skipped g _ skipped Hl1). reflexivity. }
    destruct skipped; [constructor |].
    destruct (Grid._pixel_dirty g); constructor; [reflexivity | constructor].
Qed.

(** A fill that spans more than one pixel, with the coverages as the
    code computes them: the first pixel is committed with the fill's entry
    of coverage [pct_of_first_pixel] added to what it held; every pixel
    strictly between the first and the last is set to the color of the
    single entry [(color, used_pct, 1)]; the last pixel is left pending,
    its buffer cell untouched, with exactly the entry of coverage
    [pct_of_last_pixel], so that a following fill can add to it. *)
Theorem fill_spans_pixels
    (g : Grid.t) (first_byte length : Z) (used_pct : Q) (c : color) :
  let bpp := Grid.bytes_per_pixel g in
  let mb := Grid._min_brightness g in
  let first_pixel := Grid.first_pixel_of bpp first_byte in
  let last_pixel := Grid.last_pixel_of bpp first_byte length in
  fill_ready g first_byte length used_pct c ->
  NoDup (map step_yx (cursor g :: Grid.curve g)) ->
  first_pixel < last_pixel ->
  exists g' : Grid.t,
    Grid.fill g first_byte length used_pct c = Ok g' /\
    wf g' /\
    (exists s1 : CurveStep,
       In s1 (cursor g :: Grid.curve g) /\
       step_linear s1 = first_pixel /\
       pixel_at (Grid._grid g') (step_yx s1) =
       Some (packed mb (first_mix g first_pixel
                        ++ [(c, used_pct, Grid.pct_of_first_pixel bpp first_byte)]))) /\
    (forall s : CurveStep,
       In s (Grid.curve g) -> strictly_between first_pixel last_pixel s ->
       pixel_at (Grid._grid g') (step_yx s) = Some (packed mb [(c, used_pct, 1%Q)])) /\
    Grid.linear g' = last_pixel /\
    In (cursor g') (Grid.curve g) /\
    Grid._finished g' = false /\
    Grid._pixel_dirty g' = true /\
    Grid._pixel_mix g' =
      [(c, used_pct, Grid.pct_of_last_pixel bpp first_byte length)] /\
    pixel_at (Grid._grid g') (Grid.y g', Grid.x g') =
    pixel_at (Grid._grid g) (Grid.y g', Grid.x g').
Proof.
  intros bpp mb fp lp Hready Hnd Hlt.
  destruct (fill_ready_span g first_byte length used_pct c Hready Hlt)
    as (g' & skipped & mids & s_last & rest & ws0 & ws & Hrun & Hwf' & Hfr & Hc
        & Hs & Hfirst & Hmid & Hcur & Hmx & Hdirty & Hws0 & Hg & Hws & Hall).
  fold bpp mb fp lp in Hs, Hfirst, Hmid, Hmx, Hg, Hws.
  destruct Hready as (Hwf & Hfin & _).
  pose proof Hwf as (Hd & Hyx & Hin & _).
  set (h := Grid.height g) in *. set (w := Grid.width g) in *.
  set (s1 := last skipped (cursor g)) in *.
  set (P1 := packed mb (first_mix g fp
                        ++ [(c, used_pct, Grid.pct_of_first_pixel bpp first_byte)])) in *.
  rewrite Hc in Hin, Hnd.
  (* every step named below is on the grid *)
  assert (Hin_all : forall t, In t (cursor g :: skipped ++ mids ++ s_last :: rest) ->
                              in_grid h w (step_yx t)).
  { intros t [<- | Ht]; [exact Hyx |]. rewrite Forall_forall in Hin. auto. }
  assert (Hs1 : In s1 (cursor g :: skipped)) by apply last_in_cons.
  assert (Hs1_all : In s1 (cursor g :: skipped ++ mids ++ s_last :: rest)).
  { destruct Hs1 as [E | Hs1]; [left; exact E | right].
    apply in_or_app. left. exact Hs1. }
  assert (Hmids_all : forall t, In t mids ->
                                In t (cursor g :: skipped ++ mids ++ s_last :: rest)).
  { intros t Ht. right. apply in_or_app. right. apply in_or_app. left. exact Ht. }
  assert (Hws0_grid : Forall (fun wr => in_grid h w (fst wr)) ws0).
  { rewrite Forall_forall in Hws0 |- *. intros wr Hwr.
    rewrite (Hws0 wr Hwr). exact Hyx. }
  assert (Hws_grid : Forall (fun wr => in_grid h w (fst wr)) ws).
  { rewrite Forall_forall in Hws |- *. intros wr Hwr.
    destruct (Hws wr Hwr) as [_ Hk]. apply in_map_iff in Hk.
    destruct Hk as (t & <- & Ht). apply Hin_all. apply Hmids_all. exact Ht. }
  assert (Hd0 : dims (apply_writes (Grid._grid g) ws0) h w)
    by (apply apply_writes_dims; assumption).
  assert (Hd1 : dims (apply_writes (Grid._grid g) (ws0 ++ [(step_yx s1, P1)])) h w).
  { apply apply_writes_dims; [exact Hd |].
    apply Forall_app. split; [exact Hws0_grid |].
    constructor; [apply Hin_all; exact Hs1_all | constructor]. }
  assert (Hg' : Grid._grid g' =
                apply_writes (apply_writes (Grid._grid g) (ws0 ++ [(step_yx s1, P1)])) ws).
  { rewrite Hg, app_assoc, apply_writes_app. reflexivity. }
  (* the coordinates before the last pixel, and those from it on *)
  assert (Hnd' : NoDup (map step_yx (cursor g :: skipped ++ mids)
                        ++ map step_yx (s_last :: rest))).
  { rewrite <- map_app. cbn [app]. rewrite <- app_assoc. exact Hnd. }
  assert (Hnd1 : NoDup (map step_yx (cursor g :: skipped)
                        ++ map step_yx (mids ++ s_last :: rest))).
  { rewrite <- map_app. exact Hnd. }
  exists g'.
  split; [exact Hrun |]. split; [exact Hwf' |].
  split.
  { exists s1. split; [rewrite Hc; exact Hs1_all |]. split; [exact Hfirst |].
    rewrite Hg'.
    rewrite (pixel_at_apply_writes_untouched ws _ h w); auto.
    - rewrite apply_writes_app.
      apply (pixel_at_set_rows_same _ h w); auto.
    - intros Hbad. apply in_map_iff in Hbad. destruct Hbad as (wr & Ewr & Hwr).
      rewrite Forall_forall in Hws. destruct (Hws wr Hwr) as [_ Hk].
      rewrite Ewr in Hk.
      apply (NoDup_app_disjoint _ _ (step_yx s1) Hnd1).
      + apply in_map. exact Hs1.
      + rewrite map_app. apply in_or_app. left. exact Hk. }
  split.
  { intros t Ht Hbetween.
    specialize (Hmid t Ht Hbetween).
    rewrite Hg'.
    apply (pixel_at_apply_writes_value ws _ h w); auto.
    - rewrite Forall_forall in Hws. intros wr Hwr _. apply (Hws wr Hwr). }
  destruct (cursor_eq g' s_last Hcur) as [Hyx' Hl'].
  split; [rewrite Hl'; exact Hs |].
  split.
  { rewrite Hcur, Hc. apply in_or_app. right. apply in_or_app. right.
    left. reflexivity. }
  split.
  { destruct Hfr as (_ & _ & _ & _ & _ & _ & _ & Hf & _). rewrite Hf. exact Hfin. }
  split; [exact Hdirty |].
  split; [exact Hmx |].
  rewrite Hyx', Hg.
  apply (pixel_at_apply_writes_untouched _ _ h w); auto.
  - apply Hin_all. right. apply in_or_app. right. apply in_or_app. right.
    left. reflexivity.
  - apply Forall_app. split; [exact Hws0_grid |].
    apply Forall_app. split; [| exact Hws_grid].
    constructor; [apply Hin_all; exact Hs1_all | constructor].
  - intros Hbad.
    apply (NoDup_app_disjoint _ _ (step_yx s_last) Hnd');
      [| left; reflexivity].
    rewrite !map_app in Hbad. cbn [map fst] in Hbad.
    apply in_app_or in Hbad. destruct Hbad as [Hbad | Hbad].
    + apply in_map_iff in Hbad. destruct Hbad as (wr & Ewr & Hwr).
      rewrite Forall_forall in Hws0. rewrite (Hws0 wr Hwr) in Ewr.
      rewrite <- Ewr. left. reflexivity.
    + apply in_app_or in Hbad. destruct Hbad as [[E | []] | Hbad].
      * rewrite <- E. change (cursor g :: skipped ++ mids)
          with ((cursor g :: skipped) ++ mids).
        rewrite map_app. apply in_or_app. left. apply in_map. exact Hs1.
      * apply in_map_iff in Hbad. destruct Hbad as (wr & Ewr & Hwr).
        rewrite Forall_forall in Hws. destruct (Hws wr Hwr) as [_ Hk].
        rewrite Ewr in Hk.
        change (cursor g :: skipped ++ mids) with ((cursor g :: skipped) ++ mids).
        rewrite map_app. apply in_or_app. right. exact Hk.
Qed.

Lemma wf_small_grid : wf small_grid.
Proof.
  unfold wf, small_grid. cbn. wf_split.
  - split; [reflexivity |]. repeat constructor.
  - split; cbn; lia.
  - repeat constructor; cbn; lia.
  - cbn. auto.
  - intros k v H. cbn in H. destruct (rgb_eqb k black_rgb) eqn:E; [| discriminate].
    apply rgb_eqb_eq in E. subst k. inversion H. reflexivity.
  - reflexivity.
Qed.

Lemma small_grid_injective : NoDup (map step_yx (cursor small_grid :: Grid.curve small_grid)).
Proof.
  cbn. repeat constructor; cbn; intuition congruence.
Qed.

Lemma fill_ready_small_grid (length : Z) :
  6 <= length <= 15 -> fill_ready small_grid 0 length 1 white.
Proof.
  intros H. unfold fill_ready.
  assert (Hfp : Grid.first_pixel_of (Grid.bytes_per_pixel small_grid) 0 = 0)
    by reflexivity.
  assert (Hlp : 1 <= Grid.last_pixel_of (Grid.bytes_per_pixel small_grid) 0 length <= 2).
  { unfold Grid.last_pixel_of, py_int. cbn [small_grid Grid.bytes_per_pixel].
    assert (E : (inject_Z (0 + length - 1) / (20 # 4) == (length - 1) # 5)%Q).
    { unfold Qeq, Qdiv, Qmult, Qinv, inject_Z. cbn. lia. }
    rewrite (Qfloor_comp _ _ E), (Qceiling_comp _ _ E).
    replace (Qle_bool 0 (inject_Z (0 + length - 1) / (20 # 4))) with true.
    - unfold Qfloor. cbn [Qnum Qden]. split.
      + apply Z.div_le_lower_bound; lia.
      + apply Z.lt_succ_r. apply Z.div_lt_upper_bound; lia.
    - symmetry. apply Qle_bool_iff. rewrite E. unfold Qle. cbn. lia. }
  rewrite Hfp. cbv zeta.
  split; [exact wf_small_grid |]. split; [reflexivity |].
  split; [intros E; discriminate E |].
  split; [cbn; lia |]. split; [cbn [small_grid Grid.linear Grid.curve List.length]; lia |].
  split; [intros Hbad; cbn in Hbad; lia |].
  split; [reflexivity |]. intros _. reflexivity.
Qed.

Lemma fill_spans_pixels_witness :
  exists g' : Grid.t,
    Grid.fill small_grid 0 15 1 white = Ok g' /\
    Grid.linear g' = 2 /\
    pixel_at (Grid._grid g') (0, 0) = Some white_bytes /\
    Grid._pixel_mix g' = [(white, 1%Q, 1%Q)].
Proof.
  destruct (fill_spans_pixels small_grid 0 15 1 white)
    as (g' & Hrun & _ & _ & Hmid & Hl & _ & _ & _ & Hmx & _).
  - apply fill_ready_small_grid. lia.
  - exact small_grid_injective.
  - reflexivity.
  - exists g'. split; [exact Hrun |]. split; [exact Hl |].
    split; [| exact Hmx].
    apply (Hmid (0, 0, 1)).
    + left. reflexivity.
    + split; reflexivity.
Defined.

(** ** A fill that ends on a pixel boundary *)

Lemma pct_of_last_pixel_boundary (bpp : Q) (first_byte length : Z) :
  (py_mod (inject_Z (first_byte + length)) bpp == 0)%Q ->
  Grid.pct_of_last_pixel bpp first_byte length = 1%Q.
Proof.
  intros H. unfold Grid.pct_of_last_pixel.
  destruct (Qeq_bool _ 0) eqn:E; [reflexivity |].
  exfalso. apply Qeq_bool_neq in E. apply E.
  rewrite H. unfold Qdiv. apply Qmult_0_l.
Qed.

(** C10. When a fill over more than one pixel ends exactly on a pixel
    boundary, the entry left pending on its last pixel has coverage 1, not
    the 0 that the remainder of the division gives. *)
Theorem fill_last_pixel_full
    (g : Grid.t) (first_byte length : Z) (used_pct : Q) (c : color) :
  let bpp := Grid.bytes_per_pixel g in
  let first_pixel := Grid.first_pixel_of bpp first_byte in
  let last_pixel := Grid.last_pixel_of bpp first_byte length in
  fill_ready g first_byte length used_pct c ->
  first_pixel < last_pixel ->
  (py_mod (inject_Z (first_byte + length)) bpp == 0)%Q ->
  exists g' : Grid.t,
    Grid.fill g first_byte length used_pct c = Ok g' /\
    Grid.linear g' = last_pixel /\
    Grid._pixel_dirty g' = true /\
    Grid._pixel_mix g' = [(c, used_pct, 1%Q)].
Proof.
  intros bpp fp lp Hready Hlt Hmod.
  destruct (fill_ready_span g first_byte length used_pct c Hready Hlt)
    as (g' & skipped & mids & s_last & rest & ws0 & ws & Hrun & _ & _ & _
        & Hs & _ & _ & Hcur & Hmx & Hdirty & _).
  exists g'. split; [exact Hrun |].
  destruct (cursor_eq g' s_last Hcur) as [_ Hl].
  split; [rewrite Hl; exact Hs |]. split; [exact Hdirty |].
  rewrite Hmx. fold bpp.
  rewrite (pct_of_last_pixel_boundary bpp first_byte length Hmod). reflexivity.
Qed.

Lemma fill_last_pixel_full_witness :
  exists g' : Grid.t,
    Grid.fill small_grid 0 10 1 white = Ok g' /\
    Grid.linear g' = 1 /\
    Grid._pixel_mix g' = [(white, 1%Q, 1%Q)].
Proof.
  destruct (fill_last_pixel_full small_grid 0 10 1 white)
    as (g' & Hrun & Hl & _ & Hmx).
  - apply fill_ready_small_grid. lia.
  - reflexivity.
  - reflexivity.
  - exists g'. split; [exact Hrun |]. split; [exact Hl | exact Hmx].
Defined.

(** ** The hilbert curve at every order from 1 on *)

Lemma path_app (a b : list (Z * Z)) (d : Z * Z) :
  path a -> path b ->
  (a <> [] -> b <> [] -> adjacent (last a d) (hd d b)) ->
  path (a ++ b).
Proof.
  induction a as [| q a IH]; intros Ha Hb Hadj; [exact Hb |].
  destruct a as [| q' a].
  - destruct b as [| r b]; [exact I |].
    cbn. split; [| exact Hb]. apply Hadj; discriminate.
  - destruct Ha as [Hq Ha]. cbn [app path]. split; [exact Hq |].
    apply IH; [exact Ha | exact Hb |].
    intros _ Hne. apply Hadj; [discriminate | exact Hne].
Qed.

Lemma last_app_nonempty {A : Type} (a b : list A) (d : A) :
  b <> [] -> last (a ++ b) d = last b d.
Proof.
  intros Hb. destruct b as [| x b _] using rev_ind; [congruence |].
  rewrite app_assoc, !last_last. reflexivity.
Qed.

Lemma last_default {A : Type} (l : list A) (d d' : A) :
  l <> [] -> last l d = last l d'.
Proof.
  intros Hl. destruct l as [| x l _] using rev_ind; [congruence |].
  rewrite !last_last. reflexivity.
Qed.

Lemma last_map {A B : Type} (f : A -> B) (l : list A) (d : A) :
  last (map f l) (f d) = f (last l d).
Proof.
  induction l as [| x l IH]; [reflexivity |].
  destruct l as [| y l]; [reflexivity |].
  change (last (map f (x :: y :: l)) (f d)) with (last (map f (y :: l)) (f d)).
  exact IH.
Qed.

Ltac pair_lia :=
  repeat match goal with
         | H : (_, _) = (_, _) |- _ => injection H as ? ?
         end;
  lia.

(** One level: the four moves of a tuple trace a block of side 2. *)
Lemma walk_level_1 (s : Hilbert.steps) (p : Hilbert.pos) :
  block_ok 2 s p (fst (Hilbert.walk 1 s p)) (snd (Hilbert.walk 1 s p)).
Proof.
  destruct p as [[py px] pl]. unfold block_ok.
  destruct s;
    cbn [Hilbert.walk Hilbert.walk_moves Hilbert.moves Hilbert.advance
         Hilbert.U Hilbert.R Hilbert.D Hilbert.L
         fst snd step_y step_x step_linear step_yx map last length];
    (split; [eexists; reflexivity |]);
    (split; [cbn; repeat split; lia |]);
    (split; [cbn; lia |]);
    (split; [repeat constructor; unfold in_block; cbn; lia |]);
    (split; [unfold far_corner; cbn; f_equal; lia |]);
    (split; [unfold exit_point; cbn; f_equal; lia |]);
    (split; [cbn [path]; unfold adjacent; cbn [fst snd]; repeat split; lia |]);
    repeat constructor; cbn [In]; intuition pair_lia.
Qed.

Ltac open_block :=
  unfold in_block, far_corner, exit_point, move_a, move_b, move_d, adjacent;
  cbn [Hilbert.moves nth fst snd Hilbert.U Hilbert.R Hilbert.D Hilbert.L].

Lemma exit_adjacent (p : Z * Z) (s : Hilbert.steps) (m : Z) :
  adjacent (far_corner p s m) (exit_point p s m).
Proof. destruct p as [py px]. destruct s; open_block; lia. Qed.

(** The four blocks [walk] recurses into are the four quarters of its
    own block, each begun where the one before was left, and the last one
    ends where the whole block is to end. *)
Lemma quadrants (s s1 s2 s3 s4 : Hilbert.steps) (K : Z) (p : Z * Z) :
  1 <= K ->
  Hilbert.inception s = [s1; s2; s3; s4] ->
  let p1 := exit_point p s1 (K - 1) in
  let p2 := exit_point p1 s2 (K - 1) in
  let p3 := exit_point p2 s3 (K - 1) in
  ((forall q, in_block p s1 (K - 1) q -> in_block p s (2 * K - 1) q) /\
   (forall q, in_block p1 s2 (K - 1) q -> in_block p s (2 * K - 1) q) /\
   (forall q, in_block p2 s3 (K - 1) q -> in_block p s (2 * K - 1) q) /\
   (forall q, in_block p3 s4 (K - 1) q -> in_block p s (2 * K - 1) q)) /\
  ((forall q, in_block p s1 (K - 1) q -> in_block p1 s2 (K - 1) q -> False) /\
   (forall q, in_block p s1 (K - 1) q -> in_block p2 s3 (K - 1) q -> False) /\
   (forall q, in_block p s1 (K - 1) q -> in_block p3 s4 (K - 1) q -> False) /\
   (forall q, in_block p1 s2 (K - 1) q -> in_block p2 s3 (K - 1) q -> False) /\
   (forall q, in_block p1 s2 (K - 1) q -> in_block p3 s4 (K - 1) q -> False) /\
   (forall q, in_block p2 s3 (K - 1) q -> in_block p3 s4 (K - 1) q -> False)) /\
  far_corner p3 s4 (K - 1) = far_corner p s (2 * K - 1) /\
  exit_point p3 s4 (K - 1) = exit_point p s (2 * K - 1).
Proof.
  intros HK Hinc. destruct p as [py px].
  destruct s; cbn in Hinc; inversion Hinc; subst; clear Hinc; cbv zeta;
    (split; [| split; [| split]]);
    first [ solve [repeat (match goal with |- _ /\ _ => split end);
                   intros [qy qx]; open_block; lia]
          | solve [open_block; f_equal; lia] ].
Qed.

Lemma block_cells (K : Z) (s : Hilbert.steps) (p : Hilbert.pos)
    (out : list CurveStep) (p' : Hilbert.pos) :
  block_ok K s p out p' ->
  forall q, In q (map step_yx out) -> in_block (step_yx p) s (K - 1) q.
Proof.
  intros (_ & _ & _ & Hin & _) q Hq. apply in_map_iff in Hq.
  destruct Hq as (t & <- & Ht). rewrite Forall_forall in Hin. auto.
Qed.

Lemma block_nonempty (K : Z) (s : Hilbert.steps) (p : Hilbert.pos)
    (out : list CurveStep) (p' : Hilbert.pos) :
  block_ok K s p out p' -> out <> [].
Proof. intros ([t ->] & _). discriminate. Qed.

(** The adjacency that joins the walk of one block to the next. *)
Lemma block_joint (K : Z) (s s' : Hilbert.steps) (p p' p'' : Hilbert.pos)
    (out out' : list CurveStep) (d : Z * Z) :
  block_ok K s p out p' -> block_ok K s' p' out' p'' ->
  adjacent (last (map step_yx out) d) (hd d (map step_yx out')).
Proof.
  intros H1 H2. pose proof (block_nonempty _ _ _ _ _ H1) as Hne.
  destruct H1 as (_ & _ & _ & _ & Hlast & Hexit & _).
  destruct H2 as ([t ->] & _). cbn [map hd].
  rewrite (last_default _ d (step_yx p)) by (destruct out; [congruence | discriminate]).
  rewrite last_map, Hlast, Hexit. apply exit_adjacent.
Qed.

Lemma block_ok_four (K : Z) (s s1 s2 s3 s4 : Hilbert.steps)
    (p p1 p2 p3 p4 : Hilbert.pos) (o1 o2 o3 o4 : list CurveStep) :
  1 <= K ->
  Hilbert.inception s = [s1; s2; s3; s4] ->
  block_ok K s1 p o1 p1 -> block_ok K s2 p1 o2 p2 ->
  block_ok K s3 p2 o3 p3 -> block_ok K s4 p3 o4 p4 ->
  block_ok (2 * K) s p (o1 ++ o2 ++ o3 ++ o4) p4.
Proof.
  intros HK Hinc B1 B2 B3 B4.
  pose proof (block_cells _ _ _ _ _ B1) as C1.
  pose proof (block_cells _ _ _ _ _ B2) as C2.
  pose proof (block_cells _ _ _ _ _ B3) as C3.
  pose proof (block_cells _ _ _ _ _ B4) as C4.
  pose proof (block_nonempty _ _ _ _ _ B1) as N1.
  pose proof (block_nonempty _ _ _ _ _ B2) as N2.
  pose proof (block_nonempty _ _ _ _ _ B3) as N3.
  pose proof (block_nonempty _ _ _ _ _ B4) as N4.
  pose proof (block_joint _ _ _ _ _ _ _ _ (0, 0) B1 B2) as J12.
  pose proof (block_joint _ _ _ _ _ _ _ _ (0, 0) B2 B3) as J23.
  pose proof (block_joint _ _ _ _ _ _ _ _ (0, 0) B3 B4) as J34.
  destruct B1 as ([t1 E1] & F1 & L1 & I1 & A1 & X1 & P1 & D1).
  destruct B2 as (_ & F2 & L2 & I2 & A2 & X2 & P2 & D2).
  destruct B3 as (_ & F3 & L3 & I3 & A3 & X3 & P3 & D3).
  destruct B4 as (_ & F4 & L4 & I4 & A4 & X4 & P4 & D4).
  rewrite X1 in C2. rewrite X2, X1 in C3. rewrite X3, X2, X1 in C4.
  destruct (quadrants s s1 s2 s3 s4 K (step_yx p) HK Hinc)
    as ((Q1 & Q2 & Q3 & Q4) & (X12 & X13 & X14 & X23 & X24 & X34) & Qfar & Qexit).
  unfold block_ok.
  split; [exists (t1 ++ o2 ++ o3 ++ o4); rewrite E1; reflexivity |].
  split.
  { rewrite !follows_app. repeat split.
    - exact F1.
    - replace (step_linear p - 1 + Z.of_nat (length o1)) with (step_linear p1 - 1) by lia.
      exact F2.
    - replace (step_linear p - 1 + Z.of_nat (length o1) + Z.of_nat (length o2))
        with (step_linear p2 - 1) by lia.
      exact F3.
    - replace (step_linear p - 1 + Z.of_nat (length o1) + Z.of_nat (length o2)
               + Z.of_nat (length o3))
        with (step_linear p3 - 1) by lia.
      exact F4. }
  split; [rewrite !length_app; lia |].
  split.
  { rewrite !Forall_app. rewrite Forall_forall in I1, I2, I3, I4.
    rewrite X1 in I2. rewrite X2, X1 in I3. rewrite X3, X2, X1 in I4.
    repeat split; apply Forall_forall; intros q Hq; auto. }
  split.
  { rewrite !last_app_nonempty; try assumption.
    - rewrite (last_default o4 p p3 N4), A4, X3, X2, X1. exact Qfar.
    - destruct o3; [congruence | discriminate].
    - destruct o2; [congruence | discriminate]. }
  split; [rewrite X4, X3, X2, X1; exact Qexit |].
  split.
  { rewrite !map_app.
    apply (path_app _ _ (0, 0)); [exact P1 | | ].
    - apply (path_app _ _ (0, 0)); [exact P2 | | ].
      + apply (path_app _ _ (0, 0)); [exact P3 | exact P4 |].
        intros _ _. exact J34.
      + intros _ _. destruct (map step_yx o3) eqn:E3.
        * destruct o3; [congruence | discriminate].
        * exact J23.
    - intros _ _. destruct (map step_yx o2) eqn:E2.
      + destruct o2; [congruence | discriminate].
      + exact J12. }
  rewrite !map_app.
  apply NoDup_app; [exact D1 | |].
  - apply NoDup_app; [exact D2 | |].
    + apply NoDup_app; [exact D3 | exact D4 |].
      intros q H3 H4. exact (X34 q (C3 q H3) (C4 q H4)).
    + intros q H2 H. apply in_app_or in H. destruct H as [H | H].
      * exact (X23 q (C2 q H2) (C3 q H)).
      * exact (X24 q (C2 q H2) (C4 q H)).
  - intros q H1 H. apply in_app_or in H. destruct H as [H | H];
      [exact (X12 q (C1 q H1) (C2 q H)) |].
    apply in_app_or in H. destruct H as [H | H].
    + exact (X13 q (C1 q H1) (C3 q H)).
    + exact (X14 q (C1 q H1) (C4 q H)).
Qed.

(** Every level from 1 on: [walk] covers its block of side [2^level]. *)
Lemma walk_block (n : nat) :
  forall (s : Hilbert.steps) (p : Hilbert.pos),
    block_ok (2 ^ Z.of_nat (S n)) s p
      (fst (Hilbert.walk (S n) s p)) (snd (Hilbert.walk (S n) s p)).
Proof.
  induction n as [| n IH]; intros s p.
  - apply walk_level_1.
  - rewrite walk_unfold.
    replace (2 ^ Z.of_nat (S (S n))) with (2 * 2 ^ Z.of_nat (S n))
      by (rewrite (Nat2Z.inj_succ (S n)), Z.pow_succ_r by lia; reflexivity).
    destruct (Hilbert.inception s) as [| s1 [| s2 [| s3 [| s4 [| ? ?]]]]] eqn:Hinc;
      try (destruct s; discriminate).
    pose proof (IH s1 p) as B1.
    destruct (Hilbert.walk (S n) s1 p) as [o1 p1].
    pose proof (IH s2 p1) as B2.
    destruct (Hilbert.walk (S n) s2 p1) as [o2 p2].
    pose proof (IH s3 p2) as B3.
    destruct (Hilbert.walk (S n) s3 p2) as [o3 p3].
    pose proof (IH s4 p3) as B4.
    destruct (Hilbert.walk (S n) s4 p3) as [o4 p4].
    cbn [fst snd] in *.
    apply (block_ok_four _ s s1 s2 s3 s4 p p1 p2 p3 p4); auto.
    pose proof (two_pow_pos (S n)). lia.
Qed.

(** ** Cells of the grid *)

Lemma in_py_range (start stop step x : Z) :
  In x (py_range start stop step) <->
  exists i : nat,
    x = start + Z.of_nat i * step /\
    Z.of_nat i < (if 0 <? step then (stop - start + step - 1) / step
                  else (start - stop - step - 1) / (- step)).
Proof.
  unfold py_range. rewrite in_map_iff. split.
  - intros (i & <- & Hi). apply in_seq in Hi. exists i. split; [reflexivity | lia].
  - intros (i & -> & Hi). exists i. split; [reflexivity |]. apply in_seq. lia.
Qed.

Lemma in_py_range_up (n x : Z) : In x (py_range 0 n 1) <-> 0 <= x < n.
Proof.
  rewrite py_range_up, in_map_iff. split.
  - intros (i & <- & Hi). apply in_seq in Hi. lia.
  - intros H. exists (Z.to_nat x). split; [lia |]. apply in_seq. lia.
Qed.

Lemma py_range_up_NoDup (n : Z) : NoDup (py_range 0 n 1).
Proof.
  rewrite py_range_up. apply Injective_map_NoDup; [| apply seq_NoDup].
  intros a b H. lia.
Qed.

Lemma py_range_up_length (n : Z) : 0 <= n -> Z.of_nat (length (py_range 0 n 1)) = n.
Proof. intros H. rewrite py_range_up, length_map, length_seq. lia. Qed.

Lemma NoDup_list_prod {A B : Type} (l : list A) (l' : list B) :
  NoDup l -> NoDup l' -> NoDup (list_prod l l').
Proof.
  intros Hl Hl'. induction Hl as [| a l Ha Hl IH]; cbn [list_prod]; [constructor |].
  apply NoDup_app.
  - apply Injective_map_NoDup; [| exact Hl'].
    intros x y E. inversion E. reflexivity.
  - exact IH.
  - intros [a' b'] H1 H2. apply in_map_iff in H1. destruct H1 as (b & E & _).
    inversion E; subst. apply in_prod_iff in H2. tauto.
Qed.

Lemma in_grid_cells (n : Z) (q : Z * Z) :
  In q (grid_cells n) <-> 0 <= fst q < n /\ 0 <= snd q < n.
Proof.
  destruct q as [y x]. unfold grid_cells.
  rewrite in_prod_iff, !in_py_range_up. reflexivity.
Qed.

Lemma grid_cells_NoDup (n : Z) : NoDup (grid_cells n).
Proof. apply NoDup_list_prod; apply py_range_up_NoDup. Qed.

Lemma grid_cells_length (n : Z) :
  0 <= n -> length (grid_cells n) = Z.to_nat (n * n).
Proof.
  intros H. unfold grid_cells. rewrite length_prod.
  pose proof (py_range_up_length n H). nia.
Qed.

Lemma four_pow (n : nat) : 4 ^ Z.of_nat n = 2 ^ Z.of_nat n * 2 ^ Z.of_nat n.
Proof.
  change 4 with (2 * 2). rewrite Z.pow_mul_l. reflexivity.
Qed.

(** As many distinct cells as the grid has, all on the grid: every cell
    of the grid is among them. *)
Lemma cells_cover (side : Z) (cells : list (Z * Z)) :
  0 <= side ->
  NoDup cells ->
  length cells = Z.to_nat (side * side) ->
  (forall q, In q cells -> 0 <= fst q < side /\ 0 <= snd q < side) ->
  forall q, 0 <= fst q < side /\ 0 <= snd q < side -> In q cells.
Proof.
  intros Hs Hnd Hlen Hin q Hq.
  apply (NoDup_length_incl Hnd (l' := grid_cells side)).
  - rewrite grid_cells_length, Hlen by exact Hs. lia.
  - intros c Hc. apply in_grid_cells. auto.
  - apply in_grid_cells. exact Hq.
Qed.

(** The same count of cells covering the grid: no cell comes twice. *)
Lemma cells_distinct (side : Z) (cells : list (Z * Z)) :
  0 <= side ->
  length cells = Z.to_nat (side * side) ->
  (forall q, 0 <= fst q < side /\ 0 <= snd q < side -> In q cells) ->
  NoDup cells.
Proof.
  intros Hs Hlen Hcov.
  apply (NoDup_incl_NoDup (grid_cells_NoDup side)).
  - rewrite grid_cells_length, Hlen by exact Hs. lia.
  - intros c Hc. apply Hcov. apply in_grid_cells. exact Hc.
Qed.

(** X1. The hilbert curve of every order from 1 on: [4^order] steps, linear
    indices 0, 1, 2, ... in generation order, every cell of the grid once,
    and each step next to the one before. *)
Theorem hilbert_from_order_1 (n : nat) :
  curve_bijective (S n) (Hilbert.hilbert (S n)) /\
  path (map step_yx (Hilbert.hilbert (S n))).
Proof.
  unfold Hilbert.hilbert.
  set (side := 2 ^ Z.of_nat (S n)).
  assert (Hside : 0 < side) by apply two_pow_pos.
  pose proof (walk_block n Hilbert.URDR (side - 1, 0, 0)) as B.
  pose proof (walk_length n Hilbert.URDR (side - 1, 0, 0)) as Hlen.
  pose proof (block_cells _ _ _ _ _ B) as Hcells.
  destruct B as (_ & Hfol & _ & _ & _ & _ & Hpath & Hnd).
  fold side in Hcells.
  set (out := fst (Hilbert.walk (S n) Hilbert.URDR (side - 1, 0, 0))) in *.
  assert (Hlen' : length out = Z.to_nat (side * side)).
  { rewrite Hlen. unfold side. rewrite <- four_pow.
    rewrite <- (Nat2Z.id (4 ^ S n)). f_equal.
    rewrite Nat2Z.inj_pow. reflexivity. }
  assert (Hin : forall q, In q (map step_yx out) ->
                          0 <= fst q < side /\ 0 <= snd q < side).
  { intros [qy qx] Hq. specialize (Hcells _ Hq). revert Hcells.
    open_block. cbn [step_yx fst snd]. lia. }
  split; [| exact Hpath].
  unfold curve_bijective. fold side.
  split; [rewrite Hlen'; unfold side; rewrite four_pow; reflexivity |].
  split; [exact Hfol |]. split; [exact Hnd |].
  intros q. split; [apply Hin |].
  apply (cells_cover side); auto; [lia |].
  rewrite length_map. exact Hlen'.
Qed.

(** ** The raster and the snake curve *)

Lemma yield_row_spec (y : Z) (xs : list Z) :
  forall l : Z,
    snd (yield_row y xs l) = l + Z.of_nat (length xs) /\
    length (fst (yield_row y xs l)) = length xs /\
    follows (l - 1) (fst (yield_row y xs l)) /\
    (forall s, In s (fst (yield_row y xs l)) <->
               exists i : nat, nth_error xs i = Some (step_x s) /\
                               step_y s = y /\ step_linear s = l + Z.of_nat i).
Proof.
  induction xs as [| x xs IH]; intros l.
  - cbn. repeat split; try lia; try contradiction.
    intros ([| i] & H & _); discriminate.
  - cbn [yield_row]. destruct (IH (l + 1)) as (Hsnd & Hlen & Hfol & Hin).
    destruct (yield_row y xs (l + 1)) as [out l']. cbn [fst snd] in *.
    split; [cbn [length]; lia |]. split; [cbn [length]; lia |].
    split.
    { cbn [follows step_linear snd]. split; [lia |].
      replace (l - 1 + 1) with (l + 1 - 1) by lia. exact Hfol. }
    intros s. cbn [In]. rewrite Hin. split.
    + intros [<- | (i & Hi & Hy & Hl)].
      * exists 0%nat. cbn. repeat split; lia.
      * exists (S i). cbn [nth_error]. repeat split; auto; lia.
    + intros ([| i] & Hi & Hy & Hl).
      * left. destruct s as [[sy sx] sl]. cbn in Hi, Hy, Hl.
        inversion Hi. subst. rewrite Z.add_0_r. reflexivity.
      * right. exists i. cbn [nth_error] in Hi. repeat split; auto; lia.
Qed.

Lemma nth_error_py_range_up (n : Z) (i : nat) (x : Z) :
  nth_error (py_range 0 n 1) i = Some x <-> x = Z.of_nat i /\ Z.of_nat i < n.
Proof.
  rewrite py_range_up, nth_error_map, nth_error_seq.
  destruct (Nat.ltb_spec i (Z.to_nat n)); cbn; split.
  - intros E. inversion E. lia.
  - intros [-> _]. reflexivity.
  - discriminate.
  - intros [_ H']. lia.
Qed.

Lemma py_range_down (n : Z) :
  py_range (n - 1) (-1) (-1) = map (fun i => n - 1 - Z.of_nat i) (seq 0 (Z.to_nat n)).
Proof.
  unfold py_range. cbn [Z.ltb Z.compare Z.opp].
  replace (n - 1 - -1 - -1 - 1) with n by lia. rewrite Z.div_1_r.
  apply map_ext. intros i. lia.
Qed.

Lemma nth_error_py_range_down (n : Z) (i : nat) (x : Z) :
  nth_error (py_range (n - 1) (-1) (-1)) i = Some x <->
  x = n - 1 - Z.of_nat i /\ Z.of_nat i < n.
Proof.
  rewrite py_range_down, nth_error_map, nth_error_seq.
  destruct (Nat.ltb_spec i (Z.to_nat n)); cbn; split.
  - intros E. inversion E. lia.
  - intros [-> _]. reflexivity.
  - discriminate.
  - intros [_ H']. lia.
Qed.

Lemma py_range_down_length (n : Z) :
  0 <= n -> Z.of_nat (length (py_range (n - 1) (-1) (-1))) = n.
Proof. intros H. rewrite py_range_down, length_map, length_seq. lia. Qed.

Lemma linear_rows_spec (E : Z) (ys : list Z) :
  0 <= E ->
  forall l : Z,
    snd (linear_rows ys E l) = l + Z.of_nat (length ys) * E /\
    Z.of_nat (length (fst (linear_rows ys E l))) = Z.of_nat (length ys) * E /\
    follows (l - 1) (fst (linear_rows ys E l)) /\
    (forall s, In s (fst (linear_rows ys E l)) <->
               exists j : nat, nth_error ys j = Some (step_y s) /\
                               0 <= step_x s < E /\
                               step_linear s = l + Z.of_nat j * E + step_x s).
Proof.
  intros HE. induction ys as [| y ys IH]; intros l.
  - cbn. repeat split; try lia; try contradiction.
    intros ([| j] & H & _); discriminate.
  - cbn [linear_rows].
    destruct (yield_row_spec y (py_range 0 E 1) l) as (Rsnd & Rlen & Rfol & Rin).
    destruct (yield_row y (py_range 0 E 1) l) as [row l1]. cbn [fst snd] in *.
    pose proof (py_range_up_length E HE) as Hup.
    destruct (IH l1) as (Hsnd & Hlen & Hfol & Hin).
    destruct (linear_rows ys E l1) as [rest l2]. cbn [fst snd] in *.
    split; [cbn [length]; lia |].
    split; [rewrite length_app; cbn [length]; lia |].
    split.
    { apply follows_app. split; [exact Rfol |].
      replace (l - 1 + Z.of_nat (length row)) with (l1 - 1) by lia. exact Hfol. }
    intros s. rewrite in_app_iff, Rin, Hin. split.
    + intros [(i & Hi & Hy & Hl) | (j & Hj & Hx & Hl)].
      * apply nth_error_py_range_up in Hi. exists 0%nat. cbn [nth_error].
        repeat split; try lia. f_equal. lia.
      * exists (S j). cbn [nth_error]. repeat split; auto; lia.
    + intros ([| j] & Hj & Hx & Hl).
      * left. exists (Z.to_nat (step_x s)). cbn in Hj. inversion Hj.
        repeat split; try lia. apply nth_error_py_range_up. lia.
      * right. exists j. cbn [nth_error] in Hj. repeat split; auto; lia.
Qed.

(** X2. The raster curve of every order: the cell [(y, x)] is step number
    [y * side + x]. *)
Theorem linear_every_order (order : nat) :
  curve_bijective order (linear order) /\
  (forall s, In s (linear order) ->
             step_linear s = step_y s * 2 ^ Z.of_nat order + step_x s).
Proof.
  unfold linear. set (E := 2 ^ Z.of_nat order).
  assert (HE : 0 < E) by apply two_pow_pos.
  destruct (linear_rows_spec E (py_range 0 E 1) ltac:(lia) 0)
    as (_ & Hlen & Hfol & Hin).
  set (out := fst (linear_rows (py_range 0 E 1) E 0)) in *.
  rewrite py_range_up_length in Hlen by lia.
  assert (Hform : forall s, In s out <->
                            0 <= step_y s < E /\ 0 <= step_x s < E /\
                            step_linear s = step_y s * E + step_x s).
  { intros s. rewrite Hin. split.
    - intros (j & Hj & Hx & Hl). apply nth_error_py_range_up in Hj. lia.
    - intros (Hy & Hx & Hl). exists (Z.to_nat (step_y s)).
      rewrite nth_error_py_range_up. lia. }
  assert (Hlen' : length out = Z.to_nat (E * E)) by lia.
  assert (Hcov : forall q, 0 <= fst q < E /\ 0 <= snd q < E -> In q (map step_yx out)).
  { intros [y x] Hq. cbn [fst snd] in Hq. apply in_map_iff.
    exists (y, x, y * E + x). split; [reflexivity |].
    apply Hform. cbn. lia. }
  split; [| intros s Hs; apply Hform; exact Hs].
  unfold curve_bijective. fold E.
  split; [rewrite Hlen'; unfold E; rewrite four_pow; reflexivity |].
  split; [exact Hfol |].
  split.
  { apply (cells_distinct E); [lia | rewrite length_map; exact Hlen' | exact Hcov]. }
  intros q. split; [| apply Hcov].
  intros Hq. apply in_map_iff in Hq. destruct Hq as (s & <- & Hs).
  apply Hform in Hs. destruct s as [[y x] l]. cbn in *. lia.
Qed.

Lemma snake_rows_spec (E : Z) (ys : list Z) :
  0 <= E ->
  forall l : Z,
    snd (snake_rows ys E l) = l + Z.of_nat (length ys) * (2 * E) /\
    Z.of_nat (length (fst (snake_rows ys E l))) = Z.of_nat (length ys) * (2 * E) /\
    follows (l - 1) (fst (snake_rows ys E l)) /\
    (forall s, In s (fst (snake_rows ys E l)) <->
               exists (j : nat) (yj : Z),
                 nth_error ys j = Some yj /\
                 0 <= step_x s < E /\
                 ((step_y s = yj /\
                   step_linear s = l + Z.of_nat j * (2 * E) + step_x s) \/
                  (step_y s = yj + 1 /\
                   step_linear s = l + Z.of_nat j * (2 * E) + E + (E - 1 - step_x s)))).
Proof.
  intros HE. induction ys as [| y ys IH]; intros l.
  - cbn. repeat split; try lia; try contradiction.
    intros ([| j] & yj & H & _); discriminate.
  - cbn [snake_rows].
    destruct (yield_row_spec y (py_range 0 E 1) l) as (Rsnd & Rlen & Rfol & Rin).
    destruct (yield_row y (py_range 0 E 1) l) as [row l1]. cbn [fst snd] in *.
    destruct (yield_row_spec (y + 1) (py_range (E - 1) (-1) (-1)) l1)
      as (Bsnd & Blen & Bfol & Bin).
    destruct (yield_row (y + 1) (py_range (E - 1) (-1) (-1)) l1) as [back l2].
    cbn [fst snd] in *.
    pose proof (py_range_up_length E HE) as Hup.
    pose proof (py_range_down_length E HE) as Hdown.
    destruct (IH l2) as (Hsnd & Hlen & Hfol & Hin).
    destruct (snake_rows ys E l2) as [rest l3]. cbn [fst snd] in *.
    split; [cbn [length]; lia |].
    split; [rewrite !length_app; cbn [length]; lia |].
    split.
    { apply follows_app. split; [exact Rfol |].
      apply follows_app. split.
      - replace (l - 1 + Z.of_nat (length row)) with (l1 - 1) by lia. exact Bfol.
      - replace (l - 1 + Z.of_nat (length row) + Z.of_nat (length back))
          with (l2 - 1) by lia.
        exact Hfol. }
    intros s. rewrite !in_app_iff, Rin, Bin, Hin. split.
    + intros [(i & Hi & Hy & Hl) | [(i & Hi & Hy & Hl) | (j & yj & Hj & Hx & Hl)]].
      * apply nth_error_py_range_up in Hi. exists 0%nat, y. cbn [nth_error].
        split; [reflexivity |]. split; [lia |]. left. lia.
      * apply nth_error_py_range_down in Hi. exists 0%nat, y. cbn [nth_error].
        split; [reflexivity |]. split; [lia |]. right. lia.
      * exists (S j), yj. cbn [nth_error]. split; [exact Hj |]. split; [exact Hx |].
        destruct Hl as [[Hy Hl] | [Hy Hl]]; [left | right]; split; auto; lia.
    + intros ([| j] & yj & Hj & Hx & Hl).
      * cbn in Hj. inversion Hj; subst yj. destruct Hl as [[Hy Hl] | [Hy Hl]].
        -- left. exists (Z.to_nat (step_x s)).
           rewrite nth_error_py_range_up. lia.
        -- right. left. exists (Z.to_nat (E - 1 - step_x s)).
           rewrite nth_error_py_range_down. lia.
      * right. right. exists j, yj. cbn [nth_error] in Hj.
        split; [exact Hj |]. split; [exact Hx |].
        destruct Hl as [[Hy Hl] | [Hy Hl]]; [left | right]; split; auto; lia.
Qed.

Lemma py_range_even (K : Z) :
  0 <= K -> py_range 0 (2 * K) 2 = map (fun i => 2 * Z.of_nat i) (seq 0 (Z.to_nat K)).
Proof.
  intros HK. unfold py_range. cbn [Z.ltb Z.compare].
  replace ((2 * K - 0 + 2 - 1) / 2) with K.
  - apply map_ext. intros i. lia.
  - apply Z.div_unique with (r := 1); lia.
Qed.

Lemma nth_error_py_range_even (K : Z) (j : nat) (y : Z) :
  0 <= K ->
  (nth_error (py_range 0 (2 * K) 2) j = Some y <-> y = 2 * Z.of_nat j /\ Z.of_nat j < K).
Proof.
  intros HK. rewrite py_range_even, nth_error_map, nth_error_seq by exact HK.
  destruct (Nat.ltb_spec j (Z.to_nat K)); cbn; split.
  - intros E. inversion E. lia.
  - intros [-> _]. reflexivity.
  - discriminate.
  - intros [_ H']. lia.
Qed.

(** The snake curve of every order from 1 on: on an even row the cell
    [(y, x)] is step number [y * side + x], on an odd row it is step
    number [y * side + (side - 1 - x)]: odd rows run from right to left. *)
Theorem snake_from_order_1 (n : nat) :
  curve_bijective (S n) (snake (S n)) /\
  (forall s, In s (snake (S n)) ->
             let side := 2 ^ Z.of_nat (S n) in
             step_linear s =
             step_y s * side
             + (if Z.even (step_y s) then step_x s else side - 1 - step_x s)).
Proof.
  unfold snake. set (E := 2 ^ Z.of_nat (S n)).
  set (K := 2 ^ Z.of_nat n).
  assert (HK : 0 < K) by apply two_pow_pos.
  assert (HEK : E = 2 * K).
  { unfold E, K. rewrite Nat2Z.inj_succ, Z.pow_succ_r by lia. reflexivity. }
  destruct (snake_rows_spec E (py_range 0 E 2) ltac:(lia) 0)
    as (_ & Hlen & Hfol & Hin).
  set (out := fst (snake_rows (py_range 0 E 2) E 0)) in *.
  assert (Hcount : Z.of_nat (length (py_range 0 E 2)) = K).
  { rewrite HEK, py_range_even, length_map, length_seq by lia. lia. }
  rewrite Hcount in Hlen.
  assert (Hform : forall s, In s out <->
                            0 <= step_y s < E /\ 0 <= step_x s < E /\
                            step_linear s =
                            step_y s * E
                            + (if Z.even (step_y s) then step_x s
                               else E - 1 - step_x s)).
  { intros s. rewrite Hin. split.
    - intros (j & yj & Hj & Hx & Hl). rewrite HEK in Hj.
      apply nth_error_py_range_even in Hj; [| lia]. destruct Hj as [-> Hj].
      destruct Hl as [[Hy Hl] | [Hy Hl]]; rewrite Hy.
      + rewrite Z.even_mul. cbn [Z.even orb]. lia.
      + rewrite Z.even_add, Z.even_mul. cbn [Z.even orb Bool.eqb]. lia.
    - intros (Hy & Hx & Hl).
      exists (Z.to_nat (step_y s / 2)), (2 * (step_y s / 2)).
      pose proof (Z.div_mod (step_y s) 2 ltac:(lia)) as Hdm.
      pose proof (Z.mod_pos_bound (step_y s) 2 ltac:(lia)) as Hmb.
      assert (Hq : 0 <= step_y s / 2 < K).
      { split; [apply Z.div_pos; lia | apply Z.div_lt_upper_bound; lia]. }
      split.
      { rewrite HEK. apply nth_error_py_range_even; lia. }
      split; [exact Hx |].
      rewrite Z2Nat.id by lia.
      rewrite Zeven_mod in Hl.
      assert (Hmul : step_y s * E
                     = step_y s / 2 * (2 * E) + step_y s mod 2 * E)
        by (rewrite Hdm at 1; ring).
      destruct (Z.eqb_spec (step_y s mod 2) 0) as [E0 | E1]; [left | right].
      + rewrite E0 in Hmul, Hdm. lia.
      + assert (E1' : step_y s mod 2 = 1) by lia.
        rewrite E1' in Hmul, Hdm. lia. }
  assert (Hlen' : length out = Z.to_nat (E * E)) by nia.
  assert (Hcov : forall q, 0 <= fst q < E /\ 0 <= snd q < E -> In q (map step_yx out)).
  { intros [y x] Hq. cbn [fst snd] in Hq. apply in_map_iff.
    exists (y, x, y * E + (if Z.even y then x else E - 1 - x)).
    split; [reflexivity |]. apply Hform. cbn. lia. }
  split; [| intros s Hs; apply Hform; exact Hs].
  unfold curve_bijective. fold E.
  split; [rewrite Hlen'; unfold E; rewrite four_pow; reflexivity |].
  split; [exact Hfol |].
  split.
  { apply (cells_distinct E); [lia | rewrite length_map; exact Hlen' | exact Hcov]. }
  intros q. split; [| apply Hcov].
  intros Hq. apply in_map_iff in Hq. destruct Hq as (s & <- & Hs).
  apply Hform in Hs. destruct s as [[y x] l]. cbn in *. lia.
Qed.

(** ** The invariant holds from construction on *)

Lemma cache_ok_black : cache_ok [(black_rgb, black_bytes)].
Proof.
  intros k v H. cbn in H. destruct (rgb_eqb k black_rgb) eqn:E; [| discriminate].
  apply rgb_eqb_eq in E. subst k. inversion H. reflexivity.
Qed.

Lemma black_rows_dims (side : Z) :
  0 <= side ->
  dims (map (fun _ => map (fun _ => black_bytes) (py_range 0 side 1))
          (py_range 0 side 1)) side side.
Proof.
  intros H. split.
  - rewrite length_map. apply py_range_up_length. exact H.
  - apply Forall_forall. intros row Hrow. apply in_map_iff in Hrow.
    destruct Hrow as (y & <- & _). rewrite length_map.
    apply py_range_up_length. exact H.
Qed.

(** A grid just built: the cursor is on step 0, all later steps are
    ahead, the buffer is black, and the invariant holds. *)
Lemma init_wf
    (order size : option Z) (total_bytes default_granularity : Z)
    (min_brightness : option Q) (curve : option curve_name)
    (o s : Z) (gen : nat -> list CurveStep) (g : Grid.t) :
  choose_order_size order size total_bytes default_granularity = Ok (o, s) ->
  curves_get (curve_or_default curve) = Some gen ->
  curve_bijective (Z.to_nat o) (gen (Z.to_nat o)) ->
  Grid.__init__ order size total_bytes default_granularity min_brightness curve
  = Ok g ->
  wf g /\
  NoDup (map step_yx (cursor g :: Grid.curve g)) /\
  cursor g :: Grid.curve g = gen (Z.to_nat o) /\
  Grid.linear g = 0 /\
  Grid._finished g = false /\ Grid._pixel_dirty g = false /\
  Grid.order g = o /\ Grid.size g = s /\
  (Grid.bytes_per_pixel g == inject_Z total_bytes / inject_Z (4 ^ o))%Q /\
  (forall q, 0 <= fst q < 2 ^ o /\ 0 <= snd q < 2 ^ o ->
             pixel_at (Grid._grid g) q = Some black_bytes).
Proof.
  intros Hcos Hc Hbij Hinit. unfold Grid.__init__ in Hinit.
  rewrite Hcos in Hinit. cbn [bind] in Hinit. rewrite Hc in Hinit.
  destruct (Z.ltb_spec o 0) as [| Ho]; [discriminate |].
  destruct Hbij as (Hlen & Hfol & Hnd & Hcov).
  rewrite Z2Nat.id in Hcov by exact Ho.
  unfold Grid._next_pixel in Hinit. cbn [Grid._pixel_dirty Grid.curve bind] in Hinit.
  destruct (gen (Z.to_nat o)) as [| s0 rest] eqn:Egen; [discriminate |].
  cbn [bind Grid._add_color_cache struct_color_pack black_rgb] in Hinit.
  set (side := 2 ^ o) in *.
  assert (Hside : 0 < side) by (apply Z.pow_pos_nonneg; lia).
  destruct Hfol as [Hs0 Hfol].
  assert (Hgrid : forall t, In t (s0 :: rest) -> in_grid side side (step_yx t)).
  { intros t Ht. apply Hcov. apply in_map. exact Ht. }
  assert (Hbpp : (inject_Z total_bytes / inject_Z (side ^ 2)
                  == inject_Z total_bytes / inject_Z (4 ^ o))%Q).
  { unfold side. rewrite Z.pow_2_r, <- Z.pow_mul_l. reflexivity. }
  assert (Hblack : forall q, 0 <= fst q < side /\ 0 <= snd q < side ->
            pixel_at (map (fun _ => map (fun _ => black_bytes) (py_range 0 side 1))
                        (py_range 0 side 1)) q = Some black_bytes).
  { intros [qy qx] [Hy Hx]. cbn [fst snd] in *. unfold pixel_at. cbn [fst snd].
    pose proof (py_range_up_length side ltac:(lia)) as Hl.
    rewrite length_map, Hl, py_index_in_range by lia.
    rewrite py_range_up.
    rewrite (nth_indep _ [] (map (fun _ => black_bytes)
                               (map Z.of_nat (seq 0 (Z.to_nat side)))))
      by (rewrite !length_map, length_seq; lia).
    rewrite (map_nth (fun _ : Z => map (fun _ : Z => black_bytes)
                                     (map Z.of_nat (seq 0 (Z.to_nat side))))
                     (map Z.of_nat (seq 0 (Z.to_nat side))) 0).
    rewrite !length_map, length_seq, Z2Nat.id, py_index_in_range by lia.
    rewrite nth_error_map, nth_error_map, nth_error_seq.
    destruct (Nat.ltb_spec (Z.to_nat qx) (Z.to_nat side)); [reflexivity | lia]. }
  assert (Hwf : forall mb,
            wf (Grid.mk o s rest [] false (step_y s0) (step_x s0) (step_linear s0)
                  side side (side ^ 2) total_bytes
                  (inject_Z total_bytes / inject_Z (side ^ 2))%Q
                  [(black_rgb, black_bytes)]
                  (map (fun _ => map (fun _ => black_bytes) (py_range 0 side 1))
                     (py_range 0 side 1))
                  false mb)).
  { intros mb. unfold wf. cbn. wf_split.
    - apply black_rows_dims. lia.
    - apply (Hgrid s0). left. reflexivity.
    - apply Forall_forall. intros t Ht. apply Hgrid. right. exact Ht.
    - replace (step_linear s0) with (-1 + 1) by lia. exact Hfol.
    - exact cache_ok_black.
    - reflexivity. }
  assert (Hcur : (step_y s0, step_x s0, step_linear s0) = s0)
    by (destruct s0 as [[? ?] ?]; reflexivity).
  destruct min_brightness as [mb |].
  - destruct (Qlt_le_dec mb 0); [discriminate |].
    destruct (Qlt_le_dec 1 mb); [discriminate |].
    inversion Hinit; subst g; clear Hinit.
    unfold cursor.
    cbn [Grid.with_grid Grid.with_cache Grid.with_cursor Grid.curve Grid.y Grid.x
         Grid.linear Grid._finished Grid._pixel_dirty Grid.order Grid.size
         Grid.bytes_per_pixel Grid._grid Grid.height Grid.width Grid.num_steps
         Grid.total_bytes Grid._color_cache Grid._pixel_mix Grid._min_brightness].
    rewrite Hcur.
    split; [apply Hwf |]. split; [exact Hnd |]. split; [reflexivity |].
    split; [lia |]. repeat split; auto.
  - inversion Hinit; subst g; clear Hinit.
    unfold cursor.
    cbn [Grid.with_grid Grid.with_cache Grid.with_cursor Grid.curve Grid.y Grid.x
         Grid.linear Grid._finished Grid._pixel_dirty Grid.order Grid.size
         Grid.bytes_per_pixel Grid._grid Grid.height Grid.width Grid.num_steps
         Grid.total_bytes Grid._color_cache Grid._pixel_mix Grid._min_brightness].
    rewrite Hcur.
    split; [apply Hwf |]. split; [exact Hnd |]. split; [reflexivity |].
    split; [lia |]. repeat split; auto.
Qed.

(** ** The invariant is kept by every method that returns *)

Lemma returned_packable (g : Grid.t) (r : rgbytes * Grid.t) :
  cache_ok (Grid._color_cache g) ->
  Grid._pixel_mix_to_rgbytes g = Ok r ->
  packable (Grid._min_brightness g) (Grid._pixel_mix g).
Proof.
  intros Hc H. unfold Grid._pixel_mix_to_rgbytes in H. unfold packable.
  destruct (cache_get _ _) as [b |] eqn:E.
  - apply Hc in E. rewrite E. reflexivity.
  - unfold Grid._add_color_cache in H.
    destruct (struct_color_pack _); [reflexivity | discriminate].
Qed.

Lemma wf_finish_pixel (g g' : Grid.t) :
  wf g -> Grid._finish_pixel g = Ok g' -> wf g'.
Proof.
  intros Hwf H.
  assert (Hp : packable (Grid._min_brightness g) (Grid._pixel_mix g)).
  { unfold Grid._finish_pixel in H.
    destruct (Grid._pixel_mix_to_rgbytes g) as [r |] eqn:E; [| discriminate].
    apply (returned_packable g r); [apply Hwf | exact E]. }
  rewrite (finish_pixel_ok g Hwf Hp) in H. inversion H.
  apply wf_commit; assumption.
Qed.

Lemma wf_next_pixel (g g' : Grid.t) :
  wf g -> Grid._next_pixel g = Ok g' -> wf g'.
Proof.
  intros Hwf H. unfold Grid._next_pixel in H.
  destruct (Grid._pixel_dirty g).
  - destruct (Grid._finish_pixel g) as [g1 |] eqn:E; [| discriminate].
    cbn [bind] in H. pose proof (wf_finish_pixel g g1 Hwf E) as Hwf1.
    destruct (Grid.curve g1) as [| s rest] eqn:Ec; [discriminate |].
    inversion H. apply (wf_with_cursor _ []); assumption.
  - cbn [bind] in H.
    destruct (Grid.curve g) as [| s rest] eqn:Ec; [discriminate |].
    inversion H. apply (wf_with_cursor _ []); assumption.
Qed.

Lemma wf_set_pixel (g g' : Grid.t) (b : rgbytes) :
  wf g -> Grid._set_pixel g b = Ok g' -> wf g'.
Proof.
  intros Hwf H. pose proof Hwf as (Hd & Hyx & _).
  rewrite (set_pixel_ok g b Hd Hyx) in H. inversion H.
  apply wf_with_grid; [exact Hwf |]. apply set_rows_dims; assumption.
Qed.

Lemma wf_advance_loop (fuel : nat) (limit : Z) :
  forall g g', wf g -> Grid.advance_loop fuel limit g = Ok g' -> wf g'.
Proof.
  induction fuel as [| fuel IH]; intros g g' Hwf H; cbn [Grid.advance_loop] in H;
    destruct (Grid.linear g <? limit); try discriminate;
    try (inversion H; subst; exact Hwf).
  destruct (Grid._next_pixel g) as [g1 |] eqn:E; [| discriminate].
  cbn [bind] in H. apply (IH g1 g'); [| exact H].
  apply (wf_next_pixel g g1 Hwf E).
Qed.

Lemma wf_paint_loop (fuel : nat) (limit : Z) (b : rgbytes) :
  forall g g', wf g -> Grid.paint_loop fuel limit b g = Ok g' -> wf g'.
Proof.
  induction fuel as [| fuel IH]; intros g g' Hwf H; cbn [Grid.paint_loop] in H;
    destruct (Grid.linear g <? limit); try discriminate;
    try (inversion H; subst; exact Hwf).
  destruct (Grid._next_pixel g) as [g1 |] eqn:E; [| discriminate].
  cbn [bind] in H.
  destruct (Grid._set_pixel g1 b) as [g2 |] eqn:E2; [| discriminate].
  cbn [bind] in H. apply (IH g2 g'); [| exact H].
  apply (wf_set_pixel g1 g2 b); [| exact E2].
  apply (wf_next_pixel g g1 Hwf E).
Qed.

(** Whatever the arguments, a [fill] that returns leaves a grid on which
    the invariant holds again. *)
Lemma wf_fill (g g' : Grid.t) (first_byte length : Z) (used_pct : Q) (c : color) :
  wf g -> Grid.fill g first_byte length used_pct c = Ok g' -> wf g'.
Proof.
  intros Hwf H. unfold Grid.fill in H.
  destruct (Grid._finished g); [discriminate |].
  destruct (Qeq_bool (Grid.bytes_per_pixel g) 0); [discriminate |].
  destruct (Grid.advance_to _ g) as [g1 |] eqn:E1; [| discriminate].
  cbn [bind] in H.
  unfold Grid.advance_to in E1.
  pose proof (wf_advance_loop _ _ g g1 Hwf E1) as Hwf1.
  destruct (_ =? _).
  - inversion H. apply wf_add_to_pixel_mix. exact Hwf1.
  - match type of H with
    | bind ?m _ = _ => destruct m as [g2 |] eqn:E2; [| discriminate]
    end.
    cbn [bind] in H.
    assert (Hwf2 : wf g2).
    { match type of E2 with
      | (if ?b then _ else _) = _ => destruct b
      end.
      - destruct (Grid._next_pixel _) as [ga |] eqn:Ea; [| discriminate].
        cbn [bind] in E2.
        pose proof (wf_next_pixel _ _
                      (wf_add_to_pixel_mix g1 c used_pct _ Hwf1) Ea) as Hwfa.
        pose proof (wf_add_to_pixel_mix ga c used_pct 1%Q Hwfa) as Hwfb.
        destruct (Grid._pixel_mix_to_rgbytes _) as [[bytes gc] |] eqn:Ec;
          [| discriminate].
        cbn [bind] in E2.
        assert (Hwfc : wf gc).
        { pose proof (returned_packable _ _ ltac:(apply Hwfb) Ec) as Hp.
          rewrite (pixel_mix_to_rgbytes_ok _ ltac:(apply Hwfb) Hp) in Ec.
          inversion Ec; subst.
          destruct Hwfb as (Hd & Hyx & Hin & Hfol & Hc & Hm).
          unfold wf. wf_split; try assumption.
          apply cache_add_ok; [exact Hc | apply packable_packed; exact Hp]. }
        destruct (Grid._set_pixel gc bytes) as [gd |] eqn:Ed; [| discriminate].
        cbn [bind] in E2.
        unfold Grid.paint_to in E2.
        refine (wf_paint_loop _ _ _ _ _ _ E2).
        apply (wf_set_pixel gc gd bytes Hwfc Ed).
      - inversion E2. subst. apply wf_add_to_pixel_mix. exact Hwf1. }
    destruct (Grid._next_pixel g2) as [g3 |] eqn:E3; [| discriminate].
    cbn [bind] in H. inversion H.
    apply wf_add_to_pixel_mix. apply (wf_next_pixel g2 g3 Hwf2 E3).
Qed.

(** ** Composites stay within a byte *)

Lemma fold_sum_bounds (f : Grid.mix_entry -> Q) (B : Q) (mix : list Grid.mix_entry) :
  (forall e, In e mix -> 0 <= f e <= B * Grid.entry_pct e)%Q ->
  forall a c : Q,
    (0 <= a <= B * c)%Q ->
    (0 <= fold_left (fun acc e => acc + f e) mix a
     <= B * fold_left (fun acc e => acc + Grid.entry_pct e) mix c)%Q.
Proof.
  induction mix as [| e mix IH]; intros Hf a c Hac; cbn [fold_left]; [exact Hac |].
  apply IH.
  - intros e' He'. apply Hf. right. exact He'.
  - specialize (Hf e (or_introl eq_refl)).
    setoid_replace (B * (c + Grid.entry_pct e))%Q
      with (B * c + B * Grid.entry_pct e)%Q by ring.
    lra.
Qed.

Lemma py_sum_bounds (f : Grid.mix_entry -> Q) (B : Q) (mix : list Grid.mix_entry) :
  (0 <= B)%Q ->
  (forall e, In e mix -> 0 <= f e <= B * Grid.entry_pct e)%Q ->
  (coverage mix <= 1)%Q ->
  (0 <= Grid.py_sum f mix <= B)%Q.
Proof.
  intros HB Hf Hcov.
  destruct (fold_sum_bounds f B mix Hf 0 0) as [Hlo Hhi].
  { setoid_replace (B * 0)%Q with 0%Q by ring. lra. }
  unfold coverage, Grid.py_sum in *. split; [exact Hlo |].
  apply (Qle_trans _ _ _ Hhi).
  set (x := fold_left (fun acc e => (acc + Grid.entry_pct e)%Q) mix 0%Q) in *.
  nra.
Qed.

Lemma py_round_range (q : Q) : (0 <= q <= 255)%Q -> 0 <= py_round q <= 255.
Proof.
  intros [Hlo Hhi]. unfold py_round.
  pose proof (Qfloor_le q) as Hf1.
  assert (Hf0 : 0 <= Qfloor q).
  { change 0 with (Qfloor 0). apply Qfloor_resp_le. exact Hlo. }
  assert (Hf255 : Qfloor q <= 255).
  { change 255 with (Qfloor 255). apply Qfloor_resp_le. exact Hhi. }
  assert (Hhalf : (1 # 2 <= q - inject_Z (Qfloor q))%Q -> Qfloor q <= 254).
  { intros H.
    assert (Hlt : (inject_Z (Qfloor q) < inject_Z 255)%Q).
    { change (inject_Z 255) with 255%Q. lra. }
    rewrite <- Zlt_Qlt in Hlt. lia. }
  destruct (q - inject_Z (Qfloor q) ?= 1 # 2)%Q eqn:E.
  - apply Qeq_alt in E.
    assert (H : (1 # 2 <= q - inject_Z (Qfloor q))%Q) by lra.
    specialize (Hhalf H). destruct (Z.even (Qfloor q)); lia.
  - lia.
  - apply Qgt_alt in E.
    assert (H : (1 # 2 <= q - inject_Z (Qfloor q))%Q) by lra.
    specialize (Hhalf H). lia.
Qed.

(** When the minimum brightness is a fraction, every entry is within
    bounds and the coverage does not exceed 1, the composite is three
    bytes: [struct_color.pack] does not raise. *)
Lemma packable_bounded (mb : Q) (mix : list Grid.mix_entry) :
  (0 <= mb <= 1)%Q ->
  Forall entry_bounded mix ->
  (coverage mix <= 1)%Q ->
  packable mb mix.
Proof.
  intros Hmb Hall Hcov. rewrite Forall_forall in Hall.
  assert (Hu : (0 <= Grid.py_sum (fun e => Grid.entry_used e * Grid.entry_pct e) mix <= 1)%Q).
  { apply py_sum_bounds; [lra | | exact Hcov].
    intros e He. destruct (Hall e He) as (_ & _ & _ & Hused & Hp). nra. }
  assert (Hc0 : (0 <= Grid.py_sum (fun e => chan0 (Grid.entry_color e) * Grid.entry_pct e) mix
                 <= 255)%Q).
  { apply py_sum_bounds; [lra | | exact Hcov].
    intros e He. destruct (Hall e He) as (H0 & _ & _ & _ & Hp). nra. }
  assert (Hc1 : (0 <= Grid.py_sum (fun e => chan1 (Grid.entry_color e) * Grid.entry_pct e) mix
                 <= 255)%Q).
  { apply py_sum_bounds; [lra | | exact Hcov].
    intros e He. destruct (Hall e He) as (_ & H1 & _ & _ & Hp). nra. }
  assert (Hc2 : (0 <= Grid.py_sum (fun e => chan2 (Grid.entry_color e) * Grid.entry_pct e) mix
                 <= 255)%Q).
  { apply py_sum_bounds; [lra | | exact Hcov].
    intros e He. destruct (Hall e He) as (_ & _ & H2 & _ & Hp). nra. }
  unfold packable, Grid.mix_to_rgb, struct_color_pack.
  set (u := Grid.py_sum (fun e => Grid.entry_used e * Grid.entry_pct e)%Q mix) in *.
  set (r := Grid.py_sum (fun e => chan0 (Grid.entry_color e) * Grid.entry_pct e)%Q mix) in *.
  set (gr := Grid.py_sum (fun e => chan1 (Grid.entry_color e) * Grid.entry_pct e)%Q mix) in *.
  set (b := Grid.py_sum (fun e => chan2 (Grid.entry_color e) * Grid.entry_pct e)%Q mix) in *.
  assert (Hw : (0 <= mb + u * (1 - mb) <= 1)%Q) by nra.
  set (w := (mb + u * (1 - mb))%Q) in *.
  pose proof (py_round_range (r * w) ltac:(nra)) as Hr.
  pose proof (py_round_range (gr * w) ltac:(nra)) as Hg.
  pose proof (py_round_range (b * w) ltac:(nra)) as Hb.
  destruct (Z.leb_spec 0 (py_round (r * w))); [| lia].
  destruct (Z.leb_spec (py_round (r * w)) 255); [| lia].
  destruct (Z.leb_spec 0 (py_round (gr * w))); [| lia].
  destruct (Z.leb_spec (py_round (gr * w)) 255); [| lia].
  destruct (Z.leb_spec 0 (py_round (b * w))); [| lia].
  destruct (Z.leb_spec (py_round (b * w)) 255); [| lia].
  reflexivity.
Qed.

(** ** The order that is derived from the size *)

Lemma pow4_pow2 (k : Z) : 0 <= k -> 4 ^ k = 2 ^ (2 * k).
Proof. intros H. rewrite Z.pow_mul_r by lia. reflexivity. Qed.

Lemma ceil_quarter_up (n : Z) :
  1 <= n ->
  let k := (Z.log2_up n + 1) / 2 in
  0 <= k /\ n <= 4 ^ k /\ (1 < n -> 1 <= k /\ 4 ^ (k - 1) < n).
Proof.
  intros Hn k. pose proof (Z.log2_up_nonneg n) as HL.
  assert (Hk : 2 * k <= Z.log2_up n + 1 < 2 * k + 2).
  { unfold k. pose proof (Z.div_mod (Z.log2_up n + 1) 2 ltac:(lia)).
    pose proof (Z.mod_pos_bound (Z.log2_up n + 1) 2 ltac:(lia)). lia. }
  assert (Hk0 : 0 <= k) by lia.
  split; [exact Hk0 |]. split.
  - rewrite pow4_pow2 by exact Hk0.
    apply Z.le_trans with (2 ^ Z.log2_up n).
    + destruct (Z.eq_dec n 1) as [-> | Hne]; [cbn; lia |].
      apply (Z.log2_up_spec n). lia.
    + apply Z.pow_le_mono_r; lia.
  - intros H1. pose proof (Z.log2_up_spec n H1) as [Hlo _].
    assert (HL1 : 1 <= Z.log2_up n) by (apply Z.log2_up_pos in H1; lia).
    split; [lia |].
    rewrite pow4_pow2 by lia.
    apply Z.le_lt_trans with (2 ^ Z.pred (Z.log2_up n)); [| exact Hlo].
    apply Z.pow_le_mono_r; lia.
Qed.

Lemma floor_quarter_down (m : Z) :
  1 <= m ->
  let j := Z.log2 m / 2 in
  0 <= j /\ 4 ^ j <= m < 4 ^ (j + 1).
Proof.
  intros Hm j. pose proof (Z.log2_nonneg m) as HL.
  assert (Hj : 2 * j <= Z.log2 m < 2 * j + 2).
  { unfold j. pose proof (Z.div_mod (Z.log2 m) 2 ltac:(lia)).
    pose proof (Z.mod_pos_bound (Z.log2 m) 2 ltac:(lia)). lia. }
  pose proof (Z.log2_spec m ltac:(lia)) as [Hlo Hhi].
  split; [lia |]. rewrite !pow4_pow2 by lia. split.
  - apply Z.le_trans with (2 ^ Z.log2 m); [| exact Hlo].
    apply Z.pow_le_mono_r; lia.
  - apply Z.lt_le_trans with (2 ^ Z.succ (Z.log2 m)); [exact Hhi |].
    apply Z.pow_le_mono_r; lia.
Qed.

Lemma Qpower4 (k : Z) : 0 <= k -> (4 ^ k == inject_Z (4 ^ k))%Q.
Proof. intros H. rewrite Zpower_Qpower by exact H. reflexivity. Qed.

(** [ceil_log2_sqrt x] is the integer [k] with [4^(k-1) < x <= 4^k], that
    is with [k - 1 < log2 (sqrt x) <= k]. *)
Lemma ceil_log2_sqrt_spec (x : Q) :
  (0 < x)%Q ->
  (4 ^ (ceil_log2_sqrt x - 1) < x <= 4 ^ ceil_log2_sqrt x)%Q.
Proof.
  intros Hx. unfold ceil_log2_sqrt.
  destruct (Qle_bool 1 x) eqn:E.
  - apply Qle_bool_iff in E.
    assert (Hn : 1 <= Qceiling x).
    { change 1 with (Qceiling 1). apply Qceiling_resp_le. exact E. }
    destruct (ceil_quarter_up (Qceiling x) Hn) as (Hk0 & Hup & Hlow).
    set (k := (Z.log2_up (Qceiling x) + 1) / 2) in *.
    split.
    + destruct (Z.eq_dec (Qceiling x) 1) as [E1 | NE1].
      * assert (Ek : k = 0) by (unfold k; rewrite E1; reflexivity).
        rewrite Ek. change (4 ^ (0 - 1))%Q with (1 # 4)%Q. lra.
      * destruct (Hlow ltac:(lia)) as [Hk1 Hlt].
        rewrite Qpower4 by lia.
        apply Qle_lt_trans with (inject_Z (Qceiling x - 1)); [| apply Qceiling_lt].
        rewrite <- Zle_Qle. lia.
    + rewrite Qpower4 by exact Hk0.
      apply Qle_trans with (inject_Z (Qceiling x)); [apply Qle_ceiling |].
      rewrite <- Zle_Qle. exact Hup.
  - assert (Hlt1 : (x < 1)%Q).
    { apply Qnot_le_lt. intros H. apply Qle_bool_iff in H. congruence. }
    assert (Hinv : (x * / x == 1)%Q) by (apply Qmult_inv_r; lra).
    assert (Hipos : (0 < / x)%Q) by (apply Qinv_lt_0_compat; exact Hx).
    set (ix := (/ x)%Q) in *.
    assert (Hi1 : (1 <= ix)%Q) by nra.
    assert (Hm : 1 <= Qfloor ix).
    { change 1 with (Qfloor 1). apply Qfloor_resp_le. exact Hi1. }
    destruct (floor_quarter_down (Qfloor ix) Hm) as (Hj0 & Hlo & Hhi).
    set (j := Z.log2 (Qfloor ix) / 2) in *.
    pose proof (Qfloor_le ix) as Hf1. pose proof (Qlt_floor ix) as Hf2.
    rewrite Zle_Qle in Hlo. rewrite Z.lt_le_pred in Hhi.
    assert (Hhi' : (inject_Z (Qfloor ix + 1) <= inject_Z (4 ^ (j + 1)))%Q)
      by (rewrite <- Zle_Qle; lia).
    replace (- j - 1) with (- (j + 1)) by lia.
    rewrite !Qpower_opp, !Qpower4 by lia.
    set (P := inject_Z (4 ^ j)) in *. set (P' := inject_Z (4 ^ (j + 1))) in *.
    assert (HP : (0 < P)%Q).
    { unfold P. change 0%Q with (inject_Z 0). rewrite <- Zlt_Qlt.
      apply Z.pow_pos_nonneg; lia. }
    assert (HP' : (0 < P')%Q) by lra.
    assert (HiP : (P * / P == 1)%Q) by (apply Qmult_inv_r; lra).
    assert (HiP' : (P' * / P' == 1)%Q) by (apply Qmult_inv_r; lra).
    assert (HiPpos : (0 < / P)%Q) by (apply Qinv_lt_0_compat; exact HP).
    assert (HiP'pos : (0 < / P')%Q) by (apply Qinv_lt_0_compat; exact HP').
    set (iP := (/ P)%Q) in *. set (iP' := (/ P')%Q) in *.
    split.
    + assert (H1 : (1 < x * P')%Q) by nra.
      assert (H2 : (iP' * 1 < iP' * (x * P'))%Q) by nra.
      setoid_replace (iP' * (x * P'))%Q with (x * (P' * iP'))%Q in H2 by ring.
      rewrite HiP' in H2. lra.
    + assert (H1 : (x * P <= 1)%Q) by nra.
      assert (H2 : (iP * (x * P) <= iP * 1)%Q) by nra.
      setoid_replace (iP * (x * P))%Q with (x * (P * iP))%Q in H2 by ring.
      rewrite HiP in H2. lra.
Qed.

(** ** The yielded object is one and the same *)

(** [hilbert] yields its list [pos] itself, not a copy: whoever keeps the
    yielded objects instead of unpacking them at once finds the last
    content of [pos] in every one of them. *)
Lemma hilbert_collected_alias (order : nat) (s : CurveStep) :
  In s (Hilbert.hilbert_collected order) ->
  s = snd (Hilbert.walk order Hilbert.URDR (2 ^ Z.of_nat order - 1, 0, 0)).
Proof.
  unfold Hilbert.hilbert_collected.
  destruct (Hilbert.walk order Hilbert.URDR _) as [out p]. cbn [snd].
  intros H. apply in_map_iff in H. destruct H as (_ & E & _). symmetry. exact E.
Qed.

Example hilbert_collected_order_1 :
  Hilbert.hilbert_collected 1 = [(1, 2, 4); (1, 2, 4); (1, 2, 4); (1, 2, 4)].
Proof. reflexivity. Qed.

(** ** Coverage fractions are fractions *)

Lemma py_mod_range (a b : Q) : (0 < b)%Q -> (0 <= py_mod a b < b)%Q.
Proof.
  intros Hb. unfold py_mod.
  pose proof (Qfloor_le (a / b)) as Hlo. pose proof (Qlt_floor (a / b)) as Hhi.
  rewrite inject_Z_plus in Hhi. change (inject_Z 1) with 1%Q in Hhi.
  set (f := inject_Z (Qfloor (a / b))) in *.
  assert (Hab : (a / b * b == a)%Q) by (field; lra).
  set (d := (a / b)%Q) in *. nra.
Qed.

Lemma pct_of_first_pixel_range (bpp : Q) (first_byte : Z) :
  (0 < bpp)%Q -> (0 < Grid.pct_of_first_pixel bpp first_byte <= 1)%Q.
Proof.
  intros Hb. unfold Grid.pct_of_first_pixel.
  pose proof (py_mod_range (inject_Z first_byte) bpp Hb) as Hm.
  set (m := py_mod (inject_Z first_byte) bpp) in *.
  split.
  - apply Qlt_shift_div_l; [exact Hb | lra].
  - apply Qle_shift_div_r; [exact Hb | lra].
Qed.

Lemma pct_of_last_pixel_range (bpp : Q) (first_byte length : Z) :
  (0 < bpp)%Q -> (0 < Grid.pct_of_last_pixel bpp first_byte length <= 1)%Q.
Proof.
  intros Hb. unfold Grid.pct_of_last_pixel.
  pose proof (py_mod_range (inject_Z (first_byte + length)) bpp Hb) as Hm.
  set (m := py_mod (inject_Z (first_byte + length)) bpp) in *.
  destruct (Qeq_bool (m / bpp) 0) eqn:E; [lra |].
  apply Qeq_bool_neq in E.
  assert (H0 : (0 <= m / bpp)%Q) by (apply Qle_shift_div_l; [exact Hb | lra]).
  split.
  - destruct (Qlt_le_dec 0 (m / bpp)) as [H | H]; [exact H |].
    exfalso. apply E. apply Qle_antisym; assumption.
  - apply Qle_shift_div_r; [exact Hb | lra].
Qed.

Lemma coverage_app (mix : list Grid.mix_entry) (e : Grid.mix_entry) :
  (coverage (mix ++ [e]) == coverage mix + Grid.entry_pct e)%Q.
Proof.
  unfold coverage, Grid.py_sum. rewrite fold_left_app. reflexivity.
Qed.

(** The conditions of [fill_ready] on composites, from bounds on the
    entries: with a minimum brightness that is a fraction, pending entries
    and a color within bounds, and a first pixel whose coverage stays
    within 1, every composite of the fill can be packed. *)
Lemma fill_ready_bounded
    (g : Grid.t) (first_byte length : Z) (used_pct : Q) (c : color) :
  let bpp := Grid.bytes_per_pixel g in
  let first_pixel := Grid.first_pixel_of bpp first_byte in
  let last_pixel := Grid.last_pixel_of bpp first_byte length in
  wf g ->
  Grid._finished g = false ->
  (0 < bpp)%Q ->
  Grid.linear g <= first_pixel ->
  last_pixel <= Grid.linear g + Z.of_nat (List.length (Grid.curve g)) ->
  (0 <= Grid._min_brightness g <= 1)%Q ->
  Forall entry_bounded (Grid._pixel_mix g) ->
  entry_bounded (c, used_pct, 1%Q) ->
  (coverage (Grid._pixel_mix g) <= 1)%Q ->
  (coverage (first_mix g first_pixel) + Grid.pct_of_first_pixel bpp first_byte <= 1)%Q ->
  fill_ready g first_byte length used_pct c.
Proof.
  intros bpp fp lp Hwf Hfin Hbpp Hle Hend Hmb Hmix Hc Hcov Hcov1.
  pose proof (pct_of_first_pixel_range bpp first_byte Hbpp) as Hp1.
  unfold fill_ready. fold bpp. fold fp. fold lp.
  split; [exact Hwf |]. split; [exact Hfin |].
  split; [intros E; rewrite E in Hbpp; apply (Qlt_irrefl 0 Hbpp) |].
  split; [exact Hle |]. split; [exact Hend |].
  split; [intros _ _; apply packable_bounded; assumption |].
  split.
  - apply packable_bounded; [exact Hmb | |].
    + apply Forall_app. split.
      * unfold first_mix. destruct (Grid.linear g <? fp); [constructor | exact Hmix].
      * constructor; [| constructor].
        destruct Hc as (H0 & H1 & H2 & Hu & _).
        unfold entry_bounded. cbn in *. repeat split; try tauto; lra.
    + rewrite coverage_app. exact Hcov1.
  - intros _. apply packable_bounded; [exact Hmb | |].
    + constructor; [exact Hc | constructor].
    + unfold coverage, Grid.py_sum. cbn. lra.
Qed.

(* ================================================================== *)
(** * Further properties of the code *)

(** ** What choose_order_size returns and when it raises *)

(** X3. Whenever [choose_order_size] returns, the order does not exceed the
    size; an explicit size and an explicit order are returned unchanged; an
    auto-derived order is at most 10; and a size left unset becomes 10, or
    the order when that is larger. *)
Theorem choose_order_size_returns
    (order size : option Z) (total_bytes default_granularity o s : Z) :
  choose_order_size order size total_bytes default_granularity = Ok (o, s) ->
  o <= s /\
  (forall s0, size = Some s0 -> s = s0) /\
  (forall o0, order = Some o0 -> o = o0) /\
  (order = None -> o <= 10) /\
  (size = None -> s = Z.max 10 o).
Proof.
  unfold choose_order_size. intros H.
  destruct order as [o0 |].
  - cbn [bind] in H.
    destruct size as [s0 |].
    + destruct (Z.ltb_spec s0 o0); [discriminate |]. inversion H; subst.
      repeat (match goal with |- _ /\ _ => split end); intros; congruence || lia.
    + destruct (Z.gtb_spec o0 10).
      * destruct (Z.ltb_spec o0 o0); [lia |]. inversion H; subst.
        repeat (match goal with |- _ /\ _ => split end); intros; congruence || lia.
      * destruct (Z.ltb_spec 10 o0); [lia |]. inversion H; subst.
        repeat (match goal with |- _ /\ _ => split end); intros; congruence || lia.
  - unfold auto_order in H.
    destruct (default_granularity =? 0); [discriminate |].
    destruct (Qle_bool _ 0); [discriminate |]. cbn [bind] in H.
    set (a := Z.min 10 _) in H.
    assert (Ha : a <= 10) by (unfold a; lia).
    destruct size as [s0 |].
    + destruct (Z.ltb_spec s0 a); inversion H; subst;
      repeat (match goal with |- _ /\ _ => split end); intros; congruence || lia.
    + destruct (Z.gtb_spec a 10); [lia |].
      destruct (Z.ltb_spec 10 a); [lia |]. inversion H; subst.
      repeat (match goal with |- _ /\ _ => split end); intros; congruence || lia.
Qed.

Lemma choose_order_size_returns_witness :
  3 <= 3 /\ (forall s0, Some 3 = Some s0 -> 3 = s0).
Proof.
  destruct (choose_order_size_returns None (Some 3) (1025 * 33554432) 33554432 3 3)
    as (H1 & H2 & _).
  - vm_compute. reflexivity.
  - split; assumption.
Defined.

(** X4. [choose_order_size] raises in three cases only: an explicit order
    above an explicit size (HeatmapError); an unset order with granularity
    0 (ZeroDivisionError); an unset order with a ratio of bytes to
    granularity that is not positive (ValueError, from the logarithm). *)
Theorem choose_order_size_raises
    (order size : option Z) (total_bytes default_granularity : Z) (e : exn) :
  choose_order_size order size total_bytes default_granularity = Raise e <->
  (exists o0 s0, order = Some o0 /\ size = Some s0 /\ s0 < o0 /\ e = HeatmapError) \/
  (order = None /\ default_granularity = 0 /\ e = ZeroDivisionError) \/
  (order = None /\ default_granularity <> 0 /\
   (inject_Z total_bytes / inject_Z default_granularity <= 0)%Q /\ e = ValueError).
Proof.
  unfold choose_order_size. split.
  - intros H. destruct order as [o0 |].
    + cbn [bind] in H. left. destruct size as [s0 |].
      * destruct (Z.ltb_spec s0 o0); [| discriminate].
        inversion H. exists o0, s0. auto.
      * exfalso. destruct (Z.gtb_spec o0 10).
        -- destruct (Z.ltb_spec o0 o0); [lia | discriminate].
        -- destruct (Z.ltb_spec 10 o0); [lia | discriminate].
    + right. unfold auto_order in H.
      destruct (Z.eqb_spec default_granularity 0) as [E0 | NE0].
      * left. inversion H. auto.
      * right. destruct (Qle_bool _ 0) eqn:Eq.
        -- apply Qle_bool_iff in Eq. inversion H. auto.
        -- exfalso. cbn [bind] in H. set (a := Z.min 10 _) in H.
           destruct size as [s0 |].
           ++ destruct (s0 <? a); discriminate.
           ++ destruct (a >? 10); destruct (_ <? a); discriminate.
  - intros [(o0 & s0 & -> & -> & Hlt & ->) | [(-> & Hg & ->) | (-> & Hg & Hq & ->)]].
    + cbn [bind]. destruct (Z.ltb_spec s0 o0); [reflexivity | lia].
    + unfold auto_order. rewrite Hg. reflexivity.
    + unfold auto_order.
      destruct (Z.eqb_spec default_granularity 0); [contradiction |].
      apply Qle_bool_iff in Hq. rewrite Hq. reflexivity.
Qed.

Lemma choose_order_size_raises_witness :
  choose_order_size (Some 5) (Some 3) 20 1 = Raise HeatmapError.
Proof.
  apply (proj2 (choose_order_size_raises (Some 5) (Some 3) 20 1 HeatmapError)).
  left. exists 5, 3. repeat split.
Defined.

(** X5. The auto-derived order against the granularity, when the total
    is a whole number [m >= 1] of granules: the size is 10, the order [o]
    lies between 0 and 10, unless it was capped at 10 the grid has at least
    as many pixels as there are granules, [m <= 4^o], and no smaller order
    would do, [4^(o-1) < m]. *)
Theorem auto_order_granularity (m default_granularity o s : Z) :
  1 <= m -> 0 < default_granularity ->
  choose_order_size None None (m * default_granularity) default_granularity
  = Ok (o, s) ->
  s = 10 /\ 0 <= o <= 10 /\
  (o < 10 -> m <= 4 ^ o) /\
  (0 < o -> 4 ^ (o - 1) < m).
Proof.
  intros Hm Hg H. unfold choose_order_size in H.
  assert (Ht : 0 < m * default_granularity) by (apply Z.mul_pos_pos; lia).
  rewrite (auto_order_defined _ _ Ht Hg) in H. cbn [bind] in H.
  set (x := (inject_Z (m * default_granularity) / inject_Z default_granularity)%Q) in *.
  assert (Hgq : ~ (inject_Z default_granularity == 0)%Q).
  { change 0%Q with (inject_Z 0). rewrite inject_Z_injective. lia. }
  assert (Ex : (x == inject_Z m)%Q).
  { unfold x. rewrite inject_Z_mult. field. exact Hgq. }
  assert (Hx1 : (1 <= x)%Q).
  { rewrite Ex. change 1%Q with (inject_Z 1). rewrite <- Zle_Qle. exact Hm. }
  assert (Hx0 : (0 < x)%Q) by (apply Qlt_le_trans with 1%Q; [reflexivity | exact Hx1]).
  destruct (ceil_log2_sqrt_spec x Hx0) as [Hlo Hhi].
  set (k := ceil_log2_sqrt x) in *.
  assert (Hk : 0 <= k).
  { destruct (Z.le_gt_cases 0 k) as [? | Hneg]; [assumption | exfalso].
    assert (H4 : (4 ^ k <= 4 ^ (-1))%Q)
      by (apply Qpower_le_compat_l; [lia | unfold Qle; cbn; lia]).
    change (4 ^ (-1))%Q with (1 # 4)%Q in H4. lra. }
  destruct (Z.gtb_spec (Z.min 10 k) 10); [lia |].
  destruct (Z.ltb_spec 10 (Z.min 10 k)); [lia |].
  inversion H; subst. clear H.
  rewrite Ex in Hlo, Hhi.
  split; [reflexivity |]. split; [lia |]. split.
  - intros Ho. rewrite Z.min_r in * by lia.
    rewrite Qpower4 in Hhi by exact Hk. rewrite <- Zle_Qle in Hhi. exact Hhi.
  - intros Ho.
    assert (Hlt : (4 ^ (Z.min 10 k - 1) < inject_Z m)%Q).
    { apply Qle_lt_trans with (4 ^ (k - 1))%Q; [| exact Hlo].
      apply Qpower_le_compat_l; [lia | unfold Qle; cbn; lia]. }
    rewrite Qpower4 in Hlt by lia. rewrite <- Zlt_Qlt in Hlt. exact Hlt.
Qed.

Lemma auto_order_granularity_witness : 4 ^ (6 - 1) < 1025.
Proof.
  refine (proj2 (proj2 (proj2
            (auto_order_granularity 1025 33554432 6 10 _ _ _))) _).
  - intros H. discriminate H.
  - reflexivity.
  - vm_compute. reflexivity.
  - reflexivity.
Defined.

(** X6. More bytes never give a smaller auto-derived order. *)
Theorem auto_order_monotone (t1 t2 g o1 o2 : Z) :
  0 < g -> 0 < t1 <= t2 ->
  auto_order t1 g = Ok o1 -> auto_order t2 g = Ok o2 -> o1 <= o2.
Proof.
  intros Hg [Ht1 Ht12] H1 H2.
  rewrite auto_order_defined in H1, H2 by lia.
  inversion H1; inversion H2; subst. clear H1 H2.
  set (x1 := (inject_Z t1 / inject_Z g)%Q). set (x2 := (inject_Z t2 / inject_Z g)%Q).
  assert (Hgq : (0 < inject_Z g)%Q)
    by (change 0%Q with (inject_Z 0); rewrite <- Zlt_Qlt; exact Hg).
  assert (Hx1 : (0 < x1)%Q).
  { unfold x1. apply Qlt_shift_div_l; [exact Hgq |].
    rewrite Qmult_0_l. change 0%Q with (inject_Z 0). rewrite <- Zlt_Qlt. exact Ht1. }
  assert (Hx12 : (x1 <= x2)%Q).
  { unfold x1, x2, Qdiv. apply Qmult_le_compat_r.
    - rewrite <- Zle_Qle. exact Ht12.
    - apply Qlt_le_weak. apply Qinv_lt_0_compat. exact Hgq. }
  assert (Hx2 : (0 < x2)%Q) by lra.
  destruct (ceil_log2_sqrt_spec x1 Hx1) as [Hlo1 _].
  destruct (ceil_log2_sqrt_spec x2 Hx2) as [_ Hhi2].
  assert (Hlt : (4 ^ (ceil_log2_sqrt x1 - 1) < 4 ^ ceil_log2_sqrt x2)%Q) by lra.
  apply Qpower_lt_compat_l_inv in Hlt; [| reflexivity]. lia.
Qed.

Lemma auto_order_monotone_witness : 5 <= 6.
Proof.
  apply (auto_order_monotone (1024 * 33554432) (1025 * 33554432) 33554432 5 6).
  - reflexivity.
  - split; [reflexivity | intros E; discriminate E].
  - reflexivity.
  - vm_compute. reflexivity.
Defined.

(** ** What a fill that returns has done *)

Lemma advanced_refl (g : Grid.t) : advanced g g.
Proof. split; [apply frame_refl | split; [reflexivity | lia]]. Qed.

Lemma advanced_trans (g1 g2 g3 : Grid.t) :
  advanced g1 g2 -> advanced g2 g3 -> advanced g1 g3.
Proof.
  intros (F1 & E1 & L1) (F2 & E2 & L2).
  split; [exact (frame_trans _ _ _ F1 F2) | split; [congruence | lia]].
Qed.

(** A [_next_pixel] that returns has committed the pending pixel and
    taken the next step. *)
Lemma next_pixel_returned (g g' : Grid.t) :
  wf g -> Grid._next_pixel g = Ok g' ->
  exists s rest,
    Grid.curve g = s :: rest /\ g' = Grid.with_cursor (settle g) s rest /\
    (Grid._pixel_dirty g = true ->
     packable (Grid._min_brightness g) (Grid._pixel_mix g)).
Proof.
  intros Hwf H.
  assert (Hp : Grid._pixel_dirty g = true ->
               packable (Grid._min_brightness g) (Grid._pixel_mix g)).
  { intros Hd. unfold Grid._next_pixel in H. rewrite Hd in H.
    destruct (Grid._finish_pixel g) as [g1 |] eqn:E; [| discriminate].
    unfold Grid._finish_pixel in E.
    destruct (Grid._pixel_mix_to_rgbytes g) as [r |] eqn:Er; [| discriminate].
    apply (returned_packable g r); [apply Hwf | exact Er]. }
  destruct (Grid.curve g) as [| s rest] eqn:Ec.
  - exfalso. unfold Grid._next_pixel in H.
    destruct (Grid._pixel_dirty g) eqn:Hd.
    + rewrite (finish_pixel_ok g Hwf (Hp eq_refl)) in H. cbn [bind] in H.
      unfold commit in H. cbn [Grid.curve Grid.with_mix Grid.with_grid Grid.with_cache] in H.
      rewrite Ec in H. discriminate.
    + cbn [bind] in H. rewrite Ec in H. discriminate.
  - exists s, rest. split; [reflexivity |]. split; [| exact Hp].
    rewrite (next_pixel_ok g s rest Hwf Hp Ec) in H. inversion H. reflexivity.
Qed.

Lemma advanced_next_pixel (g g' : Grid.t) :
  wf g -> Grid._next_pixel g = Ok g' ->
  advanced g g' /\ Grid.linear g' = Grid.linear g + 1.
Proof.
  intros Hwf H.
  destruct (next_pixel_returned g g' Hwf H) as (s & rest & Ec & -> & _).
  pose proof Hwf as (_ & _ & _ & Hfol & _).
  rewrite Ec in Hfol. cbn [follows] in Hfol. destruct Hfol as [Hs _].
  assert (Hlin : Grid.linear (Grid.with_cursor (settle g) s rest) = Grid.linear g + 1)
    by (cbn [Grid.linear Grid.with_cursor]; exact Hs).
  split; [| exact Hlin].
  split; [| split].
  - apply (frame_trans _ (settle g)); [apply frame_settle |].
    unfold frame. cbn [Grid.with_cursor Grid.order Grid.size Grid.height Grid.width
                       Grid.num_steps Grid.total_bytes Grid.bytes_per_pixel
                       Grid._finished Grid._min_brightness].
    repeat split.
  - unfold end_index. rewrite Hlin, Ec.
    cbn [Grid.curve Grid.with_cursor length]. lia.
  - lia.
Qed.

Lemma advanced_set_pixel (g g' : Grid.t) (b : rgbytes) :
  wf g -> Grid._set_pixel g b = Ok g' ->
  advanced g g' /\ Grid.linear g' = Grid.linear g.
Proof.
  intros Hwf H. pose proof Hwf as (Hd & Hyx & _).
  rewrite (set_pixel_ok g b Hd Hyx) in H. inversion H.
  split; [| reflexivity]. split; [| split].
  - unfold frame. cbn. repeat split.
  - reflexivity.
  - cbn. lia.
Qed.

Lemma advanced_add_to_pixel_mix (g : Grid.t) (c : color) (u p : Q) :
  advanced g (Grid._add_to_pixel_mix g c u p).
Proof.
  split; [| split].
  - unfold frame. cbn. repeat split.
  - reflexivity.
  - cbn. lia.
Qed.

(** The loop of [fill] that skips to a pixel stops on or after it. *)
Lemma advanced_advance_loop (fuel : nat) (limit : Z) :
  forall g g', wf g -> Grid.advance_loop fuel limit g = Ok g' ->
               advanced g g' /\ limit <= Grid.linear g'.
Proof.
  induction fuel as [| fuel IH]; intros g g' Hwf H; cbn [Grid.advance_loop] in H;
    destruct (Z.ltb_spec (Grid.linear g) limit); try discriminate;
    try (inversion H; subst; split; [apply advanced_refl | assumption]).
  destruct (Grid._next_pixel g) as [g1 |] eqn:E; [| discriminate].
  cbn [bind] in H.
  destruct (advanced_next_pixel g g1 Hwf E) as [A1 _].
  destruct (IH g1 g' (wf_next_pixel g g1 Hwf E) H) as [A2 Hl].
  split; [exact (advanced_trans _ _ _ A1 A2) | exact Hl].
Qed.

Lemma advanced_paint_loop (fuel : nat) (limit : Z) (b : rgbytes) :
  forall g g', wf g -> Grid.paint_loop fuel limit b g = Ok g' ->
               advanced g g' /\ limit <= Grid.linear g'.
Proof.
  induction fuel as [| fuel IH]; intros g g' Hwf H; cbn [Grid.paint_loop] in H;
    destruct (Z.ltb_spec (Grid.linear g) limit); try discriminate;
    try (inversion H; subst; split; [apply advanced_refl | assumption]).
  destruct (Grid._next_pixel g) as [g1 |] eqn:E; [| discriminate].
  cbn [bind] in H.
  destruct (Grid._set_pixel g1 b) as [g2 |] eqn:E2; [| discriminate].
  cbn [bind] in H.
  pose proof (wf_next_pixel g g1 Hwf E) as Hwf1.
  destruct (advanced_next_pixel g g1 Hwf E) as [A1 _].
  destruct (advanced_set_pixel g1 g2 b Hwf1 E2) as [A2 _].
  destruct (IH g2 g' (wf_set_pixel g1 g2 b Hwf1 E2) H) as [A3 Hl].
  split; [exact (advanced_trans _ _ _ A1 (advanced_trans _ _ _ A2 A3)) | exact Hl].
Qed.

(** A [_pixel_mix_to_rgbytes] that returns has touched the cache only. *)
Lemma pixel_mix_to_rgbytes_returned (g g' : Grid.t) (b : rgbytes) :
  wf g -> Grid._pixel_mix_to_rgbytes g = Ok (b, g') ->
  wf g' /\ advanced g g' /\ Grid.linear g' = Grid.linear g.
Proof.
  intros Hwf H.
  pose proof (returned_packable _ _ ltac:(apply Hwf) H) as Hp.
  rewrite (pixel_mix_to_rgbytes_ok _ ltac:(apply Hwf) Hp) in H.
  inversion H; subst. split; [| split].
  - destruct Hwf as (Hd & Hyx & Hin & Hfol & Hc & Hm).
    unfold wf. wf_split; try assumption.
    apply cache_add_ok; [exact Hc | apply packable_packed; exact Hp].
  - split; [| split].
    + unfold frame. cbn. repeat split.
    + reflexivity.
    + cbn. lia.
  - reflexivity.
Qed.

(** Every [fill] that returns has moved the cursor forward only, to a
    pixel on or after the last one of its range, and has left that pixel
    pending. *)
Lemma fill_returned (g g' : Grid.t) (first_byte length : Z) (used_pct : Q) (c : color) :
  wf g -> Grid.fill g first_byte length used_pct c = Ok g' ->
  advanced g g' /\
  Grid.last_pixel_of (Grid.bytes_per_pixel g) first_byte length <= Grid.linear g' /\
  Grid._pixel_dirty g' = true /\
  Grid._finished g = false.
Proof.
  intros Hwf H. unfold Grid.fill in H.
  destruct (Grid._finished g); [discriminate |].
  destruct (Qeq_bool (Grid.bytes_per_pixel g) 0); [discriminate |].
  destruct (Grid.advance_to _ g) as [g1 |] eqn:E1; [| discriminate].
  cbn [bind] in H. unfold Grid.advance_to in E1.
  pose proof (wf_advance_loop _ _ g g1 Hwf E1) as Hwf1.
  destruct (advanced_advance_loop _ _ g g1 Hwf E1) as [A1 L1].
  set (fp := Grid.first_pixel_of _ _) in *.
  set (lp := Grid.last_pixel_of _ _ _) in *.
  destruct (Z.eqb_spec fp lp) as [Efl | Nfl].
  - inversion H; subst g'. clear H.
    split; [| split; [| split; reflexivity]].
    + exact (advanced_trans _ _ _ A1 (advanced_add_to_pixel_mix _ _ _ _)).
    + cbn [Grid.linear Grid._add_to_pixel_mix Grid.with_mix]. lia.
  - set (ga := Grid._add_to_pixel_mix g1 c used_pct _) in H.
    assert (Hwfa : wf ga) by (apply wf_add_to_pixel_mix; exact Hwf1).
    assert (Aa : advanced g ga)
      by exact (advanced_trans _ _ _ A1 (advanced_add_to_pixel_mix _ _ _ _)).
    match type of H with
    | bind ?m _ = _ => destruct m as [g2 |] eqn:E2; [| discriminate]
    end.
    cbn [bind] in H.
    assert (H2 : wf g2 /\ advanced g g2 /\ lp - 1 <= Grid.linear g2).
    { destruct (Z.ltb_spec (Grid.linear ga) (lp - 1)) as [Hlt | Hge].
      - destruct (Grid._next_pixel ga) as [gb |] eqn:Eb; [| discriminate].
        cbn [bind] in E2.
        pose proof (wf_next_pixel _ _ Hwfa Eb) as Hwfb.
        destruct (advanced_next_pixel _ _ Hwfa Eb) as [Ab _].
        set (gc := Grid._add_to_pixel_mix gb c used_pct 1%Q) in E2.
        assert (Hwfc : wf gc) by (apply wf_add_to_pixel_mix; exact Hwfb).
        destruct (Grid._pixel_mix_to_rgbytes gc) as [[bytes gd] |] eqn:Ed;
          [| discriminate].
        cbn [bind] in E2.
        destruct (pixel_mix_to_rgbytes_returned _ _ _ Hwfc Ed) as (Hwfd & Ad & _).
        destruct (Grid._set_pixel gd bytes) as [ge |] eqn:Ee; [| discriminate].
        cbn [bind] in E2.
        pose proof (wf_set_pixel _ _ _ Hwfd Ee) as Hwfe.
        destruct (advanced_set_pixel _ _ _ Hwfd Ee) as [Ae _].
        unfold Grid.paint_to in E2.
        destruct (advanced_paint_loop _ _ _ _ _ Hwfe E2) as [Af Lf].
        split; [exact (wf_paint_loop _ _ _ _ _ Hwfe E2) |].
        split; [| exact Lf].
        apply (advanced_trans _ ga); [exact Aa |].
        apply (advanced_trans _ gb); [exact Ab |].
        apply (advanced_trans _ gc); [apply advanced_add_to_pixel_mix |].
        apply (advanced_trans _ gd); [exact Ad |].
        apply (advanced_trans _ ge); [exact Ae | exact Af].
      - inversion E2; subst g2. split; [exact Hwfa |]. split; [exact Aa | exact Hge]. }
    destruct H2 as (Hwf2 & A2 & L2).
    destruct (Grid._next_pixel g2) as [g3 |] eqn:E3; [| discriminate].
    cbn [bind] in H. inversion H; subst g'. clear H.
    destruct (advanced_next_pixel _ _ Hwf2 E3) as [A3 L3].
    split; [| split; [| split; reflexivity]].
    + apply (advanced_trans _ g2); [exact A2 |].
      apply (advanced_trans _ g3); [exact A3 | apply advanced_add_to_pixel_mix].
    + cbn [Grid.linear Grid._add_to_pixel_mix Grid.with_mix]. lia.
Qed.

(** X7. A run of fills, as the walks over the file system make it, keeps the
    invariant of the grid, changes none of its settings, never moves the
    cursor back and never loses a step of the curve; every span it was
    given ends on or before the pixel under the cursor. *)
Theorem fill_all_returned (spans : list span) :
  forall g g' : Grid.t,
    wf g -> fill_all g spans = Ok g' ->
    wf g' /\ frame g g' /\
    end_index g' = end_index g /\
    Grid.linear g <= Grid.linear g' /\
    Forall (fun sp => span_last_pixel g sp <= Grid.linear g') spans.
Proof.
  induction spans as [| [[[fb len] u] c] spans IH]; intros g g' Hwf H;
    cbn [fill_all] in H.
  - inversion H; subst.
    destruct (advanced_refl g') as (F & E & L).
    repeat (match goal with |- _ /\ _ => split end); auto.
  - destruct (Grid.fill g fb len u c) as [g1 |] eqn:E1; [| discriminate].
    cbn [bind] in H.
    destruct (fill_returned _ _ _ _ _ _ Hwf E1) as ((F1 & En1 & L1) & Hlp & _ & _).
    destruct (IH g1 g' (wf_fill _ _ _ _ _ _ Hwf E1) H) as (Hwf' & F2 & En2 & L2 & Hall).
    repeat (match goal with |- _ /\ _ => split end).
    + exact Hwf'.
    + exact (frame_trans _ _ _ F1 F2).
    + congruence.
    + lia.
    + constructor.
      * cbn [span_last_pixel]. lia.
      * assert (Hbpp : Grid.bytes_per_pixel g1 = Grid.bytes_per_pixel g) by apply F1.
        eapply Forall_impl; [| exact Hall].
        intros [[[fb' len'] u'] c']. cbn [span_last_pixel]. rewrite Hbpp. auto.
Qed.

Lemma fill_all_returned_witness :
  exists g' : Grid.t,
    fill_all small_grid [(0, 5, 1%Q, white); (5, 10, (1 # 2)%Q, white)] = Ok g' /\
    end_index g' = end_index small_grid.
Proof.
  eexists. split; [vm_compute; reflexivity |].
  refine (proj1 (proj2 (proj2
    (fill_all_returned [(0, 5, 1%Q, white); (5, 10, (1 # 2)%Q, white)]
       small_grid _ wf_small_grid _)))).
  vm_compute. reflexivity.
Defined.

(** X8. A span whose last pixel lies beyond the end of the curve cannot be
    filled: the call raises. *)
Theorem fill_beyond_curve_raises
    (g : Grid.t) (first_byte length : Z) (used_pct : Q) (c : color) :
  wf g ->
  end_index g < Grid.last_pixel_of (Grid.bytes_per_pixel g) first_byte length ->
  is_ok (Grid.fill g first_byte length used_pct c) = false.
Proof.
  intros Hwf Hend.
  destruct (Grid.fill g first_byte length used_pct c) as [g' |] eqn:E; [| reflexivity].
  exfalso.
  destruct (fill_returned _ _ _ _ _ _ Hwf E) as ((_ & En & _) & Hlp & _).
  unfold end_index in *.
  pose proof (Nat2Z.is_nonneg (List.length (Grid.curve g'))). lia.
Qed.

Lemma fill_beyond_curve_raises_witness :
  is_ok (Grid.fill small_grid 15 10 1%Q white) = false.
Proof.
  apply (fill_beyond_curve_raises small_grid 15 10 1%Q white wf_small_grid).
  vm_compute. reflexivity.
Defined.

(** ** A span within one pixel *)

(** X9. A span that lies within one pixel ahead of the cursor, or under it:
    the cursor goes to that pixel, committing the pixel it leaves if that
    one was pending, and the span is added to what the pixel already holds,
    with [length / bytes_per_pixel] for its coverage.  Nothing else of the
    buffer changes and the pixel stays pending. *)
Theorem fill_within_one_pixel
    (g : Grid.t) (first_byte length : Z) (used_pct : Q) (c : color)
    (skipped tail : list CurveStep) :
  let bpp := Grid.bytes_per_pixel g in
  let mb := Grid._min_brightness g in
  let first_pixel := Grid.first_pixel_of bpp first_byte in
  let last_pixel := Grid.last_pixel_of bpp first_byte length in
  wf g ->
  Grid._finished g = false ->
  ~ (bpp == 0)%Q ->
  first_pixel = last_pixel ->
  Grid.curve g = skipped ++ tail ->
  Grid.linear g + Z.of_nat (List.length skipped) = first_pixel ->
  (skipped <> [] -> Grid._pixel_dirty g = true -> packable mb (Grid._pixel_mix g)) ->
  exists g' : Grid.t,
    Grid.fill g first_byte length used_pct c = Ok g' /\
    wf g' /\
    (Grid.y g', Grid.x g') = step_yx (last skipped (cursor g)) /\
    Grid.linear g' = first_pixel /\
    Grid.curve g' = tail /\
    Grid._pixel_dirty g' = true /\
    Grid._pixel_mix g' =
      first_mix g first_pixel ++ [(c, used_pct, (inject_Z length / bpp)%Q)] /\
    Grid._grid g' =
      apply_writes (Grid._grid g)
        (match skipped with
         | [] => []
         | _ => if Grid._pixel_dirty g
                then [((Grid.y g, Grid.x g), packed mb (Grid._pixel_mix g))]
                else []
         end).
Proof.
  intros bpp mb first_pixel last_pixel Hwf Hfin Hbpp Hone Hcurve Hlen Hpack.
  destruct (advance_to_spec g first_pixel skipped tail Hwf Hpack Hcurve Hlen)
    as (g1 & Hadv & Hwf1 & _ & Hlin1 & Hc1 & Hmix1 & Hgrid1 & Hyx1).
  exists (Grid._add_to_pixel_mix g1 c used_pct (inject_Z length / bpp)%Q).
  repeat (match goal with |- _ /\ _ => split end).
  - unfold Grid.fill. rewrite Hfin.
    destruct (Qeq_bool (Grid.bytes_per_pixel g) 0) eqn:E0.
    + exfalso. apply Hbpp. apply Qeq_bool_iff. exact E0.
    + fold bpp first_pixel last_pixel. rewrite Hadv. cbn [bind].
      rewrite <- Hone, Z.eqb_refl. reflexivity.
  - apply wf_add_to_pixel_mix. exact Hwf1.
  - cbn [Grid.y Grid.x Grid._add_to_pixel_mix Grid.with_mix]. exact Hyx1.
  - cbn [Grid.linear Grid._add_to_pixel_mix Grid.with_mix]. exact Hlin1.
  - cbn [Grid.curve Grid._add_to_pixel_mix Grid.with_mix]. exact Hc1.
  - reflexivity.
  - cbn [Grid._pixel_mix Grid._add_to_pixel_mix Grid.with_mix].
    rewrite Hmix1, (first_mix_skipped g first_pixel skipped Hlen). reflexivity.
  - cbn [Grid._grid Grid._add_to_pixel_mix Grid.with_mix]. exact Hgrid1.
Qed.

Lemma fill_within_one_pixel_witness :
  exists g' : Grid.t,
    Grid.fill small_grid 6 3 1%Q white = Ok g' /\
    Grid._pixel_mix g' = [(white, 1%Q, (inject_Z 3 / (20 # 4))%Q)].
Proof.
  destruct (fill_within_one_pixel small_grid 6 3 1%Q white
              [(0, 0, 1)] [(0, 1, 2); (1, 1, 3)])
    as (g' & Hfill & _ & _ & _ & _ & _ & Hmix & _).
  - exact wf_small_grid.
  - reflexivity.
  - intros H. discriminate H.
  - reflexivity.
  - reflexivity.
  - reflexivity.
  - intros _ H. discriminate H.
  - exists g'. split; [exact Hfill | exact Hmix].
Defined.

(** X10. A span that starts behind the cursor is not refused.  When it lies
    within one pixel, it is charged to the pixel under the cursor, whichever
    pixel its bytes belong to, and nothing else changes. *)
Theorem fill_behind_cursor
    (g : Grid.t) (first_byte length : Z) (used_pct : Q) (c : color) :
  let bpp := Grid.bytes_per_pixel g in
  Grid._finished g = false ->
  ~ (bpp == 0)%Q ->
  Grid.first_pixel_of bpp first_byte = Grid.last_pixel_of bpp first_byte length ->
  Grid.first_pixel_of bpp first_byte <= Grid.linear g ->
  Grid.fill g first_byte length used_pct c =
  Ok (Grid._add_to_pixel_mix g c used_pct (inject_Z length / bpp)%Q).
Proof.
  intros bpp Hfin Hbpp Hone Hbehind.
  unfold Grid.fill. rewrite Hfin.
  destruct (Qeq_bool (Grid.bytes_per_pixel g) 0) eqn:E0.
  - exfalso. apply Hbpp. apply Qeq_bool_iff. exact E0.
  - fold bpp. unfold Grid.advance_to.
    rewrite (advance_loop_done _ _ g Hbehind). cbn [bind].
    rewrite <- Hone, Z.eqb_refl. reflexivity.
Qed.

Lemma fill_behind_cursor_witness :
  Grid.fill (Grid.with_cursor small_grid (0, 1, 2) [(1, 1, 3)]) 0 3 1%Q white =
  Ok (Grid._add_to_pixel_mix (Grid.with_cursor small_grid (0, 1, 2) [(1, 1, 3)])
        white 1%Q (inject_Z 3 / (20 # 4))%Q).
Proof.
  apply (fill_behind_cursor (Grid.with_cursor small_grid (0, 1, 2) [(1, 1, 3)])
           0 3 1%Q white).
  - reflexivity.
  - intros H. discriminate H.
  - reflexivity.
  - vm_compute. intros H. discriminate H.
Defined.

(** ** The coverage a fill hands out *)

Lemma py_mod_whole (a b : Z) (bpp : Q) :
  (bpp == inject_Z b)%Q -> 0 < b ->
  (py_mod (inject_Z a) bpp == inject_Z (a mod b))%Q.
Proof.
  intros E Hb. unfold py_mod.
  rewrite (Qfloor_comp _ (inject_Z a / inject_Z b)) by (rewrite E; reflexivity).
  rewrite <- Zdiv_Qdiv, E.
  rewrite (Z.mod_eq a b) by lia.
  unfold Z.sub. rewrite inject_Z_plus, inject_Z_opp, inject_Z_mult. ring.
Qed.

Lemma py_int_whole (a b : Z) (bpp : Q) :
  (bpp == inject_Z b)%Q -> 0 < b -> 0 <= a ->
  py_int (inject_Z a / bpp) = a / b.
Proof.
  intros E Hb Ha. unfold py_int.
  assert (Hq : (inject_Z a / bpp == inject_Z a / inject_Z b)%Q)
    by (rewrite E; reflexivity).
  assert (Hpos : (0 <= inject_Z a / bpp)%Q).
  { rewrite Hq. apply Qle_shift_div_l.
    - change 0%Q with (inject_Z 0). rewrite <- Zlt_Qlt. exact Hb.
    - rewrite Qmult_0_l. change 0%Q with (inject_Z 0). rewrite <- Zle_Qle. exact Ha. }
  apply Qle_bool_iff in Hpos. rewrite Hpos.
  rewrite (Qfloor_comp _ _ Hq). symmetry. apply Zdiv_Qdiv.
Qed.

(** X11. With a whole number of bytes to the pixel, [fill] accounts for every
    byte of a span once: the coverages it hands to the first pixel, to the
    pixels in between and to the last pixel add up to [length] bytes. *)
Theorem fill_fractions_whole (bpp : Q) (b first_byte length : Z) :
  (bpp == inject_Z b)%Q -> 0 < b -> 0 <= first_byte -> 1 <= length ->
  (fill_fractions bpp first_byte length * bpp == inject_Z length)%Q.
Proof.
  intros E Hb Hfb Hlen.
  assert (Hnz : ~ (bpp == 0)%Q).
  { rewrite E. change 0%Q with (inject_Z 0). rewrite inject_Z_injective. lia. }
  unfold fill_fractions, Grid.first_pixel_of, Grid.last_pixel_of.
  rewrite (py_int_whole first_byte b bpp E Hb Hfb).
  rewrite (py_int_whole (first_byte + length - 1) b bpp E Hb) by lia.
  pose proof (Z.div_mod first_byte b ltac:(lia)) as D1.
  pose proof (Z.mod_pos_bound first_byte b Hb) as B1.
  pose proof (Z.div_mod (first_byte + length - 1) b ltac:(lia)) as D2.
  pose proof (Z.mod_pos_bound (first_byte + length - 1) b Hb) as B2.
  pose proof (Z.div_mod (first_byte + length) b ltac:(lia)) as D3.
  pose proof (Z.mod_pos_bound (first_byte + length) b Hb) as B3.
  pose proof (py_mod_whole first_byte b bpp E Hb) as M1.
  pose proof (py_mod_whole (first_byte + length) b bpp E Hb) as M3.
  set (q1 := first_byte / b) in *. set (r1 := first_byte mod b) in *.
  set (q2 := (first_byte + length - 1) / b) in *.
  set (r2 := (first_byte + length - 1) mod b) in *.
  set (q3 := (first_byte + length) / b) in *.
  set (r3 := (first_byte + length) mod b) in *.
  clearbody q1 r1 q2 r2 q3 r3.
  destruct (Z.eqb_spec q1 q2) as [Eq | Nq].
  - field. exact Hnz.
  - unfold Grid.pct_of_first_pixel, Grid.pct_of_last_pixel.
    destruct (Qeq_bool (py_mod (inject_Z (first_byte + length)) bpp / bpp) 0) eqn:E0.
    + apply Qeq_bool_iff in E0.
      assert (Hr3 : r3 = 0).
      { assert (H0 : (py_mod (inject_Z (first_byte + length)) bpp == 0)%Q).
        { setoid_replace (py_mod (inject_Z (first_byte + length)) bpp)
            with (py_mod (inject_Z (first_byte + length)) bpp / bpp * bpp)%Q
            by (field; exact Hnz).
          rewrite E0. ring. }
        rewrite M3 in H0. change 0%Q with (inject_Z 0) in H0.
        rewrite inject_Z_injective in H0. exact H0. }
      assert (Hq3 : q3 = q2 + 1) by nia.
      assert (Hz : length = b - r1 + (q2 - q1 - 1) * b + b) by nia.
      setoid_replace ((bpp - py_mod (inject_Z first_byte) bpp) / bpp
                      + inject_Z (q2 - q1 - 1) + 1)%Q
        with ((bpp - py_mod (inject_Z first_byte) bpp
               + inject_Z (q2 - q1 - 1) * bpp + bpp) / bpp)%Q
        by (field; exact Hnz).
      rewrite M1, E, Hz.
      unfold Z.sub.
      repeat (rewrite inject_Z_plus || rewrite inject_Z_mult || rewrite inject_Z_opp).
      field. rewrite <- E. exact Hnz.
    + apply Qeq_bool_neq in E0.
      assert (Hr3 : r3 <> 0).
      { intros H0. apply E0. rewrite M3, H0. unfold Qdiv. ring. }
      assert (Hq3 : q3 = q2) by nia.
      assert (Hz : length = b - r1 + (q2 - q1 - 1) * b + r3) by nia.
      setoid_replace ((bpp - py_mod (inject_Z first_byte) bpp) / bpp
                      + inject_Z (q2 - q1 - 1)
                      + py_mod (inject_Z (first_byte + length)) bpp / bpp)%Q
        with ((bpp - py_mod (inject_Z first_byte) bpp
               + inject_Z (q2 - q1 - 1) * bpp
               + py_mod (inject_Z (first_byte + length)) bpp) / bpp)%Q
        by (field; exact Hnz).
      rewrite M1, M3, E, Hz.
      unfold Z.sub.
      repeat (rewrite inject_Z_plus || rewrite inject_Z_mult || rewrite inject_Z_opp).
      field. rewrite <- E. exact Hnz.
Qed.

Lemma fill_fractions_whole_witness :
  (fill_fractions (Grid.bytes_per_pixel small_grid) 3 14
   * Grid.bytes_per_pixel small_grid == inject_Z 14)%Q.
Proof.
  apply (fill_fractions_whole (Grid.bytes_per_pixel small_grid) 5 3 14).
  - reflexivity.
  - reflexivity.
  - intros H. discriminate H.
  - intros H. discriminate H.
Defined.

(** ** The color cache *)

(** X12. The cache changes no answer: [_pixel_mix_to_rgbytes] gives what
    [struct_color.pack] gives for the composite, bytes or exception, and
    asking again gives the same bytes and leaves the grid as it is. *)
Theorem color_cache_transparent (g : Grid.t) :
  cache_ok (Grid._color_cache g) ->
  (r <- Grid._pixel_mix_to_rgbytes g ;; Ok (fst r)) =
  struct_color_pack (Grid.mix_to_rgb (Grid._min_brightness g) (Grid._pixel_mix g))
  /\
  (forall (b : rgbytes) (g' : Grid.t),
     Grid._pixel_mix_to_rgbytes g = Ok (b, g') ->
     cache_ok (Grid._color_cache g') /\
     Grid._pixel_mix_to_rgbytes g' = Ok (b, g')).
Proof.
  intros Hok. split.
  - unfold Grid._pixel_mix_to_rgbytes.
    destruct (cache_get _ _) as [b |] eqn:E.
    + cbn [bind fst]. symmetry. apply Hok. exact E.
    + unfold Grid._add_color_cache.
      destruct (struct_color_pack _); reflexivity.
  - intros b g' H.
    pose proof (returned_packable g (b, g') Hok H) as Hp.
    rewrite (pixel_mix_to_rgbytes_ok g Hok Hp) in H. inversion H; subst. clear H.
    pose proof (packable_packed _ _ Hp) as Hpk.
    split.
    + cbn [Grid._color_cache Grid.with_cache]. apply cache_add_ok; assumption.
    + unfold Grid._pixel_mix_to_rgbytes.
      cbn [Grid._color_cache Grid._min_brightness Grid._pixel_mix Grid.with_cache].
      rewrite (cache_get_add_same _ _ _ Hok Hpk). reflexivity.
Qed.

Lemma color_cache_transparent_witness :
  (r <- Grid._pixel_mix_to_rgbytes (Grid._add_to_pixel_mix small_grid white 1 1) ;;
   Ok (fst r)) = Ok white_bytes.
Proof.
  refine (eq_trans
            (proj1 (color_cache_transparent
                      (Grid._add_to_pixel_mix small_grid white 1 1) _)) _).
  - exact cache_ok_black.
  - reflexivity.
Defined.

(** ** Coverage and the range of a byte *)

Lemma packed_length (mb : Q) (mix : list Grid.mix_entry) :
  packable mb mix -> length (packed mb mix) = 3%nat.
Proof.
  unfold packable, packed, struct_color_pack.
  destruct (Grid.mix_to_rgb mb mix) as [[r g0] b].
  destruct (_ && _); [reflexivity | discriminate].
Qed.

(** X13. With a minimal brightness in [0, 1], entries whose channels are
    bytes and whose usage is a fraction, and a total coverage of at most 1,
    committing the pending pixel never raises: its composite fits three
    bytes, which the pixel under the cursor then holds, and the pixel is
    pending no more. *)
Theorem finish_pixel_within_bounds (g : Grid.t) :
  wf g ->
  (0 <= Grid._min_brightness g <= 1)%Q ->
  Forall entry_bounded (Grid._pixel_mix g) ->
  (coverage (Grid._pixel_mix g) <= 1)%Q ->
  exists (g' : Grid.t) (b : rgbytes),
    Grid._finish_pixel g = Ok g' /\
    wf g' /\
    struct_color_pack
      (Grid.mix_to_rgb (Grid._min_brightness g) (Grid._pixel_mix g)) = Ok b /\
    length b = 3%nat /\
    pixel_at (Grid._grid g') (Grid.y g, Grid.x g) = Some b /\
    Grid._pixel_mix g' = [] /\ Grid._pixel_dirty g' = false.
Proof.
  intros Hwf Hmb Hall Hcov.
  pose proof (packable_bounded _ _ Hmb Hall Hcov) as Hp.
  exists (commit g), (packed (Grid._min_brightness g) (Grid._pixel_mix g)).
  pose proof Hwf as (Hd & Hyx & _).
  repeat (match goal with |- _ /\ _ => split end).
  - apply finish_pixel_ok; assumption.
  - apply wf_commit; assumption.
  - apply packable_packed. exact Hp.
  - apply packed_length. exact Hp.
  - unfold commit. cbn [Grid._grid Grid.with_mix Grid.with_grid].
    apply (pixel_at_set_rows_same _ (Grid.height g) (Grid.width g)); assumption.
  - reflexivity.
  - reflexivity.
Qed.

Lemma finish_pixel_within_bounds_witness :
  exists (g' : Grid.t) (b : rgbytes),
    Grid._finish_pixel (Grid._add_to_pixel_mix small_grid white 1 1) = Ok g' /\
    length b = 3%nat /\
    pixel_at (Grid._grid g') (1, 0) = Some b.
Proof.
  destruct (finish_pixel_within_bounds (Grid._add_to_pixel_mix small_grid white 1 1))
    as (g' & b & Hrun & _ & _ & Hlen & Hpix & _).
  - apply wf_add_to_pixel_mix. exact wf_small_grid.
  - split; intros H; discriminate H.
  - constructor; [| constructor].
    unfold entry_bounded. cbn.
    repeat (match goal with |- _ /\ _ => split end); intros H; discriminate H.
  - intros H. discriminate H.
  - exists g', b. repeat split; assumption.
Defined.

(** X14. The coverage of a span that lies within one pixel is its length
    over the bytes per pixel.  It stays below [1 + 1 / bytes_per_pixel];
    with a whole number of bytes to the pixel it is at most 1. *)
Theorem coverage_within_one_pixel (bpp : Q) (first_byte length : Z) :
  (0 < bpp)%Q -> 0 <= first_byte ->
  Grid.first_pixel_of bpp first_byte = Grid.last_pixel_of bpp first_byte length ->
  (inject_Z length / bpp < 1 + 1 / bpp)%Q /\
  (forall b : Z, (bpp == inject_Z b)%Q -> (inject_Z length / bpp <= 1)%Q).
Proof.
  intros Hbpp Hfb Hone.
  assert (Hnz : ~ (bpp == 0)%Q) by lra.
  assert (Hfbq : (0 <= inject_Z first_byte)%Q)
    by (change 0%Q with (inject_Z 0); rewrite <- Zle_Qle; exact Hfb).
  assert (Hinv : (0 < / bpp)%Q) by (apply Qinv_lt_0_compat; exact Hbpp).
  assert (Hfp : Grid.first_pixel_of bpp first_byte
                = Qfloor (inject_Z first_byte / bpp)).
  { unfold Grid.first_pixel_of, py_int.
    assert (H : (0 <= inject_Z first_byte / bpp)%Q)
      by (apply Qle_shift_div_l; [exact Hbpp | lra]).
    apply Qle_bool_iff in H. rewrite H. reflexivity. }
  destruct (Z.le_gt_cases length 0) as [Hneg | Hpos].
  - assert (Hl : (inject_Z length <= 0)%Q)
      by (change 0%Q with (inject_Z 0); rewrite <- Zle_Qle; exact Hneg).
    assert (Hq : (inject_Z length / bpp <= 0)%Q).
    { apply Qle_shift_div_r; [exact Hbpp | lra]. }
    split.
    + assert (H1 : (0 < 1 / bpp)%Q) by (unfold Qdiv; lra). lra.
    + intros _ _. lra.
  - assert (Hlast : (0 <= inject_Z (first_byte + length - 1))%Q)
      by (change 0%Q with (inject_Z 0); rewrite <- Zle_Qle; lia).
    assert (Hlp : Grid.last_pixel_of bpp first_byte length
                  = Qfloor (inject_Z (first_byte + length - 1) / bpp)).
    { unfold Grid.last_pixel_of, py_int.
      assert (H : (0 <= inject_Z (first_byte + length - 1) / bpp)%Q)
        by (apply Qle_shift_div_l; [exact Hbpp | lra]).
      apply Qle_bool_iff in H. rewrite H. reflexivity. }
    rewrite Hfp, Hlp in Hone.
    split.
    + pose proof (Qfloor_le (inject_Z first_byte / bpp)) as H1.
      pose proof (Qlt_floor (inject_Z (first_byte + length - 1) / bpp)) as H2.
      rewrite <- Hone in H2. rewrite inject_Z_plus in H2.
      change (inject_Z 1) with 1%Q in H2.
      assert (E : (inject_Z (first_byte + length - 1) / bpp
                   == inject_Z first_byte / bpp + inject_Z length / bpp - 1 / bpp)%Q).
      { unfold Z.sub. rewrite !inject_Z_plus.
        change (inject_Z (- (1))) with (- (1))%Q. field. exact Hnz. }
      rewrite E in H2.
      generalize dependent (inject_Z (Qfloor (inject_Z first_byte / bpp))).
      generalize (inject_Z first_byte / bpp)%Q (inject_Z length / bpp)%Q (1 / bpp)%Q.
      intros A B C F H1 H2. lra.
    + intros b Eb.
      assert (Hb : 0 < b).
      { rewrite Eb in Hbpp. change 0%Q with (inject_Z 0) in Hbpp.
        rewrite <- Zlt_Qlt in Hbpp. exact Hbpp. }
      rewrite (Qfloor_comp _ (inject_Z first_byte / inject_Z b)) in Hone
        by (rewrite Eb; reflexivity).
      rewrite (Qfloor_comp (inject_Z (first_byte + length - 1) / bpp)
                 (inject_Z (first_byte + length - 1) / inject_Z b)) in Hone
        by (rewrite Eb; reflexivity).
      rewrite <- !Zdiv_Qdiv in Hone.
      pose proof (Z.div_mod first_byte b ltac:(lia)) as D1.
      pose proof (Z.mod_pos_bound first_byte b Hb) as B1.
      pose proof (Z.div_mod (first_byte + length - 1) b ltac:(lia)) as D2.
      pose proof (Z.mod_pos_bound (first_byte + length - 1) b Hb) as B2.
      rewrite <- Hone in D2.
      assert (Hle : length <= b) by lia.
      apply Qle_shift_div_r; [exact Hbpp |].
      rewrite Eb, Qmult_1_l, <- Zle_Qle. exact Hle.
Qed.

Lemma coverage_within_one_pixel_witness :
  (inject_Z 3 / (5 # 2) < 1 + 1 / (5 # 2))%Q.
Proof.
  refine (proj1 (coverage_within_one_pixel (5 # 2) 0 3 _ _ _)).
  - reflexivity.
  - intros H. discriminate H.
  - reflexivity.
Defined.

(** With bytes per pixel that are not whole, the coverage of a span
    within one pixel can exceed 1: at 5/2 bytes to the pixel, the three
    bytes from 0 count as 6/5 of pixel 0. *)
Example coverage_above_one :
  Grid.first_pixel_of (5 # 2) 0 = Grid.last_pixel_of (5 # 2) 0 3 /\
  (1 < inject_Z 3 / (5 # 2))%Q.
Proof. split; reflexivity. Qed.

(** ** A new grid *)

(** X15. With an order and size that [choose_order_size] accepts, a curve
    that visits every cell of the grid once, and a minimal brightness that
    is unset or in [0, 1], the constructor returns a grid on which the
    invariant holds: the cursor is on step 0 with all other steps of the
    curve ahead, nothing is pending, every pixel is black, and the bytes per
    pixel are the total bytes over the number of pixels. *)
Theorem init_returns_blank_grid
    (order size : option Z) (total_bytes default_granularity : Z)
    (min_brightness : option Q) (curve : option curve_name)
    (o s : Z) (gen : nat -> list CurveStep) :
  choose_order_size order size total_bytes default_granularity = Ok (o, s) ->
  0 <= o ->
  curves_get (curve_or_default curve) = Some gen ->
  curve_bijective (Z.to_nat o) (gen (Z.to_nat o)) ->
  (forall m, min_brightness = Some m -> (0 <= m <= 1)%Q) ->
  exists g : Grid.t,
    Grid.__init__ order size total_bytes default_granularity min_brightness curve
    = Ok g /\
    wf g /\
    Grid.order g = o /\ Grid.size g = s /\
    Grid.linear g = 0 /\ end_index g = 4 ^ o - 1 /\
    Grid._pixel_dirty g = false /\ Grid._finished g = false /\
    (Grid.bytes_per_pixel g == inject_Z total_bytes / inject_Z (4 ^ o))%Q /\
    (forall q, 0 <= fst q < 2 ^ o /\ 0 <= snd q < 2 ^ o ->
               pixel_at (Grid._grid g) q = Some black_bytes).
Proof.
  intros Hcos Ho Hgen Hbij Hmb.
  destruct (init_reaches_check order size total_bytes default_granularity curve
              o s gen Hcos Ho Hgen) as (g0 & _ & Hnone & Hsome).
  assert (Hex : exists g : Grid.t,
             Grid.__init__ order size total_bytes default_granularity
               min_brightness curve = Ok g).
  { destruct min_brightness as [m |].
    - specialize (Hsome m). destruct (Hmb m eq_refl) as [Hm0 Hm1].
      destruct (Qlt_le_dec m 0) as [Hlt | _]; [lra |].
      destruct (Qlt_le_dec 1 m) as [Hlt | _]; [lra |].
      eexists. exact Hsome.
    - exists g0. exact Hnone. }
  destruct Hex as [g Hg]. exists g.
  destruct (init_wf order size total_bytes default_granularity min_brightness curve
              o s gen g Hcos Hgen Hbij Hg)
    as (Hwf & _ & Hsteps & Hlin & Hfin & Hdirty & Hord & Hsize & Hbpp & Hblack).
  repeat (match goal with |- _ /\ _ => split end); try assumption.
  unfold end_index. rewrite Hlin.
  destruct Hbij as (Hlen & _). rewrite <- Hsteps in Hlen. cbn [length] in Hlen.
  assert (H4 : 0 < 4 ^ o) by (apply Z.pow_pos_nonneg; lia).
  rewrite Z2Nat.id in Hlen by lia. lia.
Qed.

Lemma linear_order_0_bijective : curve_bijective 0 (linear 0).
Proof.
  unfold curve_bijective.
  change (linear 0) with [(0, 0, 0)]. cbn [map step_yx fst length follows step_linear snd].
  change (2 ^ Z.of_nat 0) with 1.
  repeat (match goal with |- _ /\ _ => split end).
  - reflexivity.
  - reflexivity.
  - exact I.
  - constructor; [intros [] | constructor].
  - intros q. split.
    + intros [E | []]. subst q. cbn. lia.
    + intros [H1 H2]. left. destruct q as [a b]. cbn in *. f_equal; lia.
Qed.

Lemma init_returns_blank_grid_witness :
  exists g : Grid.t,
    Grid.__init__ (Some 0) None 20 33554432 (Some (1 # 2)%Q) (Some CurveLinear) = Ok g /\
    wf g.
Proof.
  destruct (init_returns_blank_grid (Some 0) None 20 33554432 (Some (1 # 2)%Q)
              (Some CurveLinear) 0 10 linear)
    as (g & Hg & Hwf & _).
  - reflexivity.
  - intros H. discriminate H.
  - reflexivity.
  - exact linear_order_0_bijective.
  - intros m E. inversion E; subst. split; intros H; discriminate H.
  - exists g. split; assumption.
Defined.

(** ** After the result has been retrieved *)

Lemma wf_with_finished (g : Grid.t) (f : bool) : wf g -> wf (Grid.with_finished g f).
Proof. intros H. exact H. Qed.

(** X16. The first half of [write_png] seals the grid: it commits the pixel
    that is pending, once; from then on every [fill] raises whatever its
    arguments, and a second [write_png] finds nothing left to commit. *)
Theorem finalize_seals (g g' : Grid.t) :
  wf g ->
  Grid.finalize g = Ok g' ->
  wf g' /\
  Grid._finished g' = true /\
  (Grid._finished g = false -> g' = Grid.with_finished (settle g) true) /\
  Grid.finalize g' = Ok g' /\
  (forall (first_byte length : Z) (used_pct : Q) (c : color),
     Grid.fill g' first_byte length used_pct c = Raise FinishedError).
Proof.
  intros Hwf H. unfold Grid.finalize in H.
  destruct (Grid._finished g) eqn:F.
  - inversion H; subst g'. clear H.
    repeat (match goal with |- _ /\ _ => split end).
    + exact Hwf.
    + exact F.
    + intros H. discriminate H.
    + unfold Grid.finalize. rewrite F. reflexivity.
    + intros. unfold Grid.fill. rewrite F. reflexivity.
  - assert (Hs : (if Grid._pixel_dirty g then Grid._finish_pixel g else Ok g)
                 = Ok (settle g) /\ wf (settle g)).
    { unfold settle. destruct (Grid._pixel_dirty g) eqn:D.
      - destruct (Grid._finish_pixel g) as [g1 |] eqn:E; [| discriminate].
        assert (Hp : packable (Grid._min_brightness g) (Grid._pixel_mix g)).
        { unfold Grid._finish_pixel in E.
          destruct (Grid._pixel_mix_to_rgbytes g) as [r |] eqn:Er; [| discriminate].
          apply (returned_packable g r); [apply Hwf | exact Er]. }
        split; [rewrite <- E; apply finish_pixel_ok | apply wf_commit]; assumption.
      - split; [reflexivity | exact Hwf]. }
    destruct Hs as [Hs Hwfs]. rewrite Hs in H. cbn [bind] in H.
    inversion H; subst g'. clear H.
    repeat (match goal with |- _ /\ _ => split end).
    + apply wf_with_finished. exact Hwfs.
    + reflexivity.
    + reflexivity.
    + reflexivity.
    + intros. reflexivity.
Qed.

Lemma finalize_seals_witness :
  exists g' : Grid.t,
    Grid.finalize (Grid._add_to_pixel_mix small_grid white 1 1) = Ok g' /\
    Grid.fill g' 0 5 1%Q white = Raise FinishedError.
Proof.
  assert (E : exists g' : Grid.t,
             Grid.finalize (Grid._add_to_pixel_mix small_grid white 1 1) = Ok g')
    by (eexists; vm_compute; reflexivity).
  destruct E as [g' E]. exists g'. split; [exact E |].
  destruct (finalize_seals (Grid._add_to_pixel_mix small_grid white 1 1) g')
    as (_ & _ & _ & _ & Hfill).
  - apply wf_add_to_pixel_mix. exact wf_small_grid.
  - exact E.
  - apply Hfill.
Defined.

(** ** The rows handed to the encoder *)

Lemma replicate_length {A : Type} (n : Z) (a : A) :
  length (replicate n a) = Z.to_nat n.
Proof.
  unfold replicate, py_range. cbn [Z.ltb Z.compare].
  rewrite !length_map, length_seq. f_equal.
  rewrite Z.div_1_r. lia.
Qed.

Lemma nth_error_replicate {A : Type} (n : Z) (a : A) (i : nat) :
  (i < Z.to_nat n)%nat -> nth_error (replicate n a) i = Some a.
Proof.
  intros Hi. pose proof (replicate_length n a) as Hlen.
  unfold replicate in *. rewrite nth_error_map.
  destruct (nth_error (py_range 0 n 1) i) eqn:E; [reflexivity |].
  apply nth_error_None in E. rewrite length_map in Hlen. lia.
Qed.

(** A list made of blocks of [k] elements, one block per element of
    [l]: element [i] lies in block [i / k], at offset [i mod k]. *)
Lemma nth_error_flat_map_blocks {A B : Type} (k : nat) (f : A -> list B) (l : list A) :
  (0 < k)%nat -> (forall a, length (f a) = k) ->
  forall i : nat,
    nth_error (flat_map f l) i =
    match nth_error l (i / k) with
    | Some a => nth_error (f a) (i mod k)
    | None => None
    end.
Proof.
  intros Hk Hlen. induction l as [| a l IH]; intros i.
  - cbn [flat_map]. destruct i, (_ / k)%nat; reflexivity.
  - cbn [flat_map]. destruct (Nat.lt_ge_cases i k) as [Hlt | Hge].
    + rewrite nth_error_app1 by (rewrite Hlen; exact Hlt).
      rewrite Nat.div_small, Nat.mod_small by exact Hlt. reflexivity.
    + rewrite nth_error_app2 by (rewrite Hlen; exact Hge).
      rewrite Hlen, IH.
      assert (Hdiv : (i / k = S ((i - k) / k))%nat).
      { transitivity (((i - k) + 1 * k) / k)%nat; [f_equal; lia |].
        rewrite Nat.div_add by lia. lia. }
      assert (Hmod : (i mod k = (i - k) mod k)%nat).
      { transitivity (((i - k) + 1 * k) mod k)%nat; [f_equal; lia |].
        apply Nat.Div0.mod_add. }
      rewrite Hdiv, Hmod. reflexivity.
Qed.

Lemma flat_map_blocks_length {A B : Type} (k : nat) (f : A -> list B) (l : list A) :
  (forall a, length (f a) = k) -> length (flat_map f l) = (k * length l)%nat.
Proof.
  intros Hlen. induction l as [| a l IH]; cbn [flat_map length]; [lia |].
  rewrite length_app, Hlen, IH. lia.
Qed.

(** One row of the picture, every pixel repeated [scale] times. *)
Lemma nth_error_widened (scale : Z) (row : list rgbytes) (c : nat) :
  0 < scale ->
  nth_error (flat_map (replicate scale) row) c = nth_error row (c / Z.to_nat scale).
Proof.
  intros Hs.
  rewrite (nth_error_flat_map_blocks (Z.to_nat scale)) by
    (try lia; intros; apply replicate_length).
  destruct (nth_error row (c / Z.to_nat scale)) as [a |]; [| reflexivity].
  apply nth_error_replicate. apply Nat.mod_upper_bound. lia.
Qed.

(** X17. What [write_png] hands to the encoder.  When the size exceeds the
    order, the picture is [2 ^ (size - order)] times as wide and as high as
    the buffer, and its pixel [(Y, X)] is the pixel [(Y / scale, X / scale)]
    of the buffer; otherwise it is the buffer itself. *)
Theorem export_rows_upscaled (g : Grid.t) :
  dims (Grid._grid g) (Grid.height g) (Grid.width g) ->
  let scale := if Grid.order g <? Grid.size g
               then 2 ^ (Grid.size g - Grid.order g) else 1 in
  exists rows : list (list rgbytes),
    export_rows g = (Grid.width g * scale, Grid.height g * scale, rows) /\
    dims rows (Grid.height g * scale) (Grid.width g * scale) /\
    (Grid.size g <= Grid.order g -> rows = Grid._grid g) /\
    (forall Y X : Z,
       0 <= Y < Grid.height g * scale -> 0 <= X < Grid.width g * scale ->
       pixel_at rows (Y, X) = pixel_at (Grid._grid g) (Y / scale, X / scale)).
Proof.
  intros Hd scale. unfold export_rows. subst scale.
  destruct (Z.ltb_spec (Grid.order g) (Grid.size g)) as [Hlt | Hge].
  - set (scale := 2 ^ (Grid.size g - Grid.order g)).
    assert (Hs : 0 < scale) by (apply Z.pow_pos_nonneg; lia).
    set (F := fun row : list rgbytes =>
                replicate scale (flat_map (replicate scale) row)).
    assert (HF : forall row, length (F row) = Z.to_nat scale)
      by (intros; apply replicate_length).
    assert (HG : forall row : list rgbytes,
               length (flat_map (replicate scale) row)
               = (Z.to_nat scale * length row)%nat).
    { intros row. apply flat_map_blocks_length. intros. apply replicate_length. }
    destruct Hd as [Hh Hw].
    assert (Hrow : forall r : nat,
               (r < Z.to_nat scale * length (Grid._grid g))%nat ->
               nth r (flat_map F (Grid._grid g)) []
               = flat_map (replicate scale)
                   (nth (r / Z.to_nat scale) (Grid._grid g) [])).
    { intros r Hr. apply nth_error_nth.
      rewrite (nth_error_flat_map_blocks (Z.to_nat scale) F) by (try lia; exact HF).
      assert (Hq : (r / Z.to_nat scale < length (Grid._grid g))%nat)
        by (apply Nat.Div0.div_lt_upper_bound; lia).
      rewrite (nth_error_nth' _ [] Hq).
      apply nth_error_replicate. apply Nat.mod_upper_bound. lia. }
    exists (flat_map F (Grid._grid g)).
    repeat (match goal with |- _ /\ _ => split end).
    + reflexivity.
    + split.
      * rewrite (flat_map_blocks_length (Z.to_nat scale)) by exact HF. lia.
      * apply Forall_forall. intros row Hin.
        apply in_flat_map in Hin. destruct Hin as (row0 & Hin0 & Hin).
        unfold F, replicate in Hin. apply in_map_iff in Hin.
        destruct Hin as (_ & <- & _). rewrite HG.
        rewrite Forall_forall in Hw. specialize (Hw row0 Hin0). lia.
    + intros Hle. lia.
    + intros Y X HY HX.
      assert (HY' : 0 <= Y / scale < Grid.height g).
      { split; [apply Z.div_pos; lia | apply Z.div_lt_upper_bound; lia]. }
      assert (HX' : 0 <= X / scale < Grid.width g).
      { split; [apply Z.div_pos; lia | apply Z.div_lt_upper_bound; lia]. }
      assert (HrY : (Z.to_nat Y / Z.to_nat scale)%nat = Z.to_nat (Y / scale))
        by (rewrite Z2Nat.inj_div by lia; reflexivity).
      assert (HrX : (Z.to_nat X / Z.to_nat scale)%nat = Z.to_nat (X / scale))
        by (rewrite Z2Nat.inj_div by lia; reflexivity).
      assert (Hr0 : (Z.to_nat (Y / scale) < length (Grid._grid g))%nat) by lia.
      pose proof (dims_row _ _ _ _ (conj Hh Hw) Hr0) as Hw0.
      unfold pixel_at. cbn [fst snd].
      rewrite (flat_map_blocks_length (Z.to_nat scale)) by exact HF.
      rewrite py_index_in_range by lia.
      rewrite Hrow by nia. rewrite HG, HrY.
      rewrite py_index_in_range by lia.
      rewrite nth_error_widened by exact Hs. rewrite HrX.
      rewrite py_index_in_range by lia.
      rewrite py_index_in_range by lia.
      reflexivity.
  - exists (Grid._grid g).
    rewrite !Z.mul_1_r.
    repeat (match goal with |- _ /\ _ => split end).
    + reflexivity.
    + exact Hd.
    + reflexivity.
    + intros Y X _ _. rewrite !Z.div_1_r. reflexivity.
Qed.

Lemma export_rows_upscaled_witness :
  exists rows : list (list rgbytes),
    export_rows small_grid = (2 * 2 ^ 9, 2 * 2 ^ 9, rows) /\
    pixel_at rows (700, 300) = pixel_at (Grid._grid small_grid) (1, 0).
Proof.
  destruct (export_rows_upscaled small_grid ltac:(apply wf_small_grid))
    as (rows & Hrows & _ & _ & Hpix).
  exists rows. split; [exact Hrows |].
  apply (Hpix 700 300); (split; [intros H; discriminate H | reflexivity]).
Defined.

(** ** The picture file of a grid *)

Lemma pack_B_u8 (v : Z) : u8 v -> pack_B v = Ok [byte_of_Z v].
Proof.
  unfold u8, pack_B. intros [H0 H1].
  destruct (Z.leb_spec 0 v); [| lia].
  destruct (Z.leb_spec v 255); [| lia]. reflexivity.
Qed.

Lemma pack_I_raises (v : Z) : ~ u32 v -> pack_I v = Raise StructError.
Proof.
  unfold u32, pack_I. intros H.
  destruct (Z.leb_spec 0 v); [| reflexivity].
  destruct (Z.ltb_spec v (2 ^ 32)); [| reflexivity].
  exfalso. apply H. lia.
Qed.

Lemma pack_B_raises (v : Z) : ~ u8 v -> pack_B v = Raise StructError.
Proof.
  unfold u8, pack_B. intros H.
  destruct (Z.leb_spec 0 v); [| reflexivity].
  destruct (Z.leb_spec v 255); [| reflexivity].
  exfalso. apply H. lia.
Qed.

Lemma u32_dec (v : Z) : {u32 v} + {~ u32 v}.
Proof.
  unfold u32. destruct (Z_le_dec 0 v); [| right; lia].
  destruct (Z_lt_dec v (2 ^ 32)); [left; lia | right; lia].
Qed.

Lemma pack_ihdr_ok (width height color_type : Z) :
  u32 width -> u32 height -> u8 color_type ->
  pack_ihdr width height color_type = Ok (ihdr_of width height color_type).
Proof.
  intros Hw Hh Hc. unfold pack_ihdr.
  rewrite (pack_I_u32 _ Hw), (pack_I_u32 _ Hh). cbn [bind].
  rewrite (pack_B_u8 8) by (unfold u8; lia). cbn [bind].
  rewrite (pack_B_u8 _ Hc). reflexivity.
Qed.

Lemma pack_ihdr_raises (width height color_type : Z) :
  ~ (u32 width /\ u32 height /\ u8 color_type) ->
  pack_ihdr width height color_type = Raise StructError.
Proof.
  intros H. unfold pack_ihdr.
  destruct (u32_dec width) as [Hw | Hw]; [| rewrite (pack_I_raises _ Hw); reflexivity].
  rewrite (pack_I_u32 _ Hw). cbn [bind].
  destruct (u32_dec height) as [Hh | Hh]; [| rewrite (pack_I_raises _ Hh); reflexivity].
  rewrite (pack_I_u32 _ Hh). cbn [bind].
  rewrite (pack_B_u8 8) by (unfold u8; lia). cbn [bind].
  rewrite pack_B_raises; [reflexivity |]. intros Hc. apply H. auto.
Qed.

(** The run of [_write_png] on a file that takes every write, for any
    color type. *)
Lemma write_png_run
    (z : Compressor) (width height color_type : Z)
    (rows : list (list rgbytes)) (f : File.t) :
  u32 width -> u32 height -> u8 color_type ->
  File.writes_left f = None ->
  u32 (Z.of_nat (length (deflate z (row_chunks rows)))) ->
  _write_png z width height rows color_type f =
  (Ok tt, File.mk (png_file z width height color_type rows) 37 false None).
Proof.
  intros Hw Hh Hct Hf Hlen.
  unfold _write_png.
  change (File.iobind File.open ?k f) with (k tt (File.mk [] 0 true (File.writes_left f))).
  cbv beta. rewrite Hf. change (File.mk [] 0 true None) with (at_end []).
  unfold File.iobind at 1. rewrite write_at_end.
  unfold File.iobind at 1. unfold File.lift at 1.
  rewrite (pack_I_u32 13) by (unfold u32; cbn; lia).
  unfold File.iobind at 1. rewrite write_at_end.
  unfold File.iobind at 1. unfold File.lift at 1.
  rewrite (pack_ihdr_ok _ _ _ Hw Hh Hct).
  unfold File.iobind at 1. rewrite write_at_end.
  assert (Hc0 : u32 0) by (unfold u32; cbn; lia).
  unfold File.iobind at 1. unfold File.lift at 1.
  rewrite (land_mask_u32 _ (crc32_u32 (ihdr_of width height color_type) 0 Hc0)).
  rewrite (pack_I_u32 _ (crc32_u32 (ihdr_of width height color_type) 0 Hc0)).
  unfold File.iobind at 1. rewrite write_at_end.
  unfold File.iobind at 1. unfold File.tell at 1. cbn [at_end File.position].
  unfold File.iobind at 1. rewrite write_at_end.
  match goal with
  | |- context [at_end (?pre ++ zero_len ++ b_IDAT)] =>
      destruct (compress_rows_at_end z rows (compressobj z) (crc32 b_IDAT 0) 0
                  (pre ++ zero_len ++ b_IDAT)) as (out & st' & Hrun & Hdef)
  end.
  unfold File.iobind at 1. rewrite Hrun.
  unfold File.iobind at 1. rewrite emit_at_end.
  assert (Hpay : deflate z (row_chunks rows) = out ++ flush z st') by exact Hdef.
  rewrite <- !crc32_app in *.
  assert (Hcrc : u32 (crc32 (b_IDAT ++ out ++ flush z st') 0))
    by (apply crc32_u32; exact Hc0).
  unfold File.iobind at 1. unfold File.lift at 1.
  rewrite (land_mask_u32 _ Hcrc), (pack_I_u32 _ Hcrc).
  unfold File.iobind at 1. rewrite write_at_end.
  unfold File.iobind at 1. rewrite write_at_end.
  unfold File.iobind at 1. unfold File.seek at 1.
  cbn [at_end File.content File.is_open File.writes_left].
  unfold File.iobind at 1. unfold File.lift at 1.
  assert (Hdl : 0 + Z.of_nat (length out) + Z.of_nat (length (flush z st'))
                = Z.of_nat (length (deflate z (row_chunks rows)))).
  { rewrite Hpay, length_app. lia. }
  rewrite Hdl, (pack_I_u32 _ Hlen).
  unfold File.write, File.close, File.iobind.
  cbn [File.is_open File.writes_left File.content File.position negb option_map].
  f_equal. f_equal.
  unfold png_file. rewrite Hpay.
  match goal with
  | |- File.overwrite ?l (length ?a) ?n = _ =>
      replace l with (a ++ zero_len ++
                        (b_IDAT ++ (out ++ flush z st')
                         ++ be32 (crc32 (b_IDAT ++ out ++ flush z st') 0)
                         ++ iend_chunk))
        by (rewrite <- !app_assoc; reflexivity)
  end.
  rewrite overwrite_inside by reflexivity.
  rewrite <- !app_assoc. reflexivity.
Qed.

(** X18. A width, a height or a color type that the header cannot hold
    stops [_write_png] with the error of [struct]: by then the file has
    been created and holds the signature and the length of the header
    chunk, 12 bytes, and the handle is left open. *)
Theorem write_png_bad_header
    (z : Compressor) (width height color_type : Z)
    (rows : list (list rgbytes)) (f : File.t) :
  File.writes_left f = None ->
  ~ (u32 width /\ u32 height /\ u8 color_type) ->
  _write_png z width height rows color_type f =
  (Raise StructError, at_end (png_signature ++ be32 13)).
Proof.
  intros Hf Hbad. unfold _write_png.
  change (File.iobind File.open ?k f) with (k tt (File.mk [] 0 true (File.writes_left f))).
  cbv beta. rewrite Hf. change (File.mk [] 0 true None) with (at_end []).
  unfold File.iobind at 1. rewrite write_at_end.
  unfold File.iobind at 1. unfold File.lift at 1.
  rewrite (pack_I_u32 13) by (unfold u32; cbn; lia).
  unfold File.iobind at 1. rewrite write_at_end.
  unfold File.iobind at 1. unfold File.lift at 1.
  rewrite (pack_ihdr_raises _ _ _ Hbad). reflexivity.
Qed.

Lemma write_png_bad_header_witness :
  _write_png store_compressor (2 ^ 32) 1 [] 2 (File.mk [] 0 false None) =
  (Raise StructError, at_end (png_signature ++ be32 13)).
Proof.
  apply (write_png_bad_header store_compressor (2 ^ 32) 1 2 [] (File.mk [] 0 false None)).
  - reflexivity.
  - unfold u32. intros [[_ H] _]. revert H. apply Z.lt_irrefl.
Defined.

(** X19. [Grid.write_png], end to end.  When committing the pending pixel
    raises, no file is touched.  Otherwise the grid is sealed and, with
    dimensions and a payload that fit four bytes and writes that go
    through, the file is the picture of the exported rows: signature,
    header with color type 2, one compressed data chunk, end chunk. *)
Theorem grid_write_png (z : Compressor) (g : Grid.t) (f : File.t) :
  File.writes_left f = None ->
  (forall e : exn, Grid.finalize g = Raise e -> write_png z g f = (Raise e, f)) /\
  (forall (g' : Grid.t) (w h : Z) (rows : list (list rgbytes)),
     Grid.finalize g = Ok g' ->
     export_rows g' = (w, h, rows) ->
     u32 w -> u32 h ->
     u32 (Z.of_nat (length (deflate z (row_chunks rows)))) ->
     write_png z g f =
     (Ok g', File.mk (png_layout z w h rows) 37 false None)).
Proof.
  intros Hf. split.
  - intros e He. unfold write_png, File.iobind, File.lift. rewrite He. reflexivity.
  - intros g' w h rows Hg Hexp Hw Hh Hlen.
    unfold write_png. unfold File.iobind at 1. unfold File.lift at 1.
    rewrite Hg, Hexp. unfold File.iobind at 1.
    rewrite (write_png_run z w h 2 rows f Hw Hh ltac:(unfold u8; lia) Hf Hlen).
    reflexivity.
Qed.

Lemma grid_write_png_witness :
  exists g' : Grid.t,
    write_png store_compressor
      (Grid.mk 1 1 [] [] false 1 1 3 2 2 4 20 (20 # 4)%Q
         [(black_rgb, black_bytes)]
         [[black_bytes; white_bytes]; [white_bytes; black_bytes]]
         false (1 # 10)%Q)
      (File.mk [] 0 false None) =
    (Ok g',
     File.mk (png_layout store_compressor 2 2
                [[black_bytes; white_bytes]; [white_bytes; black_bytes]])
       37 false None).
Proof.
  eexists.
  refine (proj2 (grid_write_png store_compressor _ (File.mk [] 0 false None) _)
            _ 2 2 _ _ _ _ _ _).
  - reflexivity.
  - reflexivity.
  - reflexivity.
  - unfold u32. lia.
  - unfold u32. lia.
  - unfold u32. vm_compute. split; [discriminate | reflexivity].
Defined.

(** ** The snake is a path *)

(** Steps that count on by one and follow the formula of the snake lie
    on cells next to each other. *)
Lemma snake_steps_adjacent (E : Z) (l : list CurveStep) :
  0 < E ->
  forall k : Z,
    follows k l ->
    Forall (fun s => 0 <= step_x s < E /\
                     step_linear s =
                     step_y s * E
                     + (if Z.even (step_y s) then step_x s else E - 1 - step_x s)) l ->
    path (map step_yx l).
Proof.
  intros HE. induction l as [| s l IH]; intros k Hfol Hall; [exact I |].
  destruct l as [| s' t]; [exact I |].
  cbn [map]. change (adjacent (step_yx s) (step_yx s') /\ path (map step_yx (s' :: t))).
  cbn [follows] in Hfol. destruct Hfol as (Hs & Hs' & Hrest).
  inversion Hall as [| ? ? [Hx Hf] Hall']; subst.
  pose proof Hall' as Hall''.
  inversion Hall' as [| ? ? [Hx' Hf'] _]; subst.
  split.
  - destruct s as [[y x] ln], s' as [[y' x'] ln'].
    unfold adjacent, step_yx, step_y, step_x, step_linear in *. cbn [fst snd] in *.
    assert (Hcase : (y' = y) \/ (y' = y + 1)).
    { destruct (Z.even y), (Z.even y'); nia. }
    destruct Hcase as [-> | ->].
    + destruct (Z.even y); lia.
    + rewrite Z.even_add in Hf'. cbn [Z.even] in Hf'.
      destruct (Z.even y); cbn [Bool.eqb] in Hf'; nia.
  - apply (IH (k + 1)); [| exact Hall''].
    cbn [follows]. split; [exact Hs' | exact Hrest].
Qed.

(** X20. From order 1 on, the snake is a path over the whole grid: it visits
    every cell once, even rows from left to right and odd rows from right
    to left, and every step leads to a cell next to the one before. *)
Theorem snake_is_path (n : nat) :
  curve_bijective (S n) (snake (S n)) /\
  (forall s, In s (snake (S n)) ->
             step_x s = if Z.even (step_y s)
                        then step_linear s - step_y s * 2 ^ Z.of_nat (S n)
                        else 2 ^ Z.of_nat (S n) - 1
                             - (step_linear s - step_y s * 2 ^ Z.of_nat (S n))) /\
  path (map step_yx (snake (S n))).
Proof.
  destruct (snake_from_order_1 n) as [Hbij Hform].
  split; [exact Hbij |].
  split.
  { intros s Hs. specialize (Hform s Hs). cbv zeta in Hform.
    destruct (Z.even (step_y s)); lia. }
  set (E := 2 ^ Z.of_nat (S n)).
  assert (HE : 0 < E) by (apply Z.pow_pos_nonneg; lia).
  destruct Hbij as (_ & Hfol & _ & Hin).
  apply (snake_steps_adjacent E _ HE (-1) Hfol).
  apply Forall_forall. intros s Hs. split.
  - assert (Hq : In (step_yx s) (map step_yx (snake (S n))))
      by (apply in_map; exact Hs).
    apply Hin in Hq. unfold step_x, step_yx in *. fold E in Hq. lia.
  - apply (Hform s Hs).
Qed.

(** ** The coverages of a fill against the shares of the pixels *)

Lemma py_int_floor (q : Q) : (0 <= q)%Q -> py_int q = Qfloor q.
Proof.
  intros H. unfold py_int. apply Qle_bool_iff in H. rewrite H. reflexivity.
Qed.

Lemma py_int_negative (q : Q) : (q < 0)%Q -> py_int q <= 0.
Proof.
  intros H. unfold py_int.
  destruct (Qle_bool 0 q) eqn:E.
  - apply Qle_bool_iff in E. lra.
  - change 0 with (Qceiling 0). apply Qceiling_resp_le. lra.
Qed.

Lemma Qfloor_unique (x : Q) (n : Z) :
  (inject_Z n <= x)%Q -> (x < inject_Z (n + 1))%Q -> Qfloor x = n.
Proof.
  intros Hlo Hhi.
  pose proof (Qfloor_le x) as H1. pose proof (Qlt_floor x) as H2.
  assert (Ha : (inject_Z (Qfloor x) < inject_Z (n + 1))%Q) by lra.
  assert (Hb : (inject_Z n < inject_Z (Qfloor x + 1))%Q) by lra.
  rewrite <- Zlt_Qlt in Ha, Hb. lia.
Qed.

(** A quotient lies between its floor and the next integer; the same
    with the divisor on the other side. *)
Lemma floor_div_bounds (a bpp : Q) :
  (0 < bpp)%Q ->
  (inject_Z (Qfloor (a / bpp)) * bpp <= a
   /\ a < (inject_Z (Qfloor (a / bpp)) + 1) * bpp)%Q.
Proof.
  intros Hb.
  pose proof (Qfloor_le (a / bpp)) as H1. pose proof (Qlt_floor (a / bpp)) as H2.
  rewrite inject_Z_plus in H2. change (inject_Z 1) with 1%Q in H2.
  assert (E : (a == a / bpp * bpp)%Q) by (field; lra).
  generalize dependent (inject_Z (Qfloor (a / bpp))).
  generalize dependent (a / bpp)%Q.
  intros x E F H1 H2. rewrite E. split; nra.
Qed.

(** Where the first and the last pixel of a span that covers more than
    one pixel lie, in bytes. *)
Lemma span_bounds (bpp : Q) (first_byte length : Z) :
  (0 < bpp)%Q -> 0 <= first_byte ->
  Grid.first_pixel_of bpp first_byte < Grid.last_pixel_of bpp first_byte length ->
  let F := inject_Z (Grid.first_pixel_of bpp first_byte) in
  let L := inject_Z (Grid.last_pixel_of bpp first_byte length) in
  let A := inject_Z first_byte in
  let B := inject_Z (first_byte + length) in
  (F * bpp <= A /\ A < (F + 1) * bpp /\
   L * bpp <= B - 1 /\ B - 1 < (L + 1) * bpp /\
   F + 1 <= L /\
   py_mod A bpp == A - F * bpp)%Q.
Proof.
  intros Hb Hfb Hlt F L A B.
  assert (HA : (0 <= A)%Q)
    by (unfold A; change 0%Q with (inject_Z 0); rewrite <- Zle_Qle; exact Hfb).
  assert (HqA : (0 <= A / bpp)%Q) by (apply Qle_shift_div_l; [exact Hb | lra]).
  assert (EF : Grid.first_pixel_of bpp first_byte = Qfloor (A / bpp))
    by (apply py_int_floor; exact HqA).
  assert (Hfp0 : 0 <= Grid.first_pixel_of bpp first_byte).
  { rewrite EF. change 0 with (Qfloor 0). apply Qfloor_resp_le. exact HqA. }
  assert (EB : (inject_Z (first_byte + length - 1) == B - 1)%Q).
  { unfold B, Z.sub. rewrite !inject_Z_plus. reflexivity. }
  assert (HqB : (0 <= inject_Z (first_byte + length - 1) / bpp)%Q).
  { destruct (Qlt_le_dec (inject_Z (first_byte + length - 1) / bpp) 0) as [Hneg | ?];
      [exfalso | assumption].
    pose proof (py_int_negative _ Hneg) as Hn.
    unfold Grid.last_pixel_of in Hlt. lia. }
  assert (EL : Grid.last_pixel_of bpp first_byte length
               = Qfloor (inject_Z (first_byte + length - 1) / bpp))
    by (apply py_int_floor; exact HqB).
  destruct (floor_div_bounds A bpp Hb) as [HA1 HA2].
  destruct (floor_div_bounds (inject_Z (first_byte + length - 1)) bpp Hb) as [HB1 HB2].
  rewrite <- EF in HA1, HA2. rewrite <- EL in HB1, HB2. rewrite EB in HB1, HB2.
  fold F in HA1, HA2. fold L in HB1, HB2.
  assert (HFL : (F + 1 <= L)%Q).
  { unfold F, L. change 1%Q with (inject_Z 1).
    rewrite <- inject_Z_plus, <- Zle_Qle. lia. }
  repeat (match goal with |- _ /\ _ => split end); try assumption.
  unfold py_mod. fold A. rewrite <- EF. fold F. ring.
Qed.

(** The coverage of the first pixel is the share of it that the span
    covers. *)
Lemma pct_of_first_pixel_share (bpp : Q) (first_byte length : Z) :
  (0 < bpp)%Q -> 0 <= first_byte ->
  Grid.first_pixel_of bpp first_byte < Grid.last_pixel_of bpp first_byte length ->
  (Grid.pct_of_first_pixel bpp first_byte
   == pixel_share bpp first_byte length (Grid.first_pixel_of bpp first_byte))%Q.
Proof.
  intros Hb Hfb Hlt.
  destruct (span_bounds bpp first_byte length Hb Hfb Hlt)
    as (HA1 & HA2 & HB1 & HB2 & HFL & Hmod).
  unfold Grid.pct_of_first_pixel, pixel_share.
  rewrite Hmod, (inject_Z_plus (Grid.first_pixel_of bpp first_byte) 1).
  change (inject_Z 1) with 1%Q.
  set (F := inject_Z (Grid.first_pixel_of bpp first_byte)) in *.
  set (L := inject_Z (Grid.last_pixel_of bpp first_byte length)) in *.
  set (A := inject_Z first_byte) in *.
  set (B := inject_Z (first_byte + length)) in *.
  assert (HL : ((F + 1) * bpp <= L * bpp)%Q) by nra.
  assert (Emin : (Qmin B ((F + 1) * bpp) == (F + 1) * bpp)%Q)
    by (apply Q.min_r; lra).
  assert (Emax : (Qmax A (F * bpp) == A)%Q) by (apply Q.max_l; lra).
  rewrite Emin, Emax. field. lra.
Qed.

(** Every pixel strictly between the first and the last lies in the
    span with all its bytes. *)
Lemma middle_pixel_share (bpp : Q) (first_byte length p : Z) :
  (0 < bpp)%Q -> 0 <= first_byte ->
  Grid.first_pixel_of bpp first_byte < p ->
  p < Grid.last_pixel_of bpp first_byte length ->
  (pixel_share bpp first_byte length p == 1)%Q.
Proof.
  intros Hb Hfb Hlo Hhi.
  destruct (span_bounds bpp first_byte length Hb Hfb ltac:(lia))
    as (HA1 & HA2 & HB1 & HB2 & HFL & Hmod).
  unfold pixel_share. rewrite (inject_Z_plus p 1). change (inject_Z 1) with 1%Q.
  assert (Hp1 : (inject_Z (Grid.first_pixel_of bpp first_byte) + 1 <= inject_Z p)%Q).
  { change 1%Q with (inject_Z 1). rewrite <- inject_Z_plus, <- Zle_Qle. lia. }
  assert (Hp2 : (inject_Z p + 1 <= inject_Z (Grid.last_pixel_of bpp first_byte length))%Q).
  { change 1%Q with (inject_Z 1). rewrite <- inject_Z_plus, <- Zle_Qle. lia. }
  set (F := inject_Z (Grid.first_pixel_of bpp first_byte)) in *.
  set (L := inject_Z (Grid.last_pixel_of bpp first_byte length)) in *.
  set (A := inject_Z first_byte) in *.
  set (B := inject_Z (first_byte + length)) in *.
  set (P := inject_Z p) in *.
  assert (H1 : ((P + 1) * bpp <= L * bpp)%Q) by nra.
  assert (H2 : ((F + 1) * bpp <= P * bpp)%Q) by nra.
  assert (Emin : (Qmin B ((P + 1) * bpp) == (P + 1) * bpp)%Q)
    by (apply Q.min_r; lra).
  assert (Emax : (Qmax A (P * bpp) == P * bpp)%Q) by (apply Q.max_r; lra).
  rewrite Emin, Emax. field. lra.
Qed.

(** When the span ends within the last pixel, or on its far boundary,
    the coverage of the last pixel is the share of it that the span
    covers. *)
Lemma pct_of_last_pixel_share (bpp : Q) (first_byte length : Z) :
  (0 < bpp)%Q -> 0 <= first_byte ->
  Grid.first_pixel_of bpp first_byte < Grid.last_pixel_of bpp first_byte length ->
  (inject_Z (first_byte + length)
   <= inject_Z (Grid.last_pixel_of bpp first_byte length + 1) * bpp)%Q ->
  (Grid.pct_of_last_pixel bpp first_byte length
   == pixel_share bpp first_byte length (Grid.last_pixel_of bpp first_byte length))%Q.
Proof.
  intros Hb Hfb Hlt Hend.
  destruct (span_bounds bpp first_byte length Hb Hfb Hlt)
    as (HA1 & HA2 & HB1 & HB2 & HFL & _).
  unfold Grid.pct_of_last_pixel, pixel_share.
  rewrite (inject_Z_plus (Grid.last_pixel_of bpp first_byte length) 1) in Hend |- *.
  change (inject_Z 1) with 1%Q in *.
  set (lp := Grid.last_pixel_of bpp first_byte length) in *.
  set (F := inject_Z (Grid.first_pixel_of bpp first_byte)) in *.
  set (L := inject_Z lp) in *.
  set (A := inject_Z first_byte) in *.
  set (B := inject_Z (first_byte + length)) in *.
  assert (HL : ((F + 1) * bpp <= L * bpp)%Q) by nra.
  assert (Emin : (Qmin B ((L + 1) * bpp) == B)%Q) by (apply Q.min_l; exact Hend).
  assert (Emax : (Qmax A (L * bpp) == L * bpp)%Q) by (apply Q.max_r; lra).
  rewrite Emin, Emax.
  destruct (Qlt_le_dec B ((L + 1) * bpp)) as [Hin | Hon].
  - assert (Efl : Qfloor (B / bpp) = lp).
    { apply Qfloor_unique.
      - apply Qle_shift_div_l; [exact Hb | fold L; lra].
      - rewrite inject_Z_plus. change (inject_Z 1) with 1%Q. fold L.
        apply Qlt_shift_div_r; [exact Hb | exact Hin]. }
    assert (Emod : (py_mod B bpp == B - L * bpp)%Q)
      by (unfold py_mod; rewrite Efl; fold L; ring).
    destruct (Qeq_bool (py_mod B bpp / bpp) 0) eqn:E0.
    + exfalso. apply Qeq_bool_iff in E0. rewrite Emod in E0.
      assert (H0 : (B - L * bpp == 0)%Q).
      { setoid_replace (B - L * bpp)%Q with ((B - L * bpp) / bpp * bpp)%Q
          by (field; lra).
        rewrite E0. ring. }
      lra.
    + rewrite Emod. reflexivity.
  - assert (EB : (B == (L + 1) * bpp)%Q) by lra.
    assert (Efl : Qfloor (B / bpp) = lp + 1).
    { apply Qfloor_unique.
      - rewrite inject_Z_plus. change (inject_Z 1) with 1%Q. fold L.
        apply Qle_shift_div_l; [exact Hb | lra].
      - rewrite !inject_Z_plus. change (inject_Z 1) with 1%Q. fold L.
        apply Qlt_shift_div_r; [exact Hb | nra]. }
    assert (Emod : (py_mod B bpp == 0)%Q).
    { unfold py_mod. rewrite Efl, inject_Z_plus.
      change (inject_Z 1) with 1%Q. fold L. rewrite EB. ring. }
    assert (E0 : Qeq_bool (py_mod B bpp / bpp) 0 = true).
    { apply Qeq_bool_iff. rewrite Emod. unfold Qdiv. ring. }
    rewrite E0, EB. field. lra.
Qed.

(** With a whole number of bytes to the pixel, a span always ends within
    its last pixel or on its far boundary. *)
Lemma span_ends_in_last_pixel (bpp : Q) (b first_byte length : Z) :
  (bpp == inject_Z b)%Q -> 0 < b -> 0 <= first_byte -> 1 <= length ->
  (inject_Z (first_byte + length)
   <= inject_Z (Grid.last_pixel_of bpp first_byte length + 1) * bpp)%Q.
Proof.
  intros E Hb Hfb Hlen. unfold Grid.last_pixel_of.
  rewrite (py_int_whole (first_byte + length - 1) b bpp E Hb) by lia.
  rewrite E, <- inject_Z_mult, <- Zle_Qle.
  pose proof (Z.div_mod (first_byte + length - 1) b ltac:(lia)) as D.
  pose proof (Z.mod_pos_bound (first_byte + length - 1) b Hb) as M.
  nia.
Qed.

(** X21. A fill that spans more than one pixel, against the shares of
    the pixels.  The first pixel is committed with an entry whose coverage
    is the share of that pixel that the span covers, added to what it held;
    every pixel strictly between the first and the last lies in the span
    with all its bytes and is set to the color of the single entry
    [(color, used_pct, 1)]; the last pixel is left pending, its buffer cell
    untouched, with exactly one entry.  When the span ends within the last
    pixel or on its far boundary, as it always does with a whole number of
    bytes to the pixel, the coverage of that entry is the share of the last
    pixel that the span covers. *)
Theorem fill_spans_shares
    (g : Grid.t) (first_byte length : Z) (used_pct : Q) (c : color) :
  let bpp := Grid.bytes_per_pixel g in
  let mb := Grid._min_brightness g in
  let first_pixel := Grid.first_pixel_of bpp first_byte in
  let last_pixel := Grid.last_pixel_of bpp first_byte length in
  fill_ready g first_byte length used_pct c ->
  NoDup (map step_yx (cursor g :: Grid.curve g)) ->
  (0 < bpp)%Q -> 0 <= first_byte ->
  first_pixel < last_pixel ->
  exists (g' : Grid.t) (pct_first pct_last : Q),
    Grid.fill g first_byte length used_pct c = Ok g' /\
    (pct_first == pixel_share bpp first_byte length first_pixel)%Q /\
    (exists s1 : CurveStep,
       In s1 (cursor g :: Grid.curve g) /\
       step_linear s1 = first_pixel /\
       pixel_at (Grid._grid g') (step_yx s1) =
       Some (packed mb (first_mix g first_pixel ++ [(c, used_pct, pct_first)]))) /\
    (forall s : CurveStep,
       In s (Grid.curve g) -> strictly_between first_pixel last_pixel s ->
       (pixel_share bpp first_byte length (step_linear s) == 1)%Q /\
       pixel_at (Grid._grid g') (step_yx s) = Some (packed mb [(c, used_pct, 1%Q)])) /\
    Grid.linear g' = last_pixel /\
    Grid._pixel_dirty g' = true /\
    Grid._pixel_mix g' = [(c, used_pct, pct_last)] /\
    pixel_at (Grid._grid g') (Grid.y g', Grid.x g') =
    pixel_at (Grid._grid g) (Grid.y g', Grid.x g') /\
    ((inject_Z (first_byte + length) <= inject_Z (last_pixel + 1) * bpp)%Q ->
     (pct_last == pixel_share bpp first_byte length last_pixel)%Q) /\
    (forall b : Z,
       (bpp == inject_Z b)%Q ->
       (inject_Z (first_byte + length) <= inject_Z (last_pixel + 1) * bpp)%Q).
Proof.
  intros bpp mb first_pixel last_pixel Hready Hnd Hbpp Hfb Hlt.
  destruct (fill_spans_pixels g first_byte length used_pct c Hready Hnd Hlt)
    as (g' & Hrun & _ & Hfirst & Hmid & Hlin & _ & _ & Hdirty & Hmix & Hcell).
  exists g', (Grid.pct_of_first_pixel bpp first_byte),
         (Grid.pct_of_last_pixel bpp first_byte length).
  repeat (match goal with |- _ /\ _ => split end).
  - exact Hrun.
  - apply pct_of_first_pixel_share; assumption.
  - exact Hfirst.
  - intros s Hs Hbetween. split.
    + destruct Hbetween as [Hlo Hhi].
      apply middle_pixel_share; assumption.
    + apply Hmid; assumption.
  - exact Hlin.
  - exact Hdirty.
  - exact Hmix.
  - exact Hcell.
  - intros Hend. apply pct_of_last_pixel_share; assumption.
  - intros b Eb.
    assert (Hb : 0 < b).
    { rewrite Eb in Hbpp. change 0%Q with (inject_Z 0) in Hbpp.
      rewrite <- Zlt_Qlt in Hbpp. exact Hbpp. }
    apply (span_ends_in_last_pixel bpp b); try assumption.
    destruct (Z.le_gt_cases 1 length) as [? | Hshort]; [assumption | exfalso].
    assert (Hmono : last_pixel <= first_pixel).
    { unfold last_pixel, first_pixel, Grid.last_pixel_of, Grid.first_pixel_of.
      destruct (Z.le_gt_cases 0 (first_byte + length - 1)) as [Hnn | Hneg].
      - rewrite !(py_int_whole _ b bpp Eb Hb) by lia.
        apply Z.div_le_mono; lia.
      - assert (Hq : (inject_Z (first_byte + length - 1) / bpp < 0)%Q).
        { apply Qlt_shift_div_r; [exact Hbpp |]. rewrite Qmult_0_l.
          change 0%Q with (inject_Z 0). rewrite <- Zlt_Qlt. lia. }
        pose proof (py_int_negative _ Hq) as Hn.
        rewrite (py_int_whole first_byte b bpp Eb Hb Hfb).
        pose proof (Z.div_pos first_byte b Hfb Hb). lia. }
    lia.
Qed.

Lemma fill_spans_shares_witness :
  exists (g' : Grid.t) (pct_last : Q),
    Grid.fill small_grid 0 8 1 white = Ok g' /\
    Grid._pixel_mix g' = [(white, 1%Q, pct_last)] /\
    (pct_last == pixel_share (Grid.bytes_per_pixel small_grid) 0 8 1)%Q.
Proof.
  destruct (fill_spans_shares small_grid 0 8 1 white)
    as (g' & pf & pl & Hrun & _ & _ & _ & _ & _ & Hmix & _ & Hend & Hwhole).
  - apply fill_ready_small_grid. split; intros H; discriminate H.
  - exact small_grid_injective.
  - reflexivity.
  - intros H. discriminate H.
  - reflexivity.
  - exists g', pl. split; [exact Hrun |]. split; [exact Hmix |].
    apply Hend. apply (Hwhole 5). reflexivity.
Defined.

(** ** The last pixel of a span, with bytes per pixel that are not whole *)

(** C2, at 10 bytes on the grid of order 1, that is 5/2 bytes to the
    pixel, for the 8 bytes from byte 0.  The last pixel of the span is
    pixel 2, the bytes from 5 up to 7.5, and all of it lies in the span:
    its share is 1.  The entry [fill] leaves on it has coverage 1/5, which
    is [(0 + 8) % 2.5 / 2.5], the share of pixel 3.  Committed as it is,
    the pixel, all white and all used, comes out as the dark [0e 0e 0e]. *)
Theorem fill_last_pixel_share_lost :
  exists (g g' g'' : Grid.t) (pct_last : Q),
    Grid.__init__ (Some 1) None 10 33554432 None None = Ok g /\
    (Grid.bytes_per_pixel g == 5 # 2)%Q /\
    Grid.fill g 0 8 1 white = Ok g' /\
    Grid.last_pixel_of (Grid.bytes_per_pixel g) 0 8 = 2 /\
    Grid.linear g' = 2 /\
    (Grid.y g', Grid.x g') = (0, 1) /\
    Grid._pixel_mix g' = [(white, 1%Q, pct_last)] /\
    (pct_last == 1 # 5)%Q /\
    (pixel_share (Grid.bytes_per_pixel g) 0 8 2 == 1)%Q /\
    Grid.finalize g' = Ok g'' /\
    pixel_at (Grid._grid g'') (0, 1) = Some [x0e; x0e; x0e].
Proof.
  eexists. eexists. eexists. eexists.
  split; [vm_compute; reflexivity |].
  split; [vm_compute; reflexivity |].
  split; [vm_compute; reflexivity |].
  split; [vm_compute; reflexivity |].
  split; [vm_compute; reflexivity |].
  split; [vm_compute; reflexivity |].
  split; [vm_compute; reflexivity |].
  split; [vm_compute; reflexivity |].
  split; [vm_compute; reflexivity |].
  split; [vm_compute; reflexivity |].
  vm_compute. reflexivity.
Qed.
